(** * fast-grep: byte-level pattern matching of the grep utility

    Shallow embedding of [src/commands/grep/fast-grep.ts] and the
    properties of its specification.

    A [Uint8Array] is a list of integers (each element in [0, 256)),
    array indices and line numbers are natural numbers, a JavaScript
    string is the list of its UTF-16 code units.  A loop of the source
    is a recursive function; where it is a [while] loop the function
    takes the number of remaining iterations, chosen so that the loop
    condition is false when it reaches zero. *)

From Stdlib Require Import String Ascii.
From Stdlib Require Import ZArith List Bool Arith Lia Sorted.
Import ListNotations.

(** ** Arrays and strings *)

Definition Uint8Array := list Z.
Definition jsstring := list Z.

Definition NEWLINE : Z := 0x0a.

(** [chunk[i]]: [None] is JavaScript's [undefined] (index out of range). *)
Definition at_ (chunk : list Z) (i : nat) : option Z := nth_error chunk i.

(** Strict equality [===] of two array reads. *)
Definition same (a b : option Z) : bool :=
  match a, b with
  | Some x, Some y => Z.eqb x y
  | None, None => true
  | _, _ => false
  end.

(** A store into a [Uint8Array] keeps the low eight bits. *)
Definition u8 (x : Z) : Z := (x mod 256)%Z.

(** [a.slice(start, end)] for [start <= end] within the array. *)
Definition slice (a : list Z) (start end_ : nat) : list Z :=
  firstn (end_ - start) (skipn start a).

Fixpoint indexFrom (l : list Z) (v : Z) (i : nat) : option nat :=
  match l with
  | [] => None
  | x :: t => if Z.eqb x v then Some i else indexFrom t v (S i)
  end.

(** [a.indexOf(v, from)]; [None] stands for [-1]. *)
Definition indexOf (a : list Z) (v : Z) (from : nat) : option nat :=
  indexFrom (skipn from a) v from.

Fixpoint lastIndexFrom (l : list Z) (v : Z) (i : nat) (found : option nat)
  : option nat :=
  match l with
  | [] => found
  | x :: t => lastIndexFrom t v (S i) (if Z.eqb x v then Some i else found)
  end.

(** [a.lastIndexOf(v)]; [None] stands for [-1]. *)
Definition lastIndexOf (a : list Z) (v : Z) : option nat :=
  lastIndexFrom a v 0 None.

Fixpoint jsstring_eqb (a b : jsstring) : bool :=
  match a, b with
  | [], [] => true
  | x :: a', y :: b' => Z.eqb x y && jsstring_eqb a' b'
  | _, _ => false
  end.

(** The code units of an ASCII literal. *)
Definition lit (s : string) : list Z :=
  map (fun c => Z.of_nat (nat_of_ascii c)) (list_ascii_of_string s).

(** ** The platform's UTF-8 decoder and encoder

    [textDecoder] is [new TextDecoder('utf-8', { fatal: false })] and
    [textEncoder] is [new TextEncoder()]; both follow the WHATWG Encoding
    Standard, transcribed here. *)

Module Utf8.

Local Open Scope Z_scope.

Record state := mkState {
  code_point : Z;
  bytes_seen : nat;
  bytes_needed : nat;
  lower : Z;
  upper : Z
}.

Definition start : state := mkState 0 0 0 0x80 0xBF.

Definition REPLACEMENT : Z := 0xFFFD.

Definition in_range (lo hi b : Z) : bool := Z.leb lo b && Z.leb b hi.

(** The decoder's handler when no continuation byte is pending: the code
    points emitted and the next state. *)
Definition lead (b : Z) : list Z * state :=
  if in_range 0x00 0x7F b then ([b], start)
  else if in_range 0xC2 0xDF b then
    ([], mkState (Z.land b 0x1F) 0 1 0x80 0xBF)
  else if in_range 0xE0 0xEF b then
    ([], mkState (Z.land b 0xF) 0 2
           (if Z.eqb b 0xE0 then 0xA0 else 0x80)
           (if Z.eqb b 0xED then 0x9F else 0xBF))
  else if in_range 0xF0 0xF4 b then
    ([], mkState (Z.land b 0x7) 0 3
           (if Z.eqb b 0xF0 then 0x90 else 0x80)
           (if Z.eqb b 0xF4 then 0x8F else 0xBF))
  else ([REPLACEMENT], start).

(** The handler on one byte.  A byte that cannot continue the pending
    sequence ends it with U+FFFD and is processed again from the start
    state. *)
Definition handler (st : state) (b : Z) : list Z * state :=
  if Nat.eqb (bytes_needed st) 0 then lead b
  else if negb (in_range (lower st) (upper st) b) then
    let '(out, st') := lead b in (REPLACEMENT :: out, st')
  else
    let cp := Z.lor (Z.shiftl (code_point st) 6) (Z.land b 0x3F) in
    let seen := S (bytes_seen st) in
    if Nat.eqb seen (bytes_needed st) then ([cp], start)
    else ([], mkState cp seen (bytes_needed st) 0x80 0xBF).

Fixpoint run (st : state) (bytes : list Z) : list Z :=
  match bytes with
  | [] => if Nat.eqb (bytes_needed st) 0 then [] else [REPLACEMENT]
  | b :: rest => let '(out, st') := handler st b in out ++ run st' rest
  end.

(** The byte order mark is not part of the output ([ignoreBOM] is off). *)
Definition stripBOM (cps : list Z) : list Z :=
  match cps with
  | c :: rest => if Z.eqb c 0xFEFF then rest else cps
  | [] => []
  end.

(** A code point as UTF-16 code units. *)
Definition units (c : Z) : list Z :=
  if Z.ltb c 0x10000 then [c]
  else let c' := c - 0x10000 in
       [0xD800 + Z.shiftr c' 10; 0xDC00 + Z.land c' 0x3FF].

Definition decode (bytes : Uint8Array) : jsstring :=
  flat_map units (stripBOM (run start bytes)).

(** The code points of a string; a surrogate that has no partner becomes
    U+FFFD. *)
Fixpoint scalars (s : jsstring) : list Z :=
  match s with
  | [] => []
  | u :: rest =>
    if in_range 0xD800 0xDBFF u then
      match rest with
      | v :: rest' =>
        if in_range 0xDC00 0xDFFF v
        then (0x10000 + Z.shiftl (u - 0xD800) 10 + (v - 0xDC00)) :: scalars rest'
        else REPLACEMENT :: scalars rest
      | [] => [REPLACEMENT]
      end
    else if in_range 0xDC00 0xDFFF u then REPLACEMENT :: scalars rest
    else u :: scalars rest
  end.

Definition cont (c : Z) (shift : Z) : Z :=
  Z.lor 0x80 (Z.land (Z.shiftr c shift) 0x3F).

Definition bytes_of (c : Z) : list Z :=
  if Z.leb c 0x7F then [c]
  else if Z.leb c 0x7FF then [Z.lor 0xC0 (Z.shiftr c 6); cont c 0]
  else if Z.leb c 0xFFFF then [Z.lor 0xE0 (Z.shiftr c 12); cont c 6; cont c 0]
  else [Z.lor 0xF0 (Z.shiftr c 18); cont c 12; cont c 6; cont c 0].

Definition encode (s : jsstring) : Uint8Array :=
  flat_map bytes_of (scalars s).

End Utf8.

Definition decode := Utf8.decode.
Definition encode := Utf8.encode.

(** ** Literal scanner *)

Definition toLowerAscii (byte : Z) : Z :=
  if Z.leb 65 byte && Z.leb byte 90 then (byte + 32)%Z else byte.

(** The inner loop of [findPatternPositions] from [j], [n] iterations
    left: does [chunk[i + j] === pattern[j]] hold for all of them? *)
Fixpoint restMatches (chunk pattern : Uint8Array) (i j n : nat) : bool :=
  match n with
  | 0 => true
  | S n' =>
    if same (at_ chunk (i + j)) (at_ pattern j)
    then restMatches chunk pattern i (S j) n'
    else false
  end.

(** The outer loop from [i], [n] iterations left. *)
Fixpoint scanFrom (chunk pattern : Uint8Array) (firstByte : option Z)
    (i n : nat) : list nat :=
  match n with
  | 0 => []
  | S n' =>
    if negb (same (at_ chunk i) firstByte) then
      scanFrom chunk pattern firstByte (S i) n'
    else if restMatches chunk pattern i 1 (length pattern - 1) then
      i :: scanFrom chunk pattern firstByte (S i) n'
    else scanFrom chunk pattern firstByte (S i) n'
  end.

Definition findPatternPositions (chunk pattern : Uint8Array) : list nat :=
  if Nat.eqb (length pattern) 0 || Nat.ltb (length chunk) (length pattern)
  then []
  else
    let firstByte := at_ pattern 0 in
    let patternLen := length pattern in
    let searchEnd := length chunk - patternLen + 1 in
    scanFrom chunk pattern firstByte 0 searchEnd.

Fixpoint restMatchesIgnoreCase (chunk lowerPattern : Uint8Array)
    (i j n : nat) : bool :=
  match n with
  | 0 => true
  | S n' =>
    if same (option_map toLowerAscii (at_ chunk (i + j))) (at_ lowerPattern j)
    then restMatchesIgnoreCase chunk lowerPattern i (S j) n'
    else false
  end.

Fixpoint scanFromIgnoreCase (chunk lowerPattern : Uint8Array)
    (firstByte : option Z) (i n : nat) : list nat :=
  match n with
  | 0 => []
  | S n' =>
    if negb (same (option_map toLowerAscii (at_ chunk i)) firstByte) then
      scanFromIgnoreCase chunk lowerPattern firstByte (S i) n'
    else if restMatchesIgnoreCase chunk lowerPattern i 1
              (length lowerPattern - 1) then
      i :: scanFromIgnoreCase chunk lowerPattern firstByte (S i) n'
    else scanFromIgnoreCase chunk lowerPattern firstByte (S i) n'
  end.

Definition findPatternPositionsIgnoreCase (chunk pattern : Uint8Array)
  : list nat :=
  if Nat.eqb (length pattern) 0 || Nat.ltb (length chunk) (length pattern)
  then []
  else
    let patternLen := length pattern in
    let searchEnd := length chunk - patternLen + 1 in
    let lowerPattern := map (fun b => u8 (toLowerAscii b)) pattern in
    let firstByte := at_ lowerPattern 0 in
    scanFromIgnoreCase chunk lowerPattern firstByte 0 searchEnd.

(** ** Boundary utilities *)

Definition isWordByte (byte : Z) : bool :=
  (Z.leb 48 byte && Z.leb byte 57)
  || (Z.leb 65 byte && Z.leb byte 90)
  || (Z.leb 97 byte && Z.leb byte 122)
  || Z.eqb byte 95.

(** [isWordByte] of an array read; every comparison with [undefined] is
    false. *)
Definition isWordByteAt (b : option Z) : bool :=
  match b with
  | Some byte => isWordByte byte
  | None => false
  end.

Definition isWordBoundary (chunk : Uint8Array) (pos patternLen : nat) : bool :=
  let beforeOk := Nat.eqb pos 0 || negb (isWordByteAt (at_ chunk (pos - 1))) in
  let afterOk :=
    Nat.leb (length chunk) (pos + patternLen)
    || negb (isWordByteAt (at_ chunk (pos + patternLen))) in
  beforeOk && afterOk.

(** [while (start > 0 && chunk[start - 1] !== NEWLINE) start--] *)
Fixpoint lineStartAt (chunk : Uint8Array) (start : nat) : nat :=
  match start with
  | 0 => 0
  | S start' =>
    if negb (same (at_ chunk start') (Some NEWLINE))
    then lineStartAt chunk start'
    else start
  end.

(** [while (end < chunk.length && chunk[end] !== NEWLINE) end++], with [n]
    iterations left. *)
Fixpoint lineEndAt (chunk : Uint8Array) (end_ n : nat) : nat :=
  match n with
  | 0 => end_
  | S n' =>
    if Nat.ltb end_ (length chunk) && negb (same (at_ chunk end_) (Some NEWLINE))
    then lineEndAt chunk (S end_) n'
    else end_
  end.

Record Line := mkLine {
  line_start : nat;
  line_end : nat;
  line_content : jsstring
}.

Definition extractLineAt (chunk : Uint8Array) (pos : nat) : Line :=
  let start := lineStartAt chunk pos in
  let end_ := lineEndAt chunk pos (length chunk - pos) in
  mkLine start end_ (decode (slice chunk start end_)).

Fixpoint countFrom (chunk : Uint8Array) (i n : nat) : nat :=
  match n with
  | 0 => 0
  | S n' =>
    (if same (at_ chunk i) (Some NEWLINE) then 1 else 0)
    + countFrom chunk (S i) n'
  end.

Definition countNewlines (chunk : Uint8Array) (start end_ : nat) : nat :=
  countFrom chunk start (end_ - start).

(** ** Options and results *)

(** The pattern evaluator: a regular expression whose [exec] honours
    [lastIndex] (flag [g] or [y]), as the loop of [grepBufferRegex]
    requires.  [re_search s i] is the match [exec] finds in [s] when
    [lastIndex] is [i]: the index where it starts and the index where it
    ends. *)
Record RegExp := mkRegExp {
  re_search : jsstring -> nat -> option (nat * nat);
  re_bounds : forall s i b e,
    re_search s i = Some (b, e) -> i <= b /\ b <= e /\ e <= length s
}.

Record FastGrepOptions := mkOptions {
  pattern : jsstring;
  regex : RegExp;
  isLiteral : bool;
  ignoreCase : bool;
  invertMatch : bool;
  wholeWord : bool;
  lineRegexp : bool;
  maxCount : nat;
  onlyMatching : bool
}.

Record GrepLineResult := mkResult {
  lineNumber : nat;
  content : jsstring;
  matches : option (list jsstring)
}.

(** [options.maxCount > 0 && n >= options.maxCount] *)
Definition reached (options : FastGrepOptions) (n : nat) : bool :=
  Nat.ltb 0 (maxCount options) && Nat.leb (maxCount options) n.

(** ** Match aggregator, literal path *)

Record LineMatch := mkLineMatch {
  lm_lineNumber : nat;
  lm_content : jsstring;
  lm_positions : list nat
}.

(** [Map<number, ...>]: the entries in insertion order. *)
Definition LineMap := list (nat * LineMatch).

Definition mapHas (m : LineMap) (k : nat) : bool :=
  existsb (fun e => Nat.eqb (fst e) k) m.

Fixpoint mapReplace (m : LineMap) (k : nat) (v : LineMatch) : LineMap :=
  match m with
  | [] => []
  | (k', v') :: t =>
    if Nat.eqb k' k then (k', v) :: t else (k', v') :: mapReplace t k v
  end.

Definition mapSet (m : LineMap) (k : nat) (v : LineMatch) : LineMap :=
  if mapHas m k then mapReplace m k v else m ++ [(k, v)].

(** [m.get(k)!.positions.push(p)] *)
Fixpoint pushPosition (m : LineMap) (k p : nat) : LineMap :=
  match m with
  | [] => []
  | (k', v) :: t =>
    if Nat.eqb k' k
    then (k', mkLineMatch (lm_lineNumber v) (lm_content v)
                (lm_positions v ++ [p])) :: t
    else (k', v) :: pushPosition t k p
  end.

(** The fast-forward loop of [grepBufferLiteral], [n] iterations left:
    the start and the number of the line that contains [pos]. *)
Fixpoint fastForward (buffer : Uint8Array) (pos : nat)
    (currentLineStart currentLineNum n : nat) : nat * nat :=
  match n with
  | 0 => (currentLineStart, currentLineNum)
  | S n' =>
    if Nat.ltb currentLineStart pos then
      match indexOf buffer NEWLINE currentLineStart with
      | None => (currentLineStart, currentLineNum)
      | Some nlPos =>
        if Nat.leb pos nlPos then (currentLineStart, currentLineNum)
        else fastForward buffer pos (S nlPos) (S currentLineNum) n'
      end
    else (currentLineStart, currentLineNum)
  end.

(** [for (const pos of positions)] of [grepBufferLiteral]. *)
Fixpoint groupByLine (buffer : Uint8Array) (options : FastGrepOptions)
    (patternLen : nat) (positions : list nat)
    (currentLineStart currentLineNum : nat) (lineMatches : LineMap)
  : LineMap :=
  match positions with
  | [] => lineMatches
  | pos :: rest =>
    let '(currentLineStart, currentLineNum) :=
      fastForward buffer pos currentLineStart currentLineNum
        (pos - currentLineStart) in
    if wholeWord options && negb (isWordBoundary buffer pos patternLen) then
      groupByLine buffer options patternLen rest
        currentLineStart currentLineNum lineMatches
    else
      let line := extractLineAt buffer pos in
      if lineRegexp options
         && negb (jsstring_eqb (line_content line) (pattern options)) then
        groupByLine buffer options patternLen rest
          currentLineStart currentLineNum lineMatches
      else
        let lineMatches :=
          if negb (mapHas lineMatches currentLineNum)
          then mapSet lineMatches currentLineNum
                 (mkLineMatch currentLineNum (line_content line) [])
          else lineMatches in
        let lineMatches :=
          pushPosition lineMatches currentLineNum (pos - line_start line) in
        if reached options (length lineMatches) then lineMatches
        else groupByLine buffer options patternLen rest
               currentLineStart currentLineNum lineMatches
  end.

Definition materialize (options : FastGrepOptions) (entry : nat * LineMatch)
  : GrepLineResult :=
  let m := snd entry in
  if onlyMatching options
  then mkResult (lm_lineNumber m) (pattern options) None
  else mkResult (lm_lineNumber m) (lm_content m) None.

(** ** Invert mode *)

Definition setHas (s : list nat) (n : nat) : bool := existsb (Nat.eqb n) s.

Definition setAdd (s : list nat) (n : nat) : list nat :=
  if setHas s n then s else s ++ [n].

Definition actualEndOf (buffer : Uint8Array) (lineStart : nat) : nat :=
  match indexOf buffer NEWLINE lineStart with
  | None => length buffer
  | Some lineEnd => lineEnd
  end.

(** The inner loop of the first pass; [ps] is [matchPositions] from
    [posIdx] on.  Returns what is left of it and the set. *)
Fixpoint markLine (ps : list nat) (lineStart actualEnd lineNum : nat)
    (matchSet : list nat) : list nat * list nat :=
  match ps with
  | [] => ([], matchSet)
  | p :: ps' =>
    if Nat.ltb p actualEnd then
      markLine ps' lineStart actualEnd lineNum
        (if Nat.leb lineStart p then setAdd matchSet lineNum else matchSet)
    else (ps, matchSet)
  end.

(** The first pass, [n] iterations left. *)
Fixpoint markLines (buffer : Uint8Array) (ps : list nat)
    (lineStart lineNum : nat) (matchSet : list nat) (n : nat) : list nat :=
  match n with
  | 0 => matchSet
  | S n' =>
    if Nat.ltb lineStart (length buffer) && Nat.ltb 0 (length ps) then
      let actualEnd := actualEndOf buffer lineStart in
      let '(ps', matchSet') :=
        markLine ps lineStart actualEnd lineNum matchSet in
      markLines buffer ps' (actualEnd + 1) (lineNum + 1) matchSet' n'
    else matchSet
  end.

(** The second pass, [n] iterations left. *)
Fixpoint collectLines (buffer : Uint8Array) (options : FastGrepOptions)
    (matchSet : list nat) (lineStart lineNum matchCount n : nat)
  : list GrepLineResult :=
  match n with
  | 0 => []
  | S n' =>
    if Nat.ltb lineStart (length buffer) then
      let actualEnd := actualEndOf buffer lineStart in
      if negb (setHas matchSet lineNum) then
        let r := mkResult lineNum (decode (slice buffer lineStart actualEnd))
                   None in
        let matchCount := matchCount + 1 in
        if reached options matchCount then [r]
        else r :: collectLines buffer options matchSet
                    (actualEnd + 1) (lineNum + 1) matchCount n'
      else collectLines buffer options matchSet
             (actualEnd + 1) (lineNum + 1) matchCount n'
    else []
  end.

Definition grepBufferInvert (buffer : Uint8Array) (matchPositions : list nat)
    (options : FastGrepOptions) : list GrepLineResult :=
  let matchSet := markLines buffer matchPositions 0 1 [] (length buffer) in
  collectLines buffer options matchSet 0 1 0 (length buffer).

Definition grepBufferLiteral (buffer : Uint8Array) (options : FastGrepOptions)
  : list GrepLineResult :=
  let patternBytes := encode (pattern options) in
  let findFn := if ignoreCase options
                then findPatternPositionsIgnoreCase
                else findPatternPositions in
  let positions := findFn buffer patternBytes in
  if invertMatch options then grepBufferInvert buffer positions options
  else
    let lineMatches :=
      groupByLine buffer options (length patternBytes) positions 0 1 [] in
    map (materialize options) lineMatches.

(** ** Regex line matcher *)

(** [s.split('\n')] *)
Fixpoint split (s : jsstring) (sep : Z) : list jsstring :=
  match s with
  | [] => [[]]
  | c :: rest =>
    if Z.eqb c sep then [] :: split rest sep
    else match split rest sep with
         | l :: ls => (c :: l) :: ls
         | [] => [[c]]
         end
  end.

(** [s.endsWith('\n')] *)
Definition endsWith (s : jsstring) (c : Z) : bool :=
  match rev s with
  | x :: _ => Z.eqb x c
  | [] => false
  end.

(** [regex.exec(line)] with [regex.lastIndex = lastIndex]: the match and
    the value [exec] leaves in [lastIndex]. *)
Definition exec (re : RegExp) (line : jsstring) (lastIndex : nat)
  : option (nat * nat) * nat :=
  if Nat.ltb (length line) lastIndex then (None, 0)
  else match re_search re line lastIndex with
       | None => (None, 0)
       | Some (b, e) => (Some (b, e), e)
       end.

(** [regex.lastIndex = 0; regex.test(line)] *)
Definition test (re : RegExp) (line : jsstring) : bool :=
  match fst (exec re line 0) with
  | Some _ => true
  | None => false
  end.

(** The [exec] loop of the only-matching branch, [n] iterations left: the
    fragments [match[0]] in the order they are pushed. *)
Fixpoint execAll (re : RegExp) (line : jsstring) (lastIndex n : nat)
  : list jsstring :=
  match n with
  | 0 => []
  | S n' =>
    match exec re line lastIndex with
    | (None, _) => []
    | (Some (b, e), lastIndex') =>
      let m := slice line b e in
      m :: execAll re line
             (if Nat.eqb (length m) 0 then lastIndex' + 1 else lastIndex') n'
    end
  end.

(** What one selected line pushes onto [results]. *)
Definition pushedFor (options : FastGrepOptions) (line : jsstring) (i : nat)
  : list GrepLineResult :=
  if onlyMatching options && negb (invertMatch options)
  then map (fun m => mkResult (i + 1) m None)
         (execAll (regex options) line 0 (length line + 2))
  else [mkResult (i + 1) line None].

(** [for (let i = 0; i < lines.length; i++)] of [grepBufferRegex];
    [lines] is what is left from index [i] on. *)
Fixpoint regexLines (options : FastGrepOptions) (lines : list jsstring)
    (i matchCount : nat) : list GrepLineResult :=
  match lines with
  | [] => []
  | line :: rest =>
    let hasMatch := test (regex options) line in
    if negb (Bool.eqb hasMatch (invertMatch options)) then
      let pushed := pushedFor options line i in
      let matchCount := matchCount + 1 in
      if reached options matchCount then pushed
      else pushed ++ regexLines options rest (S i) matchCount
    else regexLines options rest (S i) matchCount
  end.

Definition linesOf (buffer : Uint8Array) : list jsstring :=
  let content := decode buffer in
  let lines := split content NEWLINE in
  if endsWith content NEWLINE then removelast lines else lines.

Definition grepBufferRegex (buffer : Uint8Array) (options : FastGrepOptions)
  : list GrepLineResult :=
  regexLines options (linesOf buffer) 0 0.

(** ** Stream driver

    The byte source is the list of the chunks it delivers before it
    signals end-of-data.  [calls] is the sequence of arguments [onResult]
    has been invoked with, and [scanned] the regions that have been
    handed to a buffer scanner. *)

Record StreamState := mkStreamState {
  buffer : Uint8Array;
  lineOffset : nat;
  matchCount : nat;
  calls : list GrepLineResult;
  scanned : list Uint8Array
}.

Record StreamResult := mkStreamResult {
  res_matchCount : nat;
  res_lineCount : nat;
  res_calls : list GrepLineResult;
  res_scanned : list Uint8Array
}.

Inductive Step :=
| Next (st : StreamState)
| Return (r : StreamResult).

Definition scan (region : Uint8Array) (options : FastGrepOptions)
  : list GrepLineResult :=
  if isLiteral options
  then grepBufferLiteral region options
  else grepBufferRegex region options.

(** [{ ...result, lineNumber: result.lineNumber + lineOffset }] *)
Definition shifted (lineOffset : nat) (result : GrepLineResult)
  : GrepLineResult :=
  mkResult (lineNumber result + lineOffset) (content result) (matches result).

(** [for (const result of results)] of [grepStream]: the calls made, the
    match count afterwards, and whether [maxCount] stopped the loop. *)
Fixpoint deliver (options : FastGrepOptions) (lineOffset : nat)
    (results : list GrepLineResult) (matchCount : nat)
  : list GrepLineResult * nat * bool :=
  match results with
  | [] => ([], matchCount, false)
  | result :: rest =>
    let call := shifted lineOffset result in
    let matchCount := matchCount + 1 in
    if reached options matchCount then ([call], matchCount, true)
    else
      let '(more, matchCount', stopped) :=
        deliver options lineOffset rest matchCount in
      (call :: more, matchCount', stopped)
  end.

(** One iteration of the read loop on a chunk [value]. *)
Definition onChunk (options : FastGrepOptions) (st : StreamState)
    (value : Uint8Array) : Step :=
  let buffer := buffer st ++ value in
  match lastIndexOf buffer NEWLINE with
  | Some lastNewline =>
    let complete := slice buffer 0 (lastNewline + 1) in
    let buffer := skipn (lastNewline + 1) buffer in
    let results := scan complete options in
    let '(made, matchCount, stopped) :=
      deliver options (lineOffset st) results (matchCount st) in
    if stopped then
      Return (mkStreamResult matchCount
                (lineOffset st + countNewlines complete 0 (length complete))
                (calls st ++ made) (scanned st ++ [complete]))
    else
      Next (mkStreamState buffer
              (lineOffset st + countNewlines complete 0 (length complete))
              matchCount (calls st ++ made) (scanned st ++ [complete]))
  | None => Next (mkStreamState buffer (lineOffset st) (matchCount st) (calls st)
                    (scanned st))
  end.

(** The iteration in which the source signals end-of-data, and the
    return after the loop. *)
Definition onDone (options : FastGrepOptions) (st : StreamState)
  : StreamResult :=
  let lineCount :=
    lineOffset st + (if Nat.ltb 0 (length (buffer st)) then 1 else 0) in
  if Nat.ltb 0 (length (buffer st)) then
    let results := scan (buffer st) options in
    let '(made, matchCount, _) :=
      deliver options (lineOffset st) results (matchCount st) in
    mkStreamResult matchCount lineCount (calls st ++ made)
      (scanned st ++ [buffer st])
  else mkStreamResult (matchCount st) lineCount (calls st) (scanned st).

Fixpoint readLoop (options : FastGrepOptions) (chunks : list Uint8Array)
    (st : StreamState) : StreamResult :=
  match chunks with
  | [] => onDone options st
  | value :: rest =>
    match onChunk options st value with
    | Next st' => readLoop options rest st'
    | Return r => r
    end
  end.

Definition initial : StreamState := mkStreamState [] 0 0 [] [].

Definition grepStream (stream : list Uint8Array) (options : FastGrepOptions)
  : StreamResult :=
  readLoop options stream initial.

(** * Properties *)

(** Split a conjunction into its components, and nothing else. *)
Ltac splits := repeat match goal with |- _ /\ _ => split end.

(** ** Array reads *)

Lemma same_eq (a b : option Z) : same a b = true <-> a = b.
Proof.
  destruct a as [x|], b as [y|]; simpl; split; intro H;
    try discriminate; try reflexivity.
  - apply Z.eqb_eq in H. now subst.
  - injection H as ->. apply Z.eqb_refl.
Qed.

Lemma same_some (a : option Z) (v : Z) : same a (Some v) = true <-> a = Some v.
Proof. apply same_eq. Qed.

Lemma jsstring_eqb_eq (a b : jsstring) : jsstring_eqb a b = true <-> a = b.
Proof.
  revert b. induction a as [|x a IH]; intros [|y b]; simpl;
    try (split; [discriminate | discriminate]); [tauto|].
  rewrite andb_true_iff, Z.eqb_eq, IH. split.
  - intros [-> ->]. reflexivity.
  - intro H. injection H as -> ->. auto.
Qed.

(** The line start found from [pos] is not after [pos], so
    [pos - line.start] is the offset of [pos] in its line. *)
Lemma lineStartAt_le (chunk : list Z) (pos : nat) : lineStartAt chunk pos <= pos.
Proof.
  induction pos as [|pos IH]; simpl; [lia|].
  destruct (negb _); lia.
Qed.

Lemma at_map (f : Z -> Z) (chunk : list Z) (i : nat) :
  at_ (map f chunk) i = option_map f (at_ chunk i).
Proof. apply nth_error_map. Qed.

(** ** Literal scanner *)

(** The pattern occurs in [chunk] as a contiguous run that starts at
    offset [p]. *)
Definition occursAt (chunk pattern : list Z) (p : nat) : Prop :=
  firstn (length pattern) (skipn p chunk) = pattern.

Definition isByte (b : Z) : Prop := (0 <= b < 256)%Z.

Lemma occursAt_reads (chunk pattern : list Z) (p : nat) :
  0 < length pattern ->
  (occursAt chunk pattern p <->
   p + length pattern <= length chunk /\
   forall k, k < length pattern -> at_ chunk (p + k) = at_ pattern k).
Proof.
  intro Hpos. unfold occursAt, at_. split.
  - intro H. split.
    + apply (f_equal (@length Z)) in H.
      rewrite length_firstn, length_skipn in H. lia.
    + intros k Hk. rewrite <- H at 1.
      rewrite nth_error_firstn, nth_error_skipn.
      destruct (Nat.ltb_spec k (length pattern)); [reflexivity | lia].
  - intros [Hlen H]. apply nth_error_ext. intro k.
    rewrite nth_error_firstn, nth_error_skipn.
    destruct (Nat.ltb_spec k (length pattern)) as [Hk|Hk].
    + now apply H.
    + symmetry. now apply nth_error_None.
Qed.

Lemma restMatches_reads (chunk pattern : list Z) (i n j : nat) :
  restMatches chunk pattern i j n = true <->
  forall k, j <= k < j + n -> at_ chunk (i + k) = at_ pattern k.
Proof.
  revert j. induction n as [|n IH]; intro j; simpl.
  - split; [intros _ k Hk; lia | reflexivity].
  - destruct (same (at_ chunk (i + j)) (at_ pattern j)) eqn:E.
    + apply same_eq in E. rewrite IH. split; intros H k Hk.
      * destruct (Nat.eq_dec k j) as [->|]; [exact E | apply H; lia].
      * apply H; lia.
    + split; [discriminate|]. intro H.
      assert (same (at_ chunk (i + j)) (at_ pattern j) = true) as E'
        by (apply same_eq, H; lia).
      congruence.
Qed.

Lemma scanFrom_In (chunk pattern : list Z) (fb : option Z) (n i p : nat) :
  In p (scanFrom chunk pattern fb i n) <->
  i <= p < i + n /\ at_ chunk p = fb /\
  restMatches chunk pattern p 1 (length pattern - 1) = true.
Proof.
  revert i. induction n as [|n IH]; intro i; simpl.
  - split; [contradiction | lia].
  - destruct (same (at_ chunk i) fb) eqn:E1; simpl.
    + apply same_eq in E1.
      destruct (restMatches chunk pattern i 1 (length pattern - 1)) eqn:E2.
      * simpl. rewrite IH. split.
        -- intros [->|H]; [repeat split; auto; lia | intuition lia].
        -- intros (H1 & H2 & H3).
           destruct (Nat.eq_dec i p); [now left | right; intuition lia].
      * rewrite IH. split; [intuition lia|].
        intros (H1 & H2 & H3).
        destruct (Nat.eq_dec i p) as [->|]; [congruence | intuition lia].
    + rewrite IH. split; [intuition lia|].
      intros (H1 & H2 & H3).
      destruct (Nat.eq_dec i p) as [->|]; [| intuition lia].
      apply same_eq in H2. congruence.
Qed.

Lemma scanFrom_lower (chunk pattern : list Z) (fb : option Z) (n i : nat) :
  Forall (fun p => i <= p) (scanFrom chunk pattern fb i n).
Proof.
  apply Forall_forall. intros p H. apply scanFrom_In in H. lia.
Qed.

Lemma scanFrom_sorted (chunk pattern : list Z) (fb : option Z) (n i : nat) :
  StronglySorted lt (scanFrom chunk pattern fb i n).
Proof.
  revert i. induction n as [|n IH]; intro i; simpl; [constructor|].
  destruct (negb _); [apply IH|].
  destruct (restMatches _ _ _ _ _); [|apply IH].
  constructor; [apply IH|].
  eapply Forall_impl; [| apply (scanFrom_lower chunk pattern fb n (S i))].
  simpl. intros. lia.
Qed.

Lemma findPatternPositions_In (chunk pattern : list Z) (p : nat) :
  pattern <> [] ->
  (In p (findPatternPositions chunk pattern) <-> occursAt chunk pattern p).
Proof.
  intro Hne. unfold findPatternPositions.
  assert (0 < length pattern) as Hlen
    by (destruct pattern; [congruence | simpl; lia]).
  rewrite occursAt_reads by assumption.
  destruct (Nat.eqb_spec (length pattern) 0) as [E|_]; [lia|]. simpl.
  destruct (Nat.ltb_spec (length chunk) (length pattern)) as [Hlt|Hge]; simpl.
  - split; [contradiction | lia].
  - rewrite scanFrom_In, restMatches_reads. split.
    + intros (H1 & H2 & H3). split; [lia|]. intros k Hk.
      destruct k as [|k]; [now rewrite Nat.add_0_r | apply H3; lia].
    + intros (H1 & H2). split; [lia|]. split.
      * rewrite <- (Nat.add_0_r p) at 1. apply H2. lia.
      * intros k Hk. apply H2. lia.
Qed.

Lemma findPatternPositions_sorted (chunk pattern : list Z) :
  StronglySorted lt (findPatternPositions chunk pattern).
Proof.
  unfold findPatternPositions. destruct (_ || _); [constructor|].
  apply scanFrom_sorted.
Qed.

Lemma restMatchesIgnoreCase_map (chunk lp : list Z) (i n j : nat) :
  restMatchesIgnoreCase chunk lp i j n
  = restMatches (map toLowerAscii chunk) lp i j n.
Proof.
  revert j. induction n as [|n IH]; intro j; simpl; [reflexivity|].
  now rewrite at_map, IH.
Qed.

Lemma scanFromIgnoreCase_map (chunk lp : list Z) (fb : option Z) (n i : nat) :
  scanFromIgnoreCase chunk lp fb i n
  = scanFrom (map toLowerAscii chunk) lp fb i n.
Proof.
  revert i. induction n as [|n IH]; intro i; simpl; [reflexivity|].
  now rewrite at_map, restMatchesIgnoreCase_map, !IH.
Qed.

(** The case-insensitive scan is the case-sensitive scan of the folded
    buffer for the folded pattern. *)
Lemma findPatternPositionsIgnoreCase_fold (chunk pattern : list Z) :
  findPatternPositionsIgnoreCase chunk pattern
  = findPatternPositions (map toLowerAscii chunk)
      (map (fun b => u8 (toLowerAscii b)) pattern).
Proof.
  unfold findPatternPositionsIgnoreCase, findPatternPositions.
  rewrite !length_map. destruct (_ || _); [reflexivity|].
  apply scanFromIgnoreCase_map.
Qed.

Lemma toLowerAscii_byte (b : Z) : isByte b -> isByte (toLowerAscii b).
Proof.
  unfold isByte, toLowerAscii. intro H.
  destruct (Z.leb_spec 65 b), (Z.leb_spec b 90); simpl; lia.
Qed.

Lemma lowerPattern_bytes (pattern : list Z) :
  Forall isByte pattern ->
  map (fun b => u8 (toLowerAscii b)) pattern = map toLowerAscii pattern.
Proof.
  intro H. apply map_ext_in. intros b Hb.
  rewrite Forall_forall in H. apply H, toLowerAscii_byte in Hb.
  unfold u8. apply Z.mod_small. exact Hb.
Qed.

Lemma findPatternPositionsIgnoreCase_sorted (chunk pattern : list Z) :
  StronglySorted lt (findPatternPositionsIgnoreCase chunk pattern).
Proof.
  rewrite findPatternPositionsIgnoreCase_fold.
  apply findPatternPositions_sorted.
Qed.

(** Every reported position lies inside the buffer. *)
Lemma findPatternPositions_bound (chunk pattern : list Z) :
  Forall (fun p => p < length chunk) (findPatternPositions chunk pattern).
Proof.
  apply Forall_forall. intros p H. unfold findPatternPositions in H.
  destruct (Nat.eqb_spec (length pattern) 0); simpl in H; [contradiction|].
  destruct (Nat.ltb_spec (length chunk) (length pattern)); simpl in H;
    [contradiction|].
  apply scanFrom_In in H. lia.
Qed.

Lemma findPatternPositionsIgnoreCase_bound (chunk pattern : list Z) :
  Forall (fun p => p < length chunk)
    (findPatternPositionsIgnoreCase chunk pattern).
Proof.
  rewrite findPatternPositionsIgnoreCase_fold.
  rewrite <- (length_map toLowerAscii chunk).
  apply findPatternPositions_bound.
Qed.

(** The ASCII letters, in alphabetical order. *)
Definition upperCaseLetters : list Z := lit "ABCDEFGHIJKLMNOPQRSTUVWXYZ".
Definition lowerCaseLetters : list Z := lit "abcdefghijklmnopqrstuvwxyz".

(** The letter of [lower] at the place that [b] has in [upper], and [b]
    itself when it is not in [upper]. *)
Fixpoint foldWith (upper lower : list Z) (b : Z) : Z :=
  match upper, lower with
  | u :: upper', l :: lower' =>
    if Z.eqb b u then l else foldWith upper' lower' b
  | _, _ => b
  end.

(** The case folding of the specification, stated on the letters
    themselves: each of 'A'-'Z' becomes the same letter of 'a'-'z', every
    other byte is unchanged. *)
Definition asciiFold (b : Z) : Z :=
  foldWith upperCaseLetters lowerCaseLetters b.

(** [toLowerAscii] computes this folding, on every integer. *)
Lemma toLowerAscii_asciiFold (b : Z) : toLowerAscii b = asciiFold b.
Proof.
  unfold asciiFold.
  change upperCaseLetters
    with [65; 66; 67; 68; 69; 70; 71; 72; 73; 74; 75; 76; 77; 78; 79; 80;
          81; 82; 83; 84; 85; 86; 87; 88; 89; 90]%Z.
  change lowerCaseLetters
    with [97; 98; 99; 100; 101; 102; 103; 104; 105; 106; 107; 108; 109;
          110; 111; 112; 113; 114; 115; 116; 117; 118; 119; 120; 121;
          122]%Z.
  cbn [foldWith].
  repeat match goal with
         | |- context [Z.eqb b ?c] =>
           destruct (Z.eqb_spec b c); [subst b; reflexivity|]
         end.
  unfold toLowerAscii.
  destruct (Z.leb_spec 65 b), (Z.leb_spec b 90); cbn [andb];
    try reflexivity; lia.
Qed.

Lemma map_toLowerAscii_asciiFold (l : list Z) :
  map toLowerAscii l = map asciiFold l.
Proof. apply map_ext, toLowerAscii_asciiFold. Qed.

(** C7. For a non-empty pattern the case-sensitive scan returns exactly
    the offsets at which the pattern's bytes occur contiguously, in
    ascending order; the case-insensitive scan returns exactly the offsets
    at which they occur once the letters 'A'-'Z' are mapped to 'a'-'z' on
    both sides, every other byte unchanged ([asciiFold], which does not
    mention the code's [toLowerAscii]); both return the empty list when
    the pattern is empty or longer than the buffer. *)
Theorem literal_scan_exact (chunk pattern : Uint8Array) :
  Forall isByte pattern ->
  (pattern <> [] ->
     (forall p, In p (findPatternPositions chunk pattern)
                <-> occursAt chunk pattern p)
     /\ StronglySorted lt (findPatternPositions chunk pattern)
     /\ (forall p, In p (findPatternPositionsIgnoreCase chunk pattern)
                   <-> occursAt (map asciiFold chunk)
                         (map asciiFold pattern) p)
     /\ StronglySorted lt (findPatternPositionsIgnoreCase chunk pattern))
  /\ (pattern = [] \/ length chunk < length pattern ->
        findPatternPositions chunk pattern = []
        /\ findPatternPositionsIgnoreCase chunk pattern = []).
Proof.
  intro Hbytes. split.
  - intro Hne. repeat split.
    + now apply findPatternPositions_In.
    + now apply findPatternPositions_In.
    + apply findPatternPositions_sorted.
    + rewrite findPatternPositionsIgnoreCase_fold, lowerPattern_bytes
        by assumption.
      rewrite !map_toLowerAscii_asciiFold.
      apply findPatternPositions_In. destruct pattern; [congruence|discriminate].
    + rewrite findPatternPositionsIgnoreCase_fold, lowerPattern_bytes
        by assumption.
      rewrite !map_toLowerAscii_asciiFold.
      apply findPatternPositions_In. destruct pattern; [congruence|discriminate].
    + apply findPatternPositionsIgnoreCase_sorted.
  - intros H. unfold findPatternPositions, findPatternPositionsIgnoreCase.
    assert (Nat.eqb (length pattern) 0
            || Nat.ltb (length chunk) (length pattern) = true) as ->.
    { apply orb_true_iff. destruct H as [->|H]; [now left|].
      right. now apply Nat.ltb_lt. }
    split; reflexivity.
Qed.

(** ** Searching an array and counting newlines *)

(** The number of newline bytes of a byte sequence. *)
Definition nlCount (l : list Z) : nat := count_occ Z.eq_dec l NEWLINE.

Lemma nlCount_cons (x : Z) (l : list Z) :
  nlCount (x :: l) = (if Z.eqb x NEWLINE then 1 else 0) + nlCount l.
Proof.
  unfold nlCount. simpl.
  destruct (Z.eq_dec x NEWLINE) as [->|H].
  - reflexivity.
  - apply Z.eqb_neq in H. now rewrite H.
Qed.

Lemma nlCount_app (l1 l2 : list Z) :
  nlCount (l1 ++ l2) = nlCount l1 + nlCount l2.
Proof. apply count_occ_app. Qed.

Lemma nlCount_zero (l : list Z) : nlCount l = 0 <-> ~ In NEWLINE l.
Proof. symmetry. apply count_occ_not_In. Qed.

Lemma skipn_cons_inv (l : list Z) (i : nat) (x : Z) (t : list Z) :
  skipn i l = x :: t -> nth_error l i = Some x /\ skipn (S i) l = t.
Proof.
  revert l. induction i as [|i IH]; intros [|y l] H;
    try discriminate.
  - injection H as -> ->. now split.
  - exact (IH l H).
Qed.

Lemma skipn_nil_inv (l : list Z) (i : nat) :
  skipn i l = [] -> nth_error l i = None.
Proof.
  intro H. apply nth_error_None. apply (f_equal (@length Z)) in H.
  rewrite length_skipn in H. simpl in H. lia.
Qed.

Lemma countFrom_count (chunk : list Z) (n i : nat) :
  countFrom chunk i n = nlCount (firstn n (skipn i chunk)).
Proof.
  revert i. induction n as [|n IH]; intro i; [reflexivity|].
  cbn [countFrom]. rewrite IH. unfold at_.
  destruct (skipn i chunk) as [|x t] eqn:E.
  - rewrite (skipn_nil_inv _ _ E).
    assert (skipn (S i) chunk = []) as ->.
    { apply length_zero_iff_nil. apply (f_equal (@length Z)) in E.
      rewrite length_skipn in *. simpl in E. lia. }
    now rewrite !firstn_nil.
  - destruct (skipn_cons_inv _ _ _ _ E) as [-> ->].
    rewrite firstn_cons, nlCount_cons. reflexivity.
Qed.

(** [countNewlines] over a whole region counts its newline bytes. *)
Lemma countNewlines_all (chunk : list Z) :
  countNewlines chunk 0 (length chunk) = nlCount chunk.
Proof.
  unfold countNewlines. rewrite countFrom_count. simpl.
  now rewrite Nat.sub_0_r, firstn_all.
Qed.

Lemma firstn_add (l : list Z) (p q : nat) :
  firstn (p + q) l = firstn p l ++ firstn q (skipn p l).
Proof.
  revert l. induction p as [|p IH]; intros [|x l]; simpl;
    try reflexivity.
  - now rewrite firstn_nil.
  - now rewrite IH.
Qed.

Lemma nlCount_firstn_le (l : list Z) (p q : nat) :
  p <= q -> nlCount (firstn p l) <= nlCount (firstn q l).
Proof.
  intro H. replace q with (p + (q - p)) by lia.
  rewrite firstn_add, nlCount_app. lia.
Qed.

Lemma nlCount_firstn_S (l : list Z) (j : nat) :
  nth_error l j = Some NEWLINE ->
  nlCount (firstn (S j) l) = S (nlCount (firstn j l)).
Proof.
  intro H. replace (S j) with (j + 1) by lia.
  rewrite firstn_add, nlCount_app.
  destruct (skipn j l) as [|x t] eqn:E.
  - apply skipn_nil_inv in E. congruence.
  - apply skipn_cons_inv in E. destruct E as [E _].
    assert (x = NEWLINE) as -> by congruence.
    simpl firstn. unfold nlCount at 2. simpl. lia.
Qed.

Lemma indexFrom_Some (l : list Z) (v : Z) (i j : nat) :
  indexFrom l v i = Some j ->
  i <= j < i + length l /\ nth_error l (j - i) = Some v.
Proof.
  revert i. induction l as [|x l IH]; intro i; simpl; [discriminate|].
  destruct (Z.eqb_spec x v) as [->|Hne].
  - intro H. injection H as <-. rewrite Nat.sub_diag. simpl. split; [lia|auto].
  - intro H. apply IH in H. destruct H as [H1 H2].
    split; [lia|]. replace (j - i) with (S (j - S i)) by lia. exact H2.
Qed.

Lemma indexOf_Some (a : list Z) (v : Z) (from j : nat) :
  indexOf a v from = Some j ->
  from <= j < length a /\ at_ a j = Some v.
Proof.
  unfold indexOf, at_. intro H. apply indexFrom_Some in H.
  rewrite length_skipn, nth_error_skipn in H.
  destruct H as [H1 H2]. split; [lia|].
  replace (from + (j - from)) with j in H2 by lia. exact H2.
Qed.

Lemma indexFrom_None (l : list Z) (v : Z) (i : nat) :
  indexFrom l v i = None -> ~ In v l.
Proof.
  revert i. induction l as [|x l IH]; intro i; simpl; [auto|].
  destruct (Z.eqb_spec x v) as [->|Hne]; [discriminate|].
  intros H [E|Hin]; [congruence | exact (IH _ H Hin)].
Qed.

Lemma lastIndexFrom_spec (l : list Z) (v : Z) (i : nat) (found : option nat) :
  (~ In v l /\ lastIndexFrom l v i found = found)
  \/ exists k, lastIndexFrom l v i found = Some (i + k)
               /\ nth_error l k = Some v /\ ~ In v (skipn (S k) l).
Proof.
  revert i found. induction l as [|x l IH]; intros i found; simpl.
  - left. auto.
  - destruct (IH (S i) (if Z.eqb x v then Some i else found))
      as [[Hn E]|(k & E & Hk & Hs)].
    + destruct (Z.eqb_spec x v) as [->|Hne].
      * right. exists 0. rewrite Nat.add_0_r. simpl. auto.
      * left. split; [|exact E]. intros [H|H]; [congruence | auto].
    + right. exists (S k). rewrite E. simpl.
      split; [f_equal; lia | auto].
Qed.

(** [lastIndexOf] splits a buffer at its last newline. *)
Lemma lastIndexOf_Some (a : list Z) (v : Z) (k : nat) :
  lastIndexOf a v = Some k ->
  at_ a k = Some v /\ ~ In v (skipn (S k) a).
Proof.
  unfold lastIndexOf, at_. intro H.
  destruct (lastIndexFrom_spec a v 0 None) as [[_ E]|(k' & E & H1 & H2)].
  - congruence.
  - rewrite E in H. injection H as <-. auto.
Qed.

Lemma lastIndexOf_None (a : list Z) (v : Z) :
  lastIndexOf a v = None -> ~ In v a.
Proof.
  unfold lastIndexOf. intro H.
  destruct (lastIndexFrom_spec a v 0 None) as [[Hn _]|(k' & E & _)].
  - exact Hn.
  - congruence.
Qed.

Lemma endsWith_app_one (l : list Z) (c : Z) : endsWith (l ++ [c]) c = true.
Proof. unfold endsWith. rewrite rev_app_distr. simpl. apply Z.eqb_refl. Qed.

Lemma endsWith_inv (l : list Z) (c : Z) :
  endsWith l c = true -> exists l', l = l' ++ [c].
Proof.
  unfold endsWith. intro H. destruct (rev l) as [|x r] eqn:E; [discriminate|].
  apply Z.eqb_eq in H. subst x. exists (rev r).
  rewrite <- (rev_involutive l), E. reflexivity.
Qed.

(** The region up to and including the newline at index [k]. *)
Lemma slice_complete (a : list Z) (k : nat) :
  at_ a k = Some NEWLINE ->
  slice a 0 (k + 1) = firstn k a ++ [NEWLINE]
  /\ a = slice a 0 (k + 1) ++ skipn (k + 1) a.
Proof.
  unfold at_, slice. intro H. simpl. rewrite Nat.sub_0_r. split.
  - rewrite firstn_add. f_equal.
    destruct (skipn k a) as [|x t] eqn:E.
    + apply skipn_nil_inv in E. congruence.
    + apply skipn_cons_inv in E. destruct E as [E _].
      assert (x = NEWLINE) as -> by congruence. reflexivity.
  - symmetry. apply firstn_skipn.
Qed.

(** ** Stream driver *)

(** The state between two reads, after the chunks [chunks] have been
    read from state [st]; [Return] when [maxCount] ended the call. *)
Fixpoint feed (options : FastGrepOptions) (chunks : list Uint8Array)
    (st : StreamState) : Step :=
  match chunks with
  | [] => Next st
  | value :: rest =>
    match onChunk options st value with
    | Next st' => feed options rest st'
    | Return r => Return r
    end
  end.


(** A Hoare-style rule for the read loop: [I] holds between reads, [Q] of
    what the call returns. *)
Lemma readLoop_rule (options : FastGrepOptions)
    (I : StreamState -> Prop) (Q : StreamResult -> Prop) :
  (forall st value, I st ->
     match onChunk options st value with
     | Next st' => I st'
     | Return r => Q r
     end) ->
  (forall st, I st -> Q (onDone options st)) ->
  forall chunks st, I st -> Q (readLoop options chunks st).
Proof.
  intros Hchunk Hdone chunks.
  induction chunks as [|v chunks IH]; intros st Hst; simpl.
  - now apply Hdone.
  - specialize (Hchunk st v Hst).
    destruct (onChunk options st v); [now apply IH | exact Hchunk].
Qed.


Lemma reached_unbounded (options : FastGrepOptions) (n : nat) :
  maxCount options = 0 -> reached options n = false.
Proof. unfold reached. now intros ->. Qed.

Lemma reached_iff (options : FastGrepOptions) (n : nat) :
  reached options n = true <-> 0 < maxCount options <= n.
Proof.
  unfold reached. rewrite andb_true_iff, Nat.ltb_lt, Nat.leb_le. tauto.
Qed.

(** What the delivery loop does, in all cases: it calls [onResult] on a
    prefix of the results, counts each call, and stops exactly when the
    count reaches [maxCount]. *)
Lemma deliver_prefix (options : FastGrepOptions) (off : nat)
    (results : list GrepLineResult) (mc : nat) :
  exists n,
    n <= length results
    /\ fst (fst (deliver options off results mc))
       = map (shifted off) (firstn n results)
    /\ snd (fst (deliver options off results mc)) = mc + n
    /\ (snd (deliver options off results mc) = true ->
        0 < n /\ reached options (mc + n) = true)
    /\ (snd (deliver options off results mc) = false -> n = length results)
    /\ (forall m, 0 < m < n -> reached options (mc + m) = false).
Proof.
  revert mc. induction results as [|r results IH]; intro mc; simpl.
  - exists 0. splits; simpl; try lia; try discriminate; auto.
  - destruct (reached options (mc + 1)) eqn:E.
    + exists 1. simpl. splits; try lia; try discriminate; auto.
    + destruct (IH (mc + 1)) as (n & Hn & Hcalls & Hmc & Hstop & Hall & Hbelow).
      destruct (deliver options off results (mc + 1)) as [[more mc'] stopped].
      simpl in *. exists (S n). simpl. splits; try lia.
      * now rewrite Hcalls.
      * intro H. apply Hstop in H.
        replace (mc + S n) with (mc + 1 + n) by lia. split; [lia | tauto].
      * intro H. apply Hall in H. lia.
      * intros m Hm. destruct (Nat.eq_dec m 1) as [->|]; [exact E|].
        replace (mc + m) with (mc + 1 + (m - 1)) by lia. apply Hbelow. lia.
Qed.

(** Without a cap every result is delivered. *)
Lemma deliver_unbounded (options : FastGrepOptions) (off : nat)
    (results : list GrepLineResult) (mc : nat) :
  maxCount options = 0 ->
  deliver options off results mc
  = (map (shifted off) results, mc + length results, false).
Proof.
  intro H0. revert mc. induction results as [|r results IH]; intro mc; simpl.
  - now rewrite Nat.add_0_r.
  - rewrite reached_unbounded by assumption. rewrite IH.
    do 2 f_equal. lia.
Qed.

(** With a cap that the region's results reach, delivery stops at it. *)
Lemma deliver_capped (options : FastGrepOptions) (off : nat)
    (results : list GrepLineResult) (mc : nat) :
  mc < maxCount options <= mc + length results ->
  deliver options off results mc
  = (map (shifted off) (firstn (maxCount options - mc) results),
     maxCount options, true).
Proof.
  revert mc. induction results as [|r results IH]; intros mc H; simpl in *.
  - lia.
  - destruct (reached options (mc + 1)) eqn:E.
    + apply reached_iff in E.
      replace (maxCount options - mc) with 1 by lia.
      replace (mc + 1) with (maxCount options) by lia. reflexivity.
    + assert (mc + 1 < maxCount options).
      { destruct (Nat.lt_ge_cases (mc + 1) (maxCount options)); [assumption|].
        assert (reached options (mc + 1) = true)
          by (apply reached_iff; lia). congruence. }
      rewrite IH by lia.
      replace (maxCount options - mc) with (S (maxCount options - (mc + 1)))
        by lia.
      reflexivity.
Qed.

(** With a cap that the region's results do not reach, every result is
    delivered. *)
Lemma deliver_below (options : FastGrepOptions) (off : nat)
    (results : list GrepLineResult) (mc : nat) :
  mc + length results < maxCount options ->
  deliver options off results mc
  = (map (shifted off) results, mc + length results, false).
Proof.
  revert mc. induction results as [|r results IH]; intros mc H; simpl in *.
  - now rewrite Nat.add_0_r.
  - destruct (reached options (mc + 1)) eqn:E.
    + apply reached_iff in E. lia.
    + rewrite IH by lia. do 2 f_equal. lia.
Qed.

(** The line count of a whole buffer: its newline bytes, plus one when it
    ends with a non-empty line that has no trailing newline. *)
Definition lineCountOf (b : Uint8Array) : nat :=
  nlCount b
  + (if Nat.ltb 0 (length b) && negb (endsWith b NEWLINE) then 1 else 0).

Lemma endsWith_app (a b : list Z) (c : Z) :
  b <> [] -> endsWith (a ++ b) c = endsWith b c.
Proof.
  intro H. unfold endsWith. rewrite rev_app_distr.
  destruct (rev b) as [|x r] eqn:E; [|reflexivity].
  apply (f_equal (@rev Z)) in E. rewrite rev_involutive in E. now subst.
Qed.

Lemma endsWith_In (l : list Z) (c : Z) : endsWith l c = true -> In c l.
Proof.
  intro H. apply endsWith_inv in H. destruct H as [l' ->].
  apply in_or_app. right. now left.
Qed.

Lemma lineCountOf_no_newline (b : list Z) :
  ~ In NEWLINE b -> lineCountOf b = if Nat.ltb 0 (length b) then 1 else 0.
Proof.
  intro H. unfold lineCountOf. rewrite (proj2 (nlCount_zero b) H).
  destruct (endsWith b NEWLINE) eqn:E.
  - apply endsWith_In in E. contradiction.
  - now rewrite andb_true_r.
Qed.

Lemma lineCountOf_complete (complete rest : list Z) :
  endsWith complete NEWLINE = true ->
  lineCountOf (complete ++ rest) = nlCount complete + lineCountOf rest.
Proof.
  intro H. unfold lineCountOf. rewrite nlCount_app, length_app.
  destruct rest as [|x rest].
  - rewrite app_nil_r, H. simpl. rewrite andb_false_r.
    unfold nlCount at 2. simpl. lia.
  - rewrite endsWith_app by discriminate.
    replace (Nat.ltb 0 (length complete + length (x :: rest))) with true
      by (symmetry; apply Nat.ltb_lt; simpl; lia).
    simpl. lia.
Qed.

Lemma slice_endsWith (a : list Z) (k : nat) :
  at_ a k = Some NEWLINE -> endsWith (slice a 0 (k + 1)) NEWLINE = true.
Proof.
  intro H. rewrite (proj1 (slice_complete a k H)). apply endsWith_app_one.
Qed.

Lemma skipn_S_add (a : list Z) (k : nat) : skipn (k + 1) a = skipn (S k) a.
Proof. now rewrite Nat.add_1_r. Qed.

Lemma readLoop_lineCount (options : FastGrepOptions)
    (chunks : list Uint8Array) (st : StreamState) :
  maxCount options = 0 ->
  ~ In NEWLINE (buffer st) ->
  res_lineCount (readLoop options chunks st)
  = lineOffset st + lineCountOf (buffer st ++ concat chunks).
Proof.
  intro H0. revert st.
  induction chunks as [|v chunks IH]; intros st Hbuf; simpl.
  - rewrite app_nil_r, lineCountOf_no_newline by assumption.
    unfold onDone. destruct (Nat.ltb 0 (length (buffer st))).
    + now destruct (deliver _ _ _ _) as [[? ?] ?].
    + reflexivity.
  - unfold onChunk. destruct (lastIndexOf (buffer st ++ v) NEWLINE) as [k|] eqn:E.
    + apply lastIndexOf_Some in E. destruct E as [Hk Hrest].
      rewrite deliver_unbounded by assumption.
      rewrite IH; simpl; [|now rewrite skipn_S_add].
      rewrite countNewlines_all, app_assoc.
      pose proof (slice_endsWith _ _ Hk) as Hends.
      destruct (slice_complete _ _ Hk) as [_ Hsplit].
      set (B := buffer st ++ v) in *.
      set (complete := slice B 0 (k + 1)) in *.
      set (carry := skipn (k + 1) B) in *.
      clearbody complete carry. rewrite Hsplit.
      rewrite <- app_assoc, (lineCountOf_complete complete _ Hends).
      lia.
    + apply lastIndexOf_None in E. rewrite IH; simpl; [|assumption].
      now rewrite app_assoc.
Qed.

(** C2. With [maxCount = 0] the line count reported for a stream is the
    line count of the concatenation of its chunks (its newline bytes, plus
    one for a final non-empty unterminated line), hence the same for
    every partition of a buffer into chunks. *)
Theorem stream_lineCount_partition (options : FastGrepOptions)
    (whole : Uint8Array) (chunks : list Uint8Array) :
  maxCount options = 0 ->
  concat chunks = whole ->
  res_lineCount (grepStream chunks options) = lineCountOf whole.
Proof.
  intros H0 <-. unfold grepStream.
  rewrite readLoop_lineCount by (auto; simpl; tauto). reflexivity.
Qed.

(** C10. A source that ends having delivered no bytes (no chunk, or empty
    chunks only) gives match count 0 and line count 0 without any call of
    [onResult], and on any source no empty region is handed to a buffer
    scanner. *)
Theorem stream_empty_source (options : FastGrepOptions)
    (chunks : list Uint8Array) :
  (Forall (fun value => value = []) chunks ->
   grepStream chunks options = mkStreamResult 0 0 [] [])
  /\ Forall (fun region => region <> [])
       (res_scanned (grepStream chunks options)).
Proof.
  split.
  - unfold grepStream, initial. induction 1 as [|v chunks -> _ IH]; simpl.
    + reflexivity.
    + exact IH.
  - unfold grepStream.
    apply (readLoop_rule options
             (fun st => Forall (fun region => region <> []) (scanned st))
             (fun r => Forall (fun region => region <> []) (res_scanned r))).
    + intros st v Hst. unfold onChunk.
      destruct (lastIndexOf (buffer st ++ v) NEWLINE) as [k|] eqn:E;
        [|exact Hst].
      apply lastIndexOf_Some in E. destruct E as [Hk _].
      assert (slice (buffer st ++ v) 0 (k + 1) <> []) as Hne.
      { rewrite (proj1 (slice_complete _ _ Hk)).
        intro H. now apply app_eq_nil in H. }
      destruct (deliver _ _ _ _) as [[made mc] [|]]; simpl;
        apply Forall_app; split; auto.
    + intros st Hst. unfold onDone.
      destruct (Nat.ltb_spec 0 (length (buffer st))) as [Hlen|Hlen];
        [|exact Hst].
      destruct (deliver _ _ _ _) as [[made mc] ?]; simpl.
      apply Forall_app; split; auto. repeat constructor.
      intro H. rewrite H in Hlen. simpl in Hlen. lia.
    + simpl. constructor.
Qed.

(** Between two reads the match count is below a positive [maxCount],
    and [onResult] has been called once per counted match. *)
Definition belowCap (options : FastGrepOptions) (st : StreamState) : Prop :=
  length (calls st) = matchCount st
  /\ (0 < maxCount options -> matchCount st < maxCount options).

Lemma initial_belowCap (options : FastGrepOptions) : belowCap options initial.
Proof. split; simpl; auto. Qed.

(** The three ways the delivery loop can go from a state between reads. *)
Lemma deliver_cases (options : FastGrepOptions) (off : nat)
    (results : list GrepLineResult) (mc : nat) :
  (0 < maxCount options -> mc < maxCount options) ->
  (deliver options off results mc
   = (map (shifted off) results, mc + length results, false)
   /\ (0 < maxCount options -> mc + length results < maxCount options))
  \/ (deliver options off results mc
      = (map (shifted off) (firstn (maxCount options - mc) results),
         maxCount options, true)
      /\ mc < maxCount options <= mc + length results).
Proof.
  intro H. destruct (Nat.eq_dec (maxCount options) 0) as [E0|Hpos].
  - left. split; [now apply deliver_unbounded | lia].
  - destruct (Nat.lt_ge_cases (mc + length results) (maxCount options)).
    + left. split; [now apply deliver_below | auto].
    + right. split; [apply deliver_capped|]; lia.
Qed.

Lemma onChunk_belowCap (options : FastGrepOptions) (st : StreamState)
    (value : Uint8Array) :
  belowCap options st ->
  match onChunk options st value with
  | Next st' => belowCap options st'
  | Return r =>
    length (res_calls r) = res_matchCount r
    /\ res_matchCount r = maxCount options
  end.
Proof.
  intros [Hcalls Hcap]. unfold onChunk.
  destruct (lastIndexOf (buffer st ++ value) NEWLINE) as [k|];
    [|split; assumption].
  set (complete := slice (buffer st ++ value) 0 (k + 1)).
  destruct (deliver_cases options (lineOffset st) (scan complete options)
              (matchCount st) Hcap) as [[-> Hlt]|[-> Hge]]; simpl.
  - split; simpl; [|exact Hlt]. rewrite length_app, length_map. lia.
  - split; [|reflexivity].
    rewrite length_app, length_map, length_firstn. lia.
Qed.

Lemma onDone_belowCap (options : FastGrepOptions) (st : StreamState) :
  belowCap options st ->
  length (res_calls (onDone options st)) = res_matchCount (onDone options st)
  /\ (0 < maxCount options ->
      res_matchCount (onDone options st) <= maxCount options).
Proof.
  intros [Hcalls Hcap]. unfold onDone.
  destruct (Nat.ltb 0 (length (buffer st))); simpl.
  - destruct (deliver_cases options (lineOffset st)
                (scan (buffer st) options) (matchCount st) Hcap)
      as [[-> Hlt]|[-> Hge]]; simpl.
    + rewrite length_app, length_map. split; [lia|].
      intro H. apply Hlt in H. lia.
    + rewrite length_app, length_map, length_firstn. split; lia.
  - split; [assumption|]. intro H. apply Hcap in H. lia.
Qed.

(** The calls of a whole run are counted one by one and never exceed a
    positive [maxCount]. *)
Lemma grepStream_calls_capped (options : FastGrepOptions)
    (chunks : list Uint8Array) :
  length (res_calls (grepStream chunks options))
  = res_matchCount (grepStream chunks options)
  /\ (0 < maxCount options ->
      length (res_calls (grepStream chunks options)) <= maxCount options).
Proof.
  unfold grepStream.
  apply (readLoop_rule options (belowCap options)
           (fun r => length (res_calls r) = res_matchCount r
                     /\ (0 < maxCount options ->
                         length (res_calls r) <= maxCount options))).
  - intros st v Hst. pose proof (onChunk_belowCap options st v Hst) as H.
    destruct (onChunk options st v); [exact H|].
    destruct H as [H1 H2]. split; [exact H1 | lia].
  - intros st Hst. destruct (onDone_belowCap options st Hst) as [H1 H2].
    split; [exact H1|]. intro H. rewrite H1. auto.
  - apply initial_belowCap.
Qed.



(** ** Line numbers of the literal path *)

(** The number of the line that holds the last byte of a buffer. *)
Definition maxLine (buffer : Uint8Array) : nat :=
  S (nlCount (firstn (pred (length buffer)) buffer)).

Lemma maxLine_complete (region : list Z) :
  endsWith region NEWLINE = true -> maxLine region = nlCount region.
Proof.
  intro H. apply endsWith_inv in H. destruct H as [l ->].
  unfold maxLine. rewrite length_app, Nat.add_1_r. simpl pred.
  rewrite firstn_app, firstn_all, Nat.sub_diag. simpl.
  rewrite app_nil_r, nlCount_app. unfold nlCount at 3. simpl. lia.
Qed.

Lemma line_le_maxLine (buffer : list Z) (p n : nat) :
  p <= pred (length buffer) ->
  n <= S (nlCount (firstn p buffer)) ->
  n <= maxLine buffer.
Proof.
  intros Hp Hn. unfold maxLine.
  pose proof (nlCount_firstn_le buffer p (pred (length buffer)) Hp). lia.
Qed.

Definition keys (m : LineMap) : list nat := map fst m.

(** Every entry is stored under its own line number. *)
Definition keyed (m : LineMap) : Prop :=
  Forall (fun e => lm_lineNumber (snd e) = fst e) m.

Lemma pushPosition_keys (m : LineMap) (k p : nat) :
  keys (pushPosition m k p) = keys m.
Proof.
  induction m as [|[k' v] m IH]; simpl; [reflexivity|].
  destruct (Nat.eqb k' k); simpl; [reflexivity | now rewrite IH].
Qed.

Lemma pushPosition_keyed (m : LineMap) (k p : nat) :
  keyed m -> keyed (pushPosition m k p).
Proof.
  induction 1 as [|[k' v] m Hv Hm IH]; simpl; [constructor|].
  destruct (Nat.eqb k' k); constructor; auto.
Qed.

Lemma pushPosition_length (m : LineMap) (k p : nat) :
  length (pushPosition m k p) = length m.
Proof.
  rewrite <- (length_map fst (pushPosition m k p)).
  fold (keys (pushPosition m k p)). rewrite pushPosition_keys.
  apply length_map.
Qed.

Lemma mapHas_keys (m : LineMap) (k : nat) :
  mapHas m k = true <-> In k (keys m).
Proof.
  unfold mapHas, keys. rewrite existsb_exists, in_map_iff. split.
  - intros (e & He & E). apply Nat.eqb_eq in E. eauto.
  - intros (e & E & He). exists e. split; [exact He | now apply Nat.eqb_eq].
Qed.

Lemma sorted_snoc (l : list nat) (k : nat) :
  StronglySorted lt l -> Forall (fun x => x < k) l ->
  StronglySorted lt (l ++ [k]).
Proof.
  induction 1 as [|a l Hs IH Ha]; intro Hk; simpl.
  - repeat constructor.
  - inversion Hk as [|? ? Hak Hlk]; subst. constructor; [now apply IH|].
    apply Forall_app. split; [exact Ha | repeat constructor; exact Hak].
Qed.

(** The fast-forward loop moves forward only, never beyond the position
    it is looking for, and counts one line for each newline it passes. *)
Lemma fastForward_spec (buffer : list Z) (pos n cls cln : nat) :
  let r := fastForward buffer pos cls cln n in
  cln <= snd r
  /\ (fst r = cls \/ fst r <= pos)
  /\ (cln <= S (nlCount (firstn cls buffer)) ->
      snd r <= S (nlCount (firstn (fst r) buffer))).
Proof.
  revert cls cln. induction n as [|n IH]; intros cls cln; simpl.
  - auto.
  - destruct (Nat.ltb_spec cls pos) as [Hlt|Hge]; simpl; [|auto].
    destruct (indexOf buffer NEWLINE cls) as [nlPos|] eqn:E; simpl; [|auto].
    destruct (Nat.leb_spec pos nlPos) as [Hle|Hgt]; simpl; [auto|].
    apply indexOf_Some in E. destruct E as [Hrange Hnl].
    destruct (IH (S nlPos) (S cln)) as (H1 & H2 & H3).
    splits.
    + lia.
    + right. destruct H2 as [->|H2]; lia.
    + intro Hcln. apply H3.
      rewrite (nlCount_firstn_S buffer nlPos Hnl).
      pose proof (nlCount_firstn_le buffer cls nlPos). lia.
Qed.

Lemma groupByLine_spec (buffer : list Z) (options : FastGrepOptions)
    (patternLen : nat) (positions : list nat) :
  Forall (fun p => p < length buffer) positions ->
  forall cls cln lm,
    cls <= pred (length buffer) ->
    cln <= S (nlCount (firstn cls buffer)) ->
    StronglySorted lt (keys lm) ->
    Forall (fun k => k <= cln) (keys lm) ->
    keyed lm ->
    (0 < maxCount options -> length lm < maxCount options) ->
    let lm' := groupByLine buffer options patternLen positions cls cln lm in
    StronglySorted lt (keys lm')
    /\ Forall (fun k => k <= maxLine buffer) (keys lm')
    /\ keyed lm'
    /\ (0 < maxCount options -> length lm' <= maxCount options).
Proof.
  induction 1 as [|pos positions Hpos _ IH];
    intros cls cln lm Hcls Hcln Hsorted Hkeys Hkeyed Hsize;
    cbv zeta; cbn [groupByLine].
  - splits; auto.
    + eapply Forall_impl; [|exact Hkeys]. simpl. intros k Hk.
      apply (line_le_maxLine buffer cls); [assumption | lia].
    + intro H. apply Hsize in H. lia.
  - pose proof (fastForward_spec buffer pos (pos - cls) cls cln) as Hff.
    destruct (fastForward buffer pos cls cln (pos - cls)) as [cls' cln'].
    simpl in Hff. destruct Hff as (Hmono & Hstart & Hline).
    specialize (Hline Hcln).
    assert (cls' <= pred (length buffer)) as Hcls'
      by (destruct Hstart as [->|]; lia).
    assert (Forall (fun k => k <= cln') (keys lm)) as Hkeys'.
    { eapply Forall_impl; [|exact Hkeys]. simpl. intros; lia. }
    destruct (wholeWord options && negb (isWordBoundary buffer pos patternLen));
      [now apply IH|].
    destruct (lineRegexp options && negb _); [now apply IH|].
    set (line := extractLineAt buffer pos).
    set (lm1 := if negb (mapHas lm cln')
                then mapSet lm cln'
                       (mkLineMatch cln' (line_content line) [])
                else lm).
    assert (StronglySorted lt (keys lm1)
            /\ Forall (fun k => k <= cln') (keys lm1)
            /\ keyed lm1
            /\ length lm1 <= S (length lm)) as (Hs1 & Hk1 & Hw1 & Hl1).
    { subst lm1. destruct (mapHas lm cln') eqn:Ehas; simpl.
      - splits; auto.
      - unfold mapSet. rewrite Ehas. unfold keys, keyed.
        rewrite map_app, length_app. simpl. splits.
        + apply sorted_snoc; [exact Hsorted|].
          apply Forall_forall. intros k Hk.
          assert (k <> cln').
          { intros ->. apply mapHas_keys in Hk. congruence. }
          rewrite Forall_forall in Hkeys'. specialize (Hkeys' k Hk). lia.
        + apply Forall_app. split; [exact Hkeys' | repeat constructor].
        + apply Forall_app. split; [exact Hkeyed | repeat constructor].
        + lia. }
    set (lm2 := pushPosition lm1 cln' (pos - line_start line)).
    assert (keys lm2 = keys lm1) as Ekeys by apply pushPosition_keys.
    assert (length lm2 = length lm1) as Elen by apply pushPosition_length.
    destruct (reached options (length lm2)) eqn:Ereached.
    + rewrite Ekeys. splits; auto.
      * eapply Forall_impl; [|exact Hk1]. simpl. intros k Hk.
        apply (line_le_maxLine buffer cls'); [assumption | lia].
      * now apply pushPosition_keyed.
      * intro H. specialize (Hsize H). lia.
    + apply IH; try assumption.
      * now rewrite Ekeys.
      * now rewrite Ekeys.
      * now apply pushPosition_keyed.
      * intro H.
        destruct (Nat.lt_ge_cases (length lm2) (maxCount options));
          [assumption|].
        assert (reached options (length lm2) = true)
          by (apply reached_iff; lia).
        congruence.
Qed.

Lemma materialize_lineNumber (options : FastGrepOptions) (m : LineMap) :
  keyed m -> map lineNumber (map (materialize options) m) = keys m.
Proof.
  induction 1 as [|e m He _ IH]; simpl; [reflexivity|].
  rewrite IH. f_equal. unfold materialize.
  destruct (onlyMatching options); exact He.
Qed.

Lemma positions_bound (buffer : list Z) (options : FastGrepOptions) :
  Forall (fun p => p < length buffer)
    ((if ignoreCase options
      then findPatternPositionsIgnoreCase
      else findPatternPositions) buffer (encode (pattern options))).
Proof.
  destruct (ignoreCase options);
    [apply findPatternPositionsIgnoreCase_bound
    | apply findPatternPositions_bound].
Qed.

Lemma actualEndOf_next (buffer : list Z) (lineStart lineNum : nat) :
  (lineStart < length buffer ->
   lineNum <= S (nlCount (firstn lineStart buffer))) ->
  lineStart < length buffer ->
  actualEndOf buffer lineStart + 1 < length buffer ->
  lineNum + 1
  <= S (nlCount (firstn (actualEndOf buffer lineStart + 1) buffer)).
Proof.
  intros Hline Hlt. specialize (Hline Hlt). unfold actualEndOf.
  destruct (indexOf buffer NEWLINE lineStart) as [e|] eqn:E; [|lia].
  intros _. apply indexOf_Some in E. destruct E as [Hrange Hnl].
  rewrite !Nat.add_1_r, (nlCount_firstn_S buffer e Hnl).
  pose proof (nlCount_firstn_le buffer lineStart e). lia.
Qed.

(** The second pass of invert mode emits strictly ascending line
    numbers that exist in the buffer, and no more than a positive
    [maxCount] allows. *)
Lemma collectLines_spec (buffer : list Z) (options : FastGrepOptions)
    (matchSet : list nat) (n : nat) :
  forall lineStart lineNum mc,
    (lineStart < length buffer ->
     lineNum <= S (nlCount (firstn lineStart buffer))) ->
    (0 < maxCount options -> mc < maxCount options) ->
    let ls := map lineNumber
                (collectLines buffer options matchSet lineStart lineNum mc n)
    in
    StronglySorted lt ls
    /\ Forall (fun k => lineNum <= k <= maxLine buffer) ls
    /\ (0 < maxCount options -> mc + length ls <= maxCount options).
Proof.
  induction n as [|n IH]; intros lineStart lineNum mc Hline Hcap;
    cbv zeta; cbn [collectLines].
  - splits; simpl; [constructor | constructor | intro H; apply Hcap in H; lia].
  - destruct (Nat.ltb_spec lineStart (length buffer)) as [Hlt|Hge].
    2:{ splits; simpl;
          [constructor | constructor | intro H; apply Hcap in H; lia]. }
    pose proof (actualEndOf_next buffer lineStart lineNum Hline Hlt) as Hnext.
    assert (lineNum <= maxLine buffer) as Hmax.
    { apply (line_le_maxLine buffer lineStart); [lia | auto]. }
    destruct (setHas matchSet lineNum); simpl negb; cbv iota.
    + destruct (IH (actualEndOf buffer lineStart + 1) (lineNum + 1) mc
                  Hnext Hcap) as (H1 & H2 & H3).
      splits; auto.
      eapply Forall_impl; [|exact H2]. simpl. intros; lia.
    + destruct (reached options (mc + 1)) eqn:Ereached.
      * simpl. splits.
        -- repeat constructor.
        -- constructor; [lia | constructor].
        -- intro H. apply Hcap in H. lia.
      * assert (0 < maxCount options -> mc + 1 < maxCount options) as Hcap'.
        { intro H.
          destruct (Nat.lt_ge_cases (mc + 1) (maxCount options));
            [assumption|].
          assert (reached options (mc + 1) = true)
            by (apply reached_iff; lia).
          congruence. }
        destruct (IH (actualEndOf buffer lineStart + 1) (lineNum + 1)
                    (mc + 1) Hnext Hcap') as (H1 & H2 & H3).
        simpl. splits.
        -- constructor; [exact H1|].
           eapply Forall_impl; [|exact H2]. simpl. intros; lia.
        -- constructor; [lia|].
           eapply Forall_impl; [|exact H2]. simpl. intros; lia.
        -- intro H. apply H3 in H. lia.
Qed.

(** The results of the literal path: strictly ascending line numbers,
    none beyond the buffer's last line, at most [maxCount] of them. *)
Lemma grepBufferLiteral_lines (buffer : list Z) (options : FastGrepOptions) :
  let ls := map lineNumber (grepBufferLiteral buffer options) in
  StronglySorted lt ls
  /\ Forall (fun k => k <= maxLine buffer) ls
  /\ (0 < maxCount options -> length ls <= maxCount options).
Proof.
  cbv zeta. unfold grepBufferLiteral.
  destruct (invertMatch options).
  - unfold grepBufferInvert.
    destruct (collectLines_spec buffer options
                (markLines buffer
                   ((if ignoreCase options
                     then findPatternPositionsIgnoreCase
                     else findPatternPositions) buffer
                      (encode (pattern options)))
                   0 1 [] (length buffer))
                (length buffer) 0 1 0) as (H1 & H2 & H3).
    + intros _. simpl. lia.
    + auto.
    + splits; auto.
      eapply Forall_impl; [|exact H2]. simpl. intros; lia.
  - destruct (groupByLine_spec buffer options
                (length (encode (pattern options)))
                _ (positions_bound buffer options) 0 1 []
                ltac:(lia) ltac:(simpl; lia) ltac:(constructor)
                ltac:(constructor) ltac:(constructor) ltac:(simpl; auto))
      as (H1 & H2 & H3 & H4).
    rewrite materialize_lineNumber by assumption.
    splits; auto. unfold keys. now rewrite length_map.
Qed.

(** ** Newlines through the decoder

    Decoding maps every newline byte to a newline character and yields
    no other: the decoded text of a region has as many lines as the
    region. *)

Section DecoderNewlines.

Local Open Scope Z_scope.

Lemma lor_shiftl6 (a x : Z) :
  0 <= a -> 0 <= x < 64 -> Z.lor (Z.shiftl a 6) x = a * 64 + x.
Proof.
  intros Ha Hx. rewrite Z.shiftl_mul_pow2 by lia.
  pose proof (Z.add_lor_land (a * 2 ^ 6) x) as Hsum.
  assert (Z.land (a * 2 ^ 6) x = 0) as Hland.
  { apply Z.bits_inj'. intros n Hn. rewrite Z.land_spec, Z.bits_0.
    destruct (Z.lt_ge_cases n 6).
    - now rewrite Z.mul_pow2_bits_low.
    - rewrite <- (Z.mod_small x (2 ^ 6)) by (simpl; lia).
      rewrite Z.mod_pow2_bits_high by lia. apply andb_false_r. }
  rewrite Hland in Hsum. change (2 ^ 6) with 64 in *. lia.
Qed.

Lemma land_low (b n : Z) (m : Z) :
  0 <= n -> m = Z.ones n -> Z.land b m = b mod 2 ^ n.
Proof. intros Hn ->. now apply Z.land_ones. Qed.

(** A pending sequence can only complete to a code point above the
    ASCII range, and no ASCII byte continues it. *)
Definition pending_ok (st : Utf8.state) : Prop :=
  Utf8.bytes_needed st = 0%nat
  \/ (0x80 <= Utf8.lower st /\ Utf8.upper st <= 0xBF
      /\ 0 <= Utf8.code_point st
      /\ (1 <= Utf8.code_point st \/ 0x90 <= Utf8.lower st)).

Definition isNewline (b : Z) : nat := if Z.eqb b NEWLINE then 1%nat else 0%nat.

Lemma nlCount_one (b : Z) : nlCount [b] = isNewline b.
Proof. rewrite nlCount_cons. unfold isNewline, nlCount. simpl. lia. Qed.

Ltac range_cases :=
  unfold Utf8.in_range;
  repeat match goal with
         | |- context [Z.leb ?a ?b] => destruct (Z.leb_spec a b); simpl
         | |- context [Z.eqb ?a ?b] => destruct (Z.eqb_spec a b); simpl
         end.

Lemma lead_spec (b : Z) :
  nlCount (fst (Utf8.lead b)) = isNewline b /\ pending_ok (snd (Utf8.lead b)).
Proof.
  unfold Utf8.lead.
  destruct (Utf8.in_range 0 127 b) eqn:E0; simpl.
  { split; [apply nlCount_one | now left]. }
  assert (isNewline b = 0%nat) as ->.
  { unfold isNewline, NEWLINE. destruct (Z.eqb_spec b 10) as [->|]; auto.
    discriminate. }
  unfold Utf8.in_range in *.
  destruct (Z.leb_spec 194 b), (Z.leb_spec b 223); simpl.
  { split; [reflexivity|]. right. simpl.
    rewrite (land_low b 5 31) by (auto; lia).
    change (2 ^ 5) with 32. pose proof (Z.mod_pos_bound b 32).
    assert (b mod 32 = b - 192)
      by (symmetry; apply (Z.mod_unique b 32 6); lia).
    lia. }
  all: destruct (Z.leb_spec 224 b), (Z.leb_spec b 239); simpl;
    try (split; [reflexivity|]; right; simpl;
         rewrite (land_low b 4 15) by (auto; lia);
         change (2 ^ 4) with 16;
         assert (b mod 16 = b - 224)
           by (symmetry; apply (Z.mod_unique b 16 14); lia);
         range_cases; lia).
  all: destruct (Z.leb_spec 240 b), (Z.leb_spec b 244); simpl;
    try (split; [reflexivity|]; right; simpl;
         rewrite (land_low b 3 7) by (auto; lia);
         change (2 ^ 3) with 8;
         assert (b mod 8 = b - 240)
           by (symmetry; apply (Z.mod_unique b 8 30); lia);
         range_cases; lia).
  all: split; [reflexivity | now left].
Qed.

Lemma handler_spec (st : Utf8.state) (b : Z) :
  pending_ok st ->
  nlCount (fst (Utf8.handler st b)) = isNewline b
  /\ pending_ok (snd (Utf8.handler st b)).
Proof.
  intro Hst. unfold Utf8.handler.
  destruct (Nat.eqb_spec (Utf8.bytes_needed st) 0) as [E|Hne];
    [apply lead_spec|].
  destruct Hst as [E|(Hlo & Hhi & Hcp & Hbig)]; [contradiction|].
  destruct (Utf8.in_range (Utf8.lower st) (Utf8.upper st) b) eqn:Er;
    cbn [negb].
  2:{ destruct (lead_spec b) as [H1 H2].
      destruct (Utf8.lead b) as [out st']. cbn [fst snd] in *.
      split; [|exact H2]. rewrite nlCount_cons, H1. reflexivity. }
  unfold Utf8.in_range in Er. apply andb_true_iff in Er.
  destruct Er as [Er1 Er2]. apply Z.leb_le in Er1, Er2.
  assert (isNewline b = 0%nat) as ->.
  { unfold isNewline, NEWLINE. destruct (Z.eqb_spec b 10); [lia | auto]. }
  rewrite (land_low b 6 63) by (auto; lia). change (2 ^ 6) with 64.
  assert (b mod 64 = b - 128)
    by (symmetry; apply (Z.mod_unique b 64 2); lia).
  rewrite lor_shiftl6 by lia.
  destruct (Nat.eqb _ _); cbn [fst snd].
  - split; [|now left]. rewrite nlCount_one. unfold isNewline, NEWLINE.
    destruct (Z.eqb_spec (Utf8.code_point st * 64 + b mod 64) 10); [lia|auto].
  - split; [reflexivity|]. right. cbn. lia.
Qed.

Lemma run_newlines (bytes : list Z) (st : Utf8.state) :
  pending_ok st -> nlCount (Utf8.run st bytes) = nlCount bytes.
Proof.
  revert st. induction bytes as [|b bytes IH]; intros st Hst; simpl.
  - now destruct (Nat.eqb _ _).
  - destruct (handler_spec st b Hst) as [H1 H2].
    destruct (Utf8.handler st b) as [out st']. simpl in *.
    rewrite nlCount_app, H1, (IH st' H2), nlCount_cons. reflexivity.
Qed.

Lemma run_last_newline (bytes : list Z) (st : Utf8.state) :
  pending_ok st ->
  exists out, Utf8.run st (bytes ++ [NEWLINE]) = out ++ [NEWLINE].
Proof.
  revert st. induction bytes as [|b bytes IH]; intros st Hst.
  - simpl. unfold Utf8.handler.
    destruct (Nat.eqb_spec (Utf8.bytes_needed st) 0) as [E|Hne].
    + exists []. reflexivity.
    + destruct Hst as [E|(Hlo & Hhi & _)]; [contradiction|].
      unfold Utf8.in_range, NEWLINE.
      destruct (Z.leb_spec (Utf8.lower st) 10); [lia|]. simpl.
      exists [Utf8.REPLACEMENT]. reflexivity.
  - simpl. destruct (handler_spec st b Hst) as [_ H2].
    destruct (Utf8.handler st b) as [out st']. simpl in *.
    destruct (IH st' H2) as [out' ->]. exists (out ++ out').
    now rewrite app_assoc.
Qed.

Lemma units_newlines (c : Z) : nlCount (Utf8.units c) = isNewline c.
Proof.
  unfold Utf8.units. destruct (Z.ltb_spec c 65536); [apply nlCount_one|].
  pose proof (proj2 (Z.shiftr_nonneg (c - 65536) 10)).
  pose proof (proj2 (Z.land_nonneg (c - 65536) 1023)).
  unfold isNewline, NEWLINE. destruct (Z.eqb_spec c 10); [lia|].
  rewrite !nlCount_cons.
  destruct (Z.eqb_spec (55296 + Z.shiftr (c - 65536) 10) NEWLINE) as [E|_];
    [unfold NEWLINE in E; lia|].
  destruct (Z.eqb_spec (56320 + Z.land (c - 65536) 1023) NEWLINE) as [E|_];
    [unfold NEWLINE in E; lia|].
  reflexivity.
Qed.

Lemma flat_map_units_newlines (cps : list Z) :
  nlCount (flat_map Utf8.units cps) = nlCount cps.
Proof.
  induction cps as [|c cps IH]; simpl; [reflexivity|].
  rewrite nlCount_app, units_newlines, IH, nlCount_cons. reflexivity.
Qed.

Lemma stripBOM_newlines (cps : list Z) :
  nlCount (Utf8.stripBOM cps) = nlCount cps.
Proof.
  destruct cps as [|c cps]; simpl; [reflexivity|].
  destruct (Z.eqb_spec c 65279) as [->|]; [|reflexivity].
  now rewrite nlCount_cons.
Qed.

Lemma start_ok : pending_ok Utf8.start.
Proof. now left. Qed.

(** The decoded text has exactly the newlines of the bytes. *)
Lemma decode_newlines (bytes : list Z) : nlCount (decode bytes) = nlCount bytes.
Proof.
  unfold decode, Utf8.decode.
  rewrite flat_map_units_newlines, stripBOM_newlines.
  apply run_newlines, start_ok.
Qed.

(** The decoded text of a newline-terminated region ends with a newline. *)
Lemma decode_endsWith (bytes : list Z) :
  endsWith bytes NEWLINE = true -> endsWith (decode bytes) NEWLINE = true.
Proof.
  intro H. apply endsWith_inv in H. destruct H as [l ->].
  unfold decode, Utf8.decode.
  destruct (run_last_newline l Utf8.start start_ok) as [out ->].
  assert (exists out', Utf8.stripBOM (out ++ [NEWLINE]) = out' ++ [NEWLINE])
    as [out' ->].
  { destruct out as [|c out]; simpl.
    - exists []. reflexivity.
    - destruct (Z.eqb c 65279); [exists out | exists (c :: out)]; reflexivity. }
  rewrite flat_map_app.
  change (flat_map Utf8.units [NEWLINE]) with [NEWLINE].
  apply endsWith_app_one.
Qed.

End DecoderNewlines.

(** ** Sorted sequences of line numbers *)

Lemma sorted_weaken (l : list nat) : StronglySorted lt l -> StronglySorted le l.
Proof.
  induction 1 as [|a l _ IH Ha]; constructor; [exact IH|].
  eapply Forall_impl; [|exact Ha]. simpl. intros; lia.
Qed.

Lemma sorted_app (a b : list nat) :
  StronglySorted le a -> StronglySorted le b ->
  (forall x y, In x a -> In y b -> x <= y) ->
  StronglySorted le (a ++ b).
Proof.
  induction 1 as [|x a _ IH Hx]; intros Hb Hab; simpl; [exact Hb|].
  constructor.
  - apply IH; [exact Hb|]. intros; apply Hab; simpl; auto.
  - apply Forall_app. split; [exact Hx|].
    apply Forall_forall. intros y Hy. apply Hab; simpl; auto.
Qed.

Lemma sorted_firstn (l : list nat) (n : nat) :
  StronglySorted le l -> StronglySorted le (firstn n l).
Proof.
  intro H. revert n. induction H as [|a l _ IH Ha]; intros [|n]; simpl;
    try constructor; auto.
  apply Forall_forall. intros y Hy.
  rewrite Forall_forall in Ha. apply Ha.
  rewrite <- (firstn_skipn n l). apply in_or_app. now left.
Qed.

Lemma sorted_shift (l : list nat) (off : nat) :
  StronglySorted le l -> StronglySorted le (map (fun k => k + off) l).
Proof.
  induction 1 as [|a l _ IH Ha]; simpl; constructor; [exact IH|].
  apply Forall_map. eapply Forall_impl; [|exact Ha]. simpl. intros; lia.
Qed.

Lemma sorted_constant (k n : nat) : StronglySorted le (repeat k n).
Proof.
  induction n as [|n IH]; simpl; constructor; [exact IH|].
  apply Forall_forall. intros y Hy. apply repeat_spec in Hy. lia.
Qed.

Lemma sorted_adjacent (l : list nat) :
  StronglySorted le l ->
  forall i a b, nth_error l i = Some a -> nth_error l (S i) = Some b -> a <= b.
Proof.
  induction 1 as [|x l _ IH Hx]; intros [|i] a b Ha Hb; simpl in *;
    try discriminate.
  - injection Ha as <-. rewrite Forall_forall in Hx. apply Hx.
    destruct l; [discriminate|]. injection Hb as <-. now left.
  - now apply (IH i).
Qed.

Lemma shifted_lineNumbers (off : nat) (rs : list GrepLineResult) :
  map lineNumber (map (shifted off) rs)
  = map (fun k => k + off) (map lineNumber rs).
Proof. rewrite !map_map. reflexivity. Qed.

(** ** Line numbers of the regex path *)

Lemma split_length (s : jsstring) :
  length (split s NEWLINE) = S (nlCount s).
Proof.
  induction s as [|c s IH]; [reflexivity|].
  rewrite nlCount_cons. simpl.
  destruct (Z.eqb c NEWLINE); simpl; [now rewrite IH|].
  destruct (split s NEWLINE); simpl in *; lia.
Qed.

Lemma removelast_length (A : Type) (l : list A) :
  length (removelast l) = pred (length l).
Proof.
  rewrite removelast_firstn_len, length_firstn. lia.
Qed.

(** A newline-terminated region has as many lines as newline bytes. *)
Lemma linesOf_complete (region : list Z) :
  endsWith region NEWLINE = true -> length (linesOf region) = nlCount region.
Proof.
  intro H. unfold linesOf. rewrite (decode_endsWith region H).
  rewrite removelast_length, split_length, decode_newlines. reflexivity.
Qed.

Lemma pushedFor_lineNumbers (options : FastGrepOptions) (line : jsstring)
    (i : nat) :
  exists n, map lineNumber (pushedFor options line i) = repeat (i + 1) n
            /\ (onlyMatching options && negb (invertMatch options) = false ->
                n = 1).
Proof.
  unfold pushedFor.
  destruct (onlyMatching options && negb (invertMatch options)).
  - exists (length (execAll (regex options) line 0 (length line + 2))).
    split; [|discriminate]. rewrite map_map. simpl.
    induction (execAll _ _ _ _); simpl; [reflexivity | now f_equal].
  - exists 1. split; reflexivity.
Qed.

Lemma distinct_app_constant (k n : nat) (l : list nat) :
  length (nodup Nat.eq_dec (repeat k n ++ l))
  <= 1 + length (nodup Nat.eq_dec l).
Proof.
  change (1 + length (nodup Nat.eq_dec l))
    with (length (k :: nodup Nat.eq_dec l)).
  apply NoDup_incl_length; [apply NoDup_nodup|].
  intros x Hx. apply nodup_In in Hx. apply in_app_or in Hx.
  destruct Hx as [Hx|Hx].
  - apply repeat_spec in Hx. now left.
  - right. now apply nodup_In.
Qed.

(** The results of the line loop: non-decreasing line numbers among
    those of the lines it walks; a positive [maxCount] bounds the number
    of selected lines, hence of distinct line numbers, and bounds the
    number of results unless only-matching fragments are emitted. *)
Lemma regexLines_spec (options : FastGrepOptions) (lines : list jsstring) :
  forall i mc,
    (0 < maxCount options -> mc < maxCount options) ->
    let rs := regexLines options lines i mc in
    let ls := map lineNumber rs in
    StronglySorted le ls
    /\ Forall (fun k => i + 1 <= k <= i + length lines) ls
    /\ (0 < maxCount options ->
        mc + length (nodup Nat.eq_dec ls) <= maxCount options)
    /\ (0 < maxCount options ->
        onlyMatching options && negb (invertMatch options) = false ->
        mc + length rs <= maxCount options).
Proof.
  induction lines as [|line lines IH]; intros i mc Hcap; cbv zeta;
    cbn [regexLines].
  - simpl. splits; try constructor; intro H; apply Hcap in H; lia.
  - fold (pushedFor options line i).
    destruct (negb (Bool.eqb (test (regex options) line) (invertMatch options))).
    2:{ destruct (IH (S i) mc Hcap) as (H1 & H2 & H3 & H4). splits; auto.
        eapply Forall_impl; [|exact H2]. simpl. intros; lia. }
    destruct (pushedFor_lineNumbers options line i) as (n & Hn & Hone).
    destruct (reached options (mc + 1)) eqn:Ereached.
    + rewrite Hn. splits.
      * apply sorted_constant.
      * apply Forall_forall. intros k Hk. apply repeat_spec in Hk.
        simpl. lia.
      * intro H. specialize (Hcap H).
        pose proof (distinct_app_constant (i + 1) n []) as Hd.
        rewrite app_nil_r in Hd. simpl in Hd. lia.
      * intros H Hflag. specialize (Hcap H). specialize (Hone Hflag).
        rewrite <- (length_map lineNumber), Hn, repeat_length. lia.
    + assert (0 < maxCount options -> mc + 1 < maxCount options) as Hcap'.
      { intro H.
        destruct (Nat.lt_ge_cases (mc + 1) (maxCount options)); [assumption|].
        assert (reached options (mc + 1) = true) by (apply reached_iff; lia).
        congruence. }
      destruct (IH (S i) (mc + 1) Hcap') as (H1 & H2 & H3 & H4).
      rewrite map_app, Hn. splits.
      * apply sorted_app; [apply sorted_constant | exact H1 |].
        intros x y Hx Hy. apply repeat_spec in Hx.
        rewrite Forall_forall in H2. specialize (H2 y Hy). simpl in H2. lia.
      * apply Forall_app. split.
        -- apply Forall_forall. intros k Hk. apply repeat_spec in Hk.
           simpl. lia.
        -- eapply Forall_impl; [|exact H2]. simpl. intros; lia.
      * intro H. specialize (H3 H).
        pose proof (distinct_app_constant (i + 1) n
                      (map lineNumber (regexLines options lines (S i) (mc + 1)))).
        lia.
      * intros H Hflag. specialize (H4 H Hflag). specialize (Hone Hflag).
        rewrite length_app, <- (length_map lineNumber (pushedFor _ _ _)), Hn,
          repeat_length.
        lia.
Qed.

(** ** Order of the results *)

(** What both scanners give on any region: non-decreasing line numbers,
    and for a newline-terminated region none beyond its newline count. *)
Lemma scan_lines (region : list Z) (options : FastGrepOptions) :
  StronglySorted le (map lineNumber (scan region options))
  /\ (endsWith region NEWLINE = true ->
      Forall (fun k => k <= nlCount region)
        (map lineNumber (scan region options))).
Proof.
  unfold scan. destruct (isLiteral options).
  - destruct (grepBufferLiteral_lines region options) as (H1 & H2 & _).
    split; [now apply sorted_weaken|].
    intro H. now rewrite <- (maxLine_complete region H).
  - unfold grepBufferRegex.
    destruct (regexLines_spec options (linesOf region) 0 0
                ltac:(auto)) as (H1 & H2 & _).
    split; [exact H1|]. intro H.
    rewrite <- (linesOf_complete region H).
    eapply Forall_impl; [|exact H2]. simpl. intros; lia.
Qed.

(** Between two reads the calls made so far are in order and none has
    a line number beyond the running line offset. *)
Definition ordered (st : StreamState) : Prop :=
  StronglySorted le (map lineNumber (calls st))
  /\ Forall (fun k => k <= lineOffset st) (map lineNumber (calls st)).

Lemma delivered_lines (options : FastGrepOptions) (off : nat)
    (results : list GrepLineResult) (mc : nat) :
  exists n,
    map lineNumber (fst (fst (deliver options off results mc)))
    = map (fun k => k + off) (firstn n (map lineNumber results)).
Proof.
  destruct (deliver_prefix options off results mc) as (n & _ & E & _).
  exists n. rewrite E, shifted_lineNumbers, firstn_map. reflexivity.
Qed.

Lemma calls_extend (st : StreamState) (region : list Z)
    (options : FastGrepOptions) (n : nat) :
  ordered st ->
  StronglySorted le
    (map lineNumber (calls st)
     ++ map (fun k => k + lineOffset st)
          (firstn n (map lineNumber (scan region options)))).
Proof.
  intros [Hs Hb]. apply sorted_app.
  - exact Hs.
  - apply sorted_shift, sorted_firstn, scan_lines.
  - intros x y Hx Hy. rewrite Forall_forall in Hb. specialize (Hb x Hx).
    apply in_map_iff in Hy. destruct Hy as (k & <- & _). lia.
Qed.

Lemma onChunk_ordered (options : FastGrepOptions) (st : StreamState)
    (value : Uint8Array) :
  ordered st ->
  match onChunk options st value with
  | Next st' => ordered st'
  | Return r => StronglySorted le (map lineNumber (res_calls r))
  end.
Proof.
  intro Hst. unfold onChunk.
  destruct (lastIndexOf (buffer st ++ value) NEWLINE) as [k|] eqn:E;
    [|exact Hst].
  apply lastIndexOf_Some in E. destruct E as [Hk _].
  pose proof (slice_endsWith _ _ Hk) as Hends.
  set (complete := slice (buffer st ++ value) 0 (k + 1)) in *.
  destruct (delivered_lines options (lineOffset st) (scan complete options)
              (matchCount st)) as (n & Hn).
  destruct (deliver _ _ _ _) as [[made mc] stopped]. simpl in Hn.
  assert (StronglySorted le (map lineNumber (calls st ++ made))) as Hsorted.
  { rewrite map_app, Hn. now apply calls_extend. }
  destruct stopped; simpl; [exact Hsorted|].
  split; simpl; [exact Hsorted|].
  rewrite map_app, Hn, countNewlines_all. apply Forall_app. split.
  - destruct Hst as [_ Hb]. eapply Forall_impl; [|exact Hb].
    simpl. intros; lia.
  - destruct (scan_lines complete options) as [_ Hbound].
    specialize (Hbound Hends). apply Forall_map.
    apply Forall_forall. intros x Hx.
    rewrite Forall_forall in Hbound.
    assert (In x (map lineNumber (scan complete options))) as Hin.
    { rewrite <- (firstn_skipn n). apply in_or_app. now left. }
    specialize (Hbound x Hin). lia.
Qed.

Lemma onDone_ordered (options : FastGrepOptions) (st : StreamState) :
  ordered st ->
  StronglySorted le (map lineNumber (res_calls (onDone options st))).
Proof.
  intro Hst. unfold onDone.
  destruct (Nat.ltb 0 (length (buffer st))); [|apply Hst].
  destruct (delivered_lines options (lineOffset st)
              (scan (buffer st) options) (matchCount st)) as (n & Hn).
  destruct (deliver _ _ _ _) as [[made mc] stopped]. simpl in *.
  rewrite map_app, Hn. now apply calls_extend.
Qed.

Definition ascendingLines (rs : list GrepLineResult) : Prop :=
  forall i a b,
    nth_error rs i = Some a -> nth_error rs (S i) = Some b ->
    lineNumber a <= lineNumber b.

Lemma sorted_ascendingLines (rs : list GrepLineResult) :
  StronglySorted le (map lineNumber rs) -> ascendingLines rs.
Proof.
  intros H i a b Ha Hb.
  apply (sorted_adjacent (map lineNumber rs) H i);
    rewrite nth_error_map; [now rewrite Ha | now rewrite Hb].
Qed.

(** C9. The results of [grepBufferLiteral] and of [grepBufferRegex],
    and the calls of [onResult] made by [grepStream], come with
    non-decreasing line numbers: each is at most the next one's. *)
Theorem results_ascending (options : FastGrepOptions) (buffer : Uint8Array)
    (stream : list Uint8Array) :
  ascendingLines (grepBufferLiteral buffer options)
  /\ ascendingLines (grepBufferRegex buffer options)
  /\ ascendingLines (res_calls (grepStream stream options)).
Proof.
  splits; apply sorted_ascendingLines.
  - destruct (grepBufferLiteral_lines buffer options) as (H & _).
    now apply sorted_weaken.
  - unfold grepBufferRegex.
    now destruct (regexLines_spec options (linesOf buffer) 0 0 ltac:(auto))
      as (H & _).
  - unfold grepStream.
    apply (readLoop_rule options ordered
             (fun r => StronglySorted le (map lineNumber (res_calls r)))).
    + intros st v Hst. apply (onChunk_ordered options st v Hst).
    + apply onDone_ordered.
    + split; simpl; constructor.
Qed.

(** C1 (as the code has it). With [maxCount = k > 0]: [grepBufferLiteral]
    returns at most [k] results; [grepBufferRegex] returns results of at
    most [k] distinct lines, and at most [k] results unless it emits
    only-matching fragments (only-matching without invert); [grepStream]
    calls [onResult] at most [k] times over all regions. *)
Theorem maxCount_cap (options : FastGrepOptions) (buffer : Uint8Array)
    (stream : list Uint8Array) :
  0 < maxCount options ->
  length (grepBufferLiteral buffer options) <= maxCount options
  /\ length (nodup Nat.eq_dec
               (map lineNumber (grepBufferRegex buffer options)))
     <= maxCount options
  /\ (onlyMatching options && negb (invertMatch options) = false ->
      length (grepBufferRegex buffer options) <= maxCount options)
  /\ length (res_calls (grepStream stream options)) <= maxCount options.
Proof.
  intro Hpos. splits.
  - destruct (grepBufferLiteral_lines buffer options) as (_ & _ & H).
    rewrite length_map in H. auto.
  - unfold grepBufferRegex.
    destruct (regexLines_spec options (linesOf buffer) 0 0 ltac:(auto))
      as (_ & _ & H & _).
    apply (H Hpos).
  - intro Hflag. unfold grepBufferRegex.
    destruct (regexLines_spec options (linesOf buffer) 0 0 ltac:(auto))
      as (_ & _ & _ & H).
    apply (H Hpos Hflag).
  - now apply grepStream_calls_capped.
Qed.

(** ** Two pattern evaluators *)

(** [/c/g] for one character [c]: the first occurrence of [c] at or
    after [lastIndex]. *)
Definition charSearch (c : Z) (s : jsstring) (i : nat) : option (nat * nat) :=
  match indexOf s c i with
  | Some j => Some (j, S j)
  | None => None
  end.

Lemma charSearch_bounds (c : Z) (s : jsstring) (i b e : nat) :
  charSearch c s i = Some (b, e) -> i <= b /\ b <= e /\ e <= length s.
Proof.
  unfold charSearch. destruct (indexOf s c i) as [j|] eqn:E; [|discriminate].
  intro H. injection H as <- <-. apply indexOf_Some in E. lia.
Qed.

Definition globalChar (c : Z) : RegExp :=
  mkRegExp (charSearch c) (charSearch_bounds c).

(** [/(?:)/g]: the empty match at [lastIndex]. *)
Definition emptySearch (s : jsstring) (i : nat) : option (nat * nat) :=
  if Nat.leb i (length s) then Some (i, i) else None.

Lemma emptySearch_bounds (s : jsstring) (i b e : nat) :
  emptySearch s i = Some (b, e) -> i <= b /\ b <= e /\ e <= length s.
Proof.
  unfold emptySearch.
  destruct (Nat.leb_spec i (length s)) as [Hi|Hi]; [|discriminate].
  intro H. injection H as <- <-. lia.
Qed.

Definition globalEmpty : RegExp := mkRegExp emptySearch emptySearch_bounds.

(** Options of a literal search with every policy flag off. *)
Definition literalOptions (pattern : jsstring) (re : RegExp) (maxCount : nat)
  : FastGrepOptions :=
  mkOptions pattern re true false false false false maxCount false.

Definition withInvert (options : FastGrepOptions) (invert : bool)
  : FastGrepOptions :=
  mkOptions (pattern options) (regex options) (isLiteral options)
    (ignoreCase options) invert (wholeWord options) (lineRegexp options)
    (maxCount options) (onlyMatching options).

(** ** Scenarios *)

(** C3. The stream that delivers "partial" and then "line\n" is searched
    for the literal "partialline" with every policy flag off: nothing is
    scanned or reported after the first chunk, whose bytes are carried
    over; [onResult] is called exactly once, with line 1 and content
    "partialline", and the match count returned is 1. *)
Theorem split_word_reported_once (re : RegExp) (maxCount : nat) :
  let options := literalOptions (lit "partialline") re maxCount in
  let first := encode (lit "partial") in
  let second := encode (lit "line" ++ [NEWLINE]) in
  feed options [first] initial = Next (mkStreamState first 0 0 [] [])
  /\ res_calls (grepStream [first; second] options)
     = [mkResult 1 (lit "partialline") None]
  /\ res_matchCount (grepStream [first; second] options) = 1.
Proof. cbv zeta. destruct maxCount as [|[|k]]; splits; reflexivity. Qed.

(** C4, at a pattern that starts with a newline.  In the buffer "a\nb\n"
    the literal "\n" occurs on lines 1 and 2, which the forward scan
    returns; the inverted scan returns lines 1 and 2 as well, not the
    complement. *)
Theorem invert_misses_newline_match (re : RegExp) :
  let buffer := encode (lit "a" ++ [NEWLINE] ++ lit "b" ++ [NEWLINE]) in
  let options := literalOptions [NEWLINE] re 0 in
  findPatternPositions buffer (encode [NEWLINE]) = [1; 3]
  /\ map lineNumber (grepBufferLiteral buffer options) = [1; 2]
  /\ map lineNumber (grepBufferLiteral buffer (withInvert options true))
     = [1; 2].
Proof. cbv zeta. splits; reflexivity. Qed.




(** [grepBufferLiteral] returns nothing for the empty buffer. *)
Lemma grepBufferLiteral_empty (options : FastGrepOptions) :
  grepBufferLiteral [] options = [].
Proof.
  unfold grepBufferLiteral.
  assert (forall pat, findPatternPositions [] pat = []) as E1.
  { intro pat. unfold findPatternPositions. now destruct pat. }
  assert (forall pat, findPatternPositionsIgnoreCase [] pat = []) as E2.
  { intro pat. unfold findPatternPositionsIgnoreCase. now destruct pat. }
  destruct (ignoreCase options); rewrite ?E1, ?E2;
    destruct (invertMatch options); reflexivity.
Qed.

(** On the empty buffer [grepBufferRegex] evaluates the pattern on one
    empty line, and returns a result for it when that line is selected. *)
Lemma grepBufferRegex_empty (options : FastGrepOptions) :
  length (grepBufferRegex [] options)
  = if Bool.eqb (test (regex options) []) (invertMatch options)
    then 0
    else length (pushedFor options [] 0).
Proof.
  unfold grepBufferRegex. change (linesOf []) with [[] : jsstring].
  cbn [regexLines]. fold (pushedFor options [] 0).
  destruct (Bool.eqb _ _); simpl; [reflexivity|].
  destruct (reached options 1); [reflexivity | now rewrite app_nil_r].
Qed.

(** C6, at the empty buffer on the regex path: a pattern that matches
    the empty string, and any pattern that does not under
    [invertMatch], give one result, for a line 1 that the buffer does
    not have. *)
Theorem regex_empty_buffer_result :
  grepBufferRegex []
    (mkOptions [] globalEmpty false false false false false 0 false)
  = [mkResult 1 [] None]
  /\ grepBufferRegex []
       (mkOptions (lit "a") (globalChar 97) false false true false false 0
          false)
     = [mkResult 1 [] None].
Proof. split; reflexivity. Qed.

(** C1 fails on "aa" searched for [/a/g] with only-matching and
    [maxCount = 1]: the one selected line gives two results. *)
Lemma regex_fragments_exceed_cap :
  let options :=
    mkOptions (lit "a") (globalChar 97) false false false false false 1 true in
  0 < maxCount options
  /\ grepBufferRegex (encode (lit "aa")) options
     = [mkResult 1 (lit "a") None; mkResult 1 (lit "a") None]
  /\ ~ length (grepBufferRegex (encode (lit "aa")) options)
       <= maxCount options.
Proof.
  cbv zeta. splits; [simpl; lia | reflexivity |].
  change (~ 2 <= 1). lia.
Qed.

(** ** The loops run to completion

    Each [while] loop of the source is modelled with a number of
    iterations left.  The number each caller passes is enough: with it,
    or with any larger one, the loop stops because its condition is
    false. *)

Lemma lineEndAt_fuel (chunk : list Z) (n m end_ : nat) :
  length chunk - end_ <= n -> length chunk - end_ <= m ->
  lineEndAt chunk end_ n = lineEndAt chunk end_ m.
Proof.
  revert m end_. induction n as [|n IH]; intros m end_ Hn Hm.
  - destruct m as [|m]; simpl; [reflexivity|].
    destruct (Nat.ltb_spec end_ (length chunk)); [lia | reflexivity].
  - simpl. destruct (Nat.ltb_spec end_ (length chunk)) as [Hlt|Hge]; simpl.
    + destruct m as [|m]; [lia|]. simpl.
      destruct (Nat.ltb_spec end_ (length chunk)); [|lia]. simpl.
      destruct (negb _); [apply IH; lia | reflexivity].
    + destruct m as [|m]; simpl; [reflexivity|].
      destruct (Nat.ltb_spec end_ (length chunk)); [lia | reflexivity].
Qed.

Lemma fastForward_fuel (buffer : list Z) (pos n m cls cln : nat) :
  pos - cls <= n -> pos - cls <= m ->
  fastForward buffer pos cls cln n = fastForward buffer pos cls cln m.
Proof.
  revert m cls cln. induction n as [|n IH]; intros m cls cln Hn Hm.
  - destruct m as [|m]; simpl; [reflexivity|].
    destruct (Nat.ltb_spec cls pos); [lia | reflexivity].
  - simpl. destruct (Nat.ltb_spec cls pos) as [Hlt|Hge].
    + destruct m as [|m]; [lia|]. simpl.
      destruct (Nat.ltb_spec cls pos); [|lia].
      destruct (indexOf buffer NEWLINE cls) as [nlPos|] eqn:E; [|reflexivity].
      destruct (Nat.leb_spec pos nlPos); [reflexivity|].
      apply indexOf_Some in E. apply IH; lia.
    + destruct m as [|m]; simpl; [reflexivity|].
      destruct (Nat.ltb_spec cls pos); [lia | reflexivity].
Qed.

Lemma actualEndOf_ge (buffer : list Z) (lineStart : nat) :
  lineStart < length buffer -> lineStart <= actualEndOf buffer lineStart.
Proof.
  intro H. unfold actualEndOf.
  destruct (indexOf buffer NEWLINE lineStart) as [e|] eqn:E; [|lia].
  apply indexOf_Some in E. lia.
Qed.

Lemma markLines_fuel (buffer : list Z) (n m : nat) (ps : list nat)
    (lineStart lineNum : nat) (matchSet : list nat) :
  length buffer - lineStart <= n -> length buffer - lineStart <= m ->
  markLines buffer ps lineStart lineNum matchSet n
  = markLines buffer ps lineStart lineNum matchSet m.
Proof.
  revert m ps lineStart lineNum matchSet.
  induction n as [|n IH]; intros m ps lineStart lineNum matchSet Hn Hm.
  - destruct m as [|m]; simpl; [reflexivity|].
    destruct (Nat.ltb_spec lineStart (length buffer)); [lia | reflexivity].
  - simpl. destruct (Nat.ltb_spec lineStart (length buffer)) as [Hlt|Hge].
    + destruct m as [|m]; [lia|]. simpl.
      destruct (Nat.ltb_spec lineStart (length buffer)); [|lia]. simpl.
      destruct (Nat.ltb 0 (length ps)); [|reflexivity].
      destruct (markLine ps lineStart (actualEndOf buffer lineStart)
                  lineNum matchSet) as [ps' matchSet'].
      pose proof (actualEndOf_ge buffer lineStart Hlt).
      apply IH; lia.
    + destruct m as [|m]; simpl; [reflexivity|].
      destruct (Nat.ltb_spec lineStart (length buffer)); [lia | reflexivity].
Qed.

Lemma collectLines_fuel (buffer : list Z) (options : FastGrepOptions)
    (matchSet : list nat) (n m lineStart lineNum mc : nat) :
  length buffer - lineStart <= n -> length buffer - lineStart <= m ->
  collectLines buffer options matchSet lineStart lineNum mc n
  = collectLines buffer options matchSet lineStart lineNum mc m.
Proof.
  revert m lineStart lineNum mc.
  induction n as [|n IH]; intros m lineStart lineNum mc Hn Hm.
  - destruct m as [|m]; simpl; [reflexivity|].
    destruct (Nat.ltb_spec lineStart (length buffer)); [lia | reflexivity].
  - simpl. destruct (Nat.ltb_spec lineStart (length buffer)) as [Hlt|Hge].
    + destruct m as [|m]; [lia|]. simpl.
      destruct (Nat.ltb_spec lineStart (length buffer)); [|lia].
      pose proof (actualEndOf_ge buffer lineStart Hlt).
      destruct (negb _).
      * destruct (reached options (mc + 1)); [reflexivity|].
        f_equal. apply IH; lia.
      * apply IH; lia.
    + destruct m as [|m]; simpl; [reflexivity|].
      destruct (Nat.ltb_spec lineStart (length buffer)); [lia | reflexivity].
Qed.

Lemma slice_length (a : list Z) (b e : nat) :
  e <= length a -> length (slice a b e) = e - b.
Proof. intro H. unfold slice. rewrite length_firstn, length_skipn. lia. Qed.

Lemma exec_Some (re : RegExp) (line : jsstring) (lastIndex b e next : nat) :
  exec re line lastIndex = (Some (b, e), next) ->
  lastIndex <= b /\ b <= e /\ e <= length line /\ next = e.
Proof.
  unfold exec. destruct (Nat.ltb_spec (length line) lastIndex) as [Hi|Hi];
    [discriminate|].
  destruct (re_search re line lastIndex) as [[b' e']|] eqn:E; [|discriminate].
  intro H. injection H as <- <- <-. apply re_bounds in E. lia.
Qed.

Lemma exec_beyond (re : RegExp) (line : jsstring) (lastIndex : nat) :
  length line < lastIndex -> exec re line lastIndex = (None, 0).
Proof.
  intro Hi. unfold exec.
  destruct (Nat.ltb_spec (length line) lastIndex); [reflexivity | lia].
Qed.

(** Every iteration of the [exec] loop moves [lastIndex] forward, so
    the loop ends within [line.length + 2] iterations. *)
Lemma execAll_fuel (re : RegExp) (line : jsstring) (n m lastIndex : nat) :
  length line + 2 - lastIndex <= n -> length line + 2 - lastIndex <= m ->
  execAll re line lastIndex n = execAll re line lastIndex m.
Proof.
  revert m lastIndex. induction n as [|n IH]; intros m lastIndex Hn Hm.
  - destruct m as [|m]; simpl; [reflexivity|].
    rewrite exec_beyond by lia. reflexivity.
  - simpl. destruct (exec re line lastIndex) as [[[b e]|] next] eqn:E.
    + destruct (exec_Some _ _ _ _ _ _ E) as (H1 & H2 & H3 & ->).
      destruct m as [|m]; [lia|]. simpl. rewrite E.
      f_equal. rewrite slice_length by assumption.
      destruct (Nat.eqb_spec (e - b) 0); apply IH; lia.
    + destruct m as [|m]; simpl; [reflexivity|].
      now rewrite E.
Qed.

(** ** Invert mode against forward mode

    Away from matches that start on a newline byte, the lines that the
    inverted scan returns are the lines of the buffer that the forward
    scan does not return. *)

(** The newline bytes in [buffer[a .. b)]. *)
Definition between (buffer : list Z) (a b : nat) : nat :=
  nlCount (slice buffer a b).

Lemma between_split (buffer : list Z) (a b c : nat) :
  a <= b -> b <= c -> between buffer a c = between buffer a b + between buffer b c.
Proof.
  intros Hab Hbc. unfold between, slice.
  replace (c - a) with ((b - a) + (c - b)) by lia.
  rewrite firstn_add, nlCount_app, skipn_skipn.
  now replace (b - a + a) with b by lia.
Qed.

Lemma between_same (buffer : list Z) (a : nat) : between buffer a a = 0.
Proof. unfold between, slice. now rewrite Nat.sub_diag. Qed.

Lemma between_one (buffer : list Z) (e : nat) :
  at_ buffer e = Some NEWLINE -> between buffer e (S e) = 1.
Proof.
  unfold between, slice, at_. intro H.
  replace (S e - e) with 1 by lia.
  destruct (skipn e buffer) as [|x t] eqn:E.
  - apply skipn_nil_inv in E. congruence.
  - apply skipn_cons_inv in E. destruct E as [E _].
    assert (x = NEWLINE) as -> by congruence. reflexivity.
Qed.

Lemma between_zero_at (buffer : list Z) (a b k : nat) :
  between buffer a b = 0 -> a <= k < b -> at_ buffer k <> Some NEWLINE.
Proof.
  intros H0 Hk Hnl.
  rewrite (between_split buffer a k b) in H0 by lia.
  rewrite (between_split buffer k (S k) b) in H0 by lia.
  rewrite (between_one buffer k Hnl) in H0. lia.
Qed.

Lemma indexFrom_first (l : list Z) (v : Z) (i j : nat) :
  indexFrom l v i = Some j -> ~ In v (firstn (j - i) l).
Proof.
  revert i. induction l as [|x l IH]; intro i; simpl; [discriminate|].
  destruct (Z.eqb_spec x v) as [->|Hne].
  - intro H. injection H as <-. rewrite Nat.sub_diag. simpl. auto.
  - intro H. pose proof (indexFrom_Some _ _ _ _ H) as [Hr _].
    replace (j - i) with (S (j - S i)) by lia. simpl.
    intros [E|Hin]; [congruence|]. exact (IH _ H Hin).
Qed.

(** No newline lies between the start of a search and what it finds. *)
Lemma indexOf_first (buffer : list Z) (from e : nat) :
  indexOf buffer NEWLINE from = Some e -> between buffer from e = 0.
Proof.
  unfold indexOf, between, slice. intro H.
  apply nlCount_zero. now apply indexFrom_first.
Qed.

Lemma indexOf_none (buffer : list Z) (from b : nat) :
  indexOf buffer NEWLINE from = None -> between buffer from b = 0.
Proof.
  unfold indexOf, between, slice. intro H. apply indexFrom_None in H.
  apply nlCount_zero. intro Hin. apply H.
  rewrite <- (firstn_skipn (b - from) (skipn from buffer)).
  apply in_or_app. now left.
Qed.

Lemma between_actualEnd (buffer : list Z) (lineStart : nat) :
  between buffer lineStart (actualEndOf buffer lineStart) = 0.
Proof.
  unfold actualEndOf.
  destruct (indexOf buffer NEWLINE lineStart) eqn:E.
  - now apply indexOf_first.
  - now apply indexOf_none.
Qed.

(** With enough iterations the fast-forward loop ends at the start of
    the line that holds [pos], having counted the newlines it passed. *)
Lemma fastForward_exact (buffer : list Z) (pos n cls cln : nat) :
  cls <= pos -> pos - cls <= n ->
  let r := fastForward buffer pos cls cln n in
  cls <= fst r <= pos
  /\ snd r = cln + between buffer cls (fst r)
  /\ between buffer (fst r) pos = 0.
Proof.
  revert cls cln. induction n as [|n IH]; intros cls cln Hle Hn; cbv zeta.
  - simpl. assert (cls = pos) as -> by lia.
    rewrite between_same. splits; lia.
  - simpl. destruct (Nat.ltb_spec cls pos) as [Hlt|Hge]; simpl.
    2:{ assert (cls = pos) as -> by lia. rewrite between_same. splits; lia. }
    destruct (indexOf buffer NEWLINE cls) as [nlPos|] eqn:E; simpl.
    2:{ rewrite between_same, (indexOf_none buffer cls pos E). splits; lia. }
    pose proof (indexOf_first buffer cls nlPos E) as Hfirst.
    apply indexOf_Some in E. destruct E as [Hrange Hnl].
    destruct (Nat.leb_spec pos nlPos) as [Hstop|Hgo]; simpl.
    + rewrite between_same. splits; try lia.
      rewrite (between_split buffer cls pos nlPos) in Hfirst by lia. lia.
    + destruct (IH (S nlPos) (S cln) ltac:(lia) ltac:(lia)) as (H1 & H2 & H3).
      splits; try lia.
      rewrite H2.
      rewrite (between_split buffer cls (S nlPos)
                 (fst (fastForward buffer pos (S nlPos) (S cln) n))) by lia.
      rewrite (between_split buffer cls nlPos (S nlPos)) by lia.
      rewrite (between_one buffer nlPos Hnl). lia.
Qed.

Lemma mapSet_keys (m : LineMap) (k : nat) (v : LineMatch) (n : nat) :
  mapHas m k = false -> (In n (keys (mapSet m k v)) <-> In n (keys m) \/ n = k).
Proof.
  intro H. unfold mapSet, keys. rewrite H, map_app, in_app_iff. simpl.
  intuition auto.
Qed.

(** Forward mode without filters and without cap: the accumulator's
    lines are the lines of the positions. *)
Lemma groupByLine_keys (buffer : list Z) (options : FastGrepOptions)
    (patternLen : nat) (positions : list nat) :
  wholeWord options = false -> lineRegexp options = false ->
  maxCount options = 0 ->
  StronglySorted lt positions ->
  forall cls cln lm,
    Forall (fun p => cls <= p) positions ->
    forall n,
      In n (keys (groupByLine buffer options patternLen positions cls cln lm))
      <-> In n (keys lm)
          \/ exists p, In p positions /\ n = cln + between buffer cls p.
Proof.
  intros Hword Hline Hmax.
  induction 1 as [|pos rest Hrest IH Hpos]; intros cls cln lm Hfrom n;
    cbn [groupByLine].
  - split; [auto | intros [H|(p & [] & _)]; exact H].
  - inversion Hfrom as [|? ? Hle Hfrom']; subst.
    rewrite Hword, Hline. cbn [andb].
    destruct (fastForward_exact buffer pos (pos - cls) cls cln Hle (le_n _))
      as (Hr & Hcln & Hzero).
    destruct (fastForward buffer pos cls cln (pos - cls)) as [cls' cln'].
    cbn [fst snd] in *.
    rewrite reached_unbounded by assumption.
    rewrite IH.
    2:{ eapply Forall_impl; [|exact Hpos]. simpl. intros; lia. }
    rewrite pushPosition_keys.
    assert (forall p, cls' <= p ->
              cln + between buffer cls p = cln' + between buffer cls' p) as Hshift.
    { intros p Hp. rewrite (between_split buffer cls cls' p) by lia. lia. }
    assert (In n (keys (if negb (mapHas lm cln')
                        then mapSet lm cln'
                               (mkLineMatch cln'
                                  (line_content (extractLineAt buffer pos)) [])
                        else lm))
            <-> In n (keys lm) \/ n = cln') as ->.
    { destruct (mapHas lm cln') eqn:Ehas; cbn [negb].
      - apply mapHas_keys in Ehas. split; [auto|].
        intros [H| ->]; assumption.
      - now apply mapSet_keys. }
    split.
    + intros [[H| ->]|(p & Hp & ->)].
      * now left.
      * right. exists pos. split; [now left|]. rewrite Hshift by lia. lia.
      * right. exists p. split; [now right|].
        rewrite Forall_forall in Hpos. specialize (Hpos p Hp).
        rewrite Hshift by lia. reflexivity.
    + intros [H|(p & [<-|Hp] & ->)].
      * left. now left.
      * left. right. rewrite Hshift by lia. lia.
      * right. exists p. split; [exact Hp|].
        rewrite Forall_forall in Hpos. specialize (Hpos p Hp).
        rewrite Hshift by lia. reflexivity.
Qed.

Lemma setHas_In (s : list nat) (n : nat) : setHas s n = true <-> In n s.
Proof.
  unfold setHas. rewrite existsb_exists. split.
  - intros (x & Hx & E). apply Nat.eqb_eq in E. now subst.
  - intro H. exists n. split; [exact H | apply Nat.eqb_refl].
Qed.

Lemma setAdd_In (s : list nat) (k n : nat) :
  In n (setAdd s k) <-> In n s \/ n = k.
Proof.
  unfold setAdd. destruct (setHas s k) eqn:E.
  - apply setHas_In in E. split; [auto | intros [H| ->]; assumption].
  - rewrite in_app_iff. simpl. intuition auto.
Qed.

(** The inner loop of the first pass takes the positions before
    [actualEnd] and marks the line if there is one. *)
Lemma markLine_spec (ps : list nat) (lineStart actualEnd lineNum : nat) :
  StronglySorted lt ps ->
  Forall (fun p => lineStart <= p) ps ->
  forall matchSet,
    let r := markLine ps lineStart actualEnd lineNum matchSet in
    StronglySorted lt (fst r)
    /\ (forall p, In p (fst r) <-> In p ps /\ actualEnd <= p)
    /\ (forall n, In n (snd r)
                  <-> In n matchSet
                      \/ (n = lineNum /\ exists p, In p ps /\ p < actualEnd)).
Proof.
  induction 1 as [|p ps Hs IH Hp]; intros Hfrom matchSet; cbv zeta;
    cbn [markLine].
  - simpl. splits; [constructor | tauto |].
    intro n. split; [auto | intros [H|(_ & p & [] & _)]; exact H].
  - inversion Hfrom as [|? ? Hle Hfrom']; subst.
    destruct (Nat.ltb_spec p actualEnd) as [Hlt|Hge].
    + destruct (Nat.leb_spec lineStart p) as [_|Hbad]; [|lia].
      destruct (IH Hfrom' (setAdd matchSet lineNum)) as (H1 & H2 & H3).
      splits; [exact H1 | |].
      * intro q. rewrite H2. simpl. split; [tauto|].
        intros [[<-|H] Hq]; [lia | tauto].
      * intro n. rewrite H3, setAdd_In. split.
        -- intros [[H| ->]|(-> & q & Hq & Hqlt)]; auto.
           ++ right. split; [reflexivity|]. exists p. simpl. auto.
           ++ right. split; [reflexivity|]. exists q. simpl. auto.
        -- intros [H|(-> & q & Hq & Hqlt)]; auto.
    + cbn [fst snd]. splits.
      * now constructor.
      * intro q. split; [|tauto]. intro Hq. split; [exact Hq|].
        destruct Hq as [<-|Hq]; [lia|].
        rewrite Forall_forall in Hp. specialize (Hp q Hq). lia.
      * intro n. split; [auto|].
        intros [H|(_ & q & Hq & Hqlt)]; [exact H|]. exfalso.
        destruct Hq as [<-|Hq]; [lia|].
        rewrite Forall_forall in Hp. specialize (Hp q Hq). lia.
Qed.

Lemma actualEndOf_cases (buffer : list Z) (lineStart : nat) :
  lineStart < length buffer ->
  (actualEndOf buffer lineStart < length buffer
   /\ lineStart <= actualEndOf buffer lineStart
   /\ at_ buffer (actualEndOf buffer lineStart) = Some NEWLINE)
  \/ (actualEndOf buffer lineStart = length buffer
      /\ indexOf buffer NEWLINE lineStart = None).
Proof.
  intro Hlt. unfold actualEndOf.
  destruct (indexOf buffer NEWLINE lineStart) as [e|] eqn:E; [left|right; auto].
  apply indexOf_Some in E. destruct E as [Hr Hnl]. splits; [lia | lia | exact Hnl].
Qed.

(** The first pass marks the lines of the positions, when none of them
    is the position of a newline byte. *)
Lemma markLines_spec (buffer : list Z) (n : nat) :
  forall ps lineStart lineNum matchSet,
    length buffer - lineStart <= n ->
    StronglySorted lt ps ->
    Forall (fun p => lineStart <= p < length buffer
                     /\ at_ buffer p <> Some NEWLINE) ps ->
    forall k,
      In k (markLines buffer ps lineStart lineNum matchSet n)
      <-> In k matchSet
          \/ exists p, In p ps /\ k = lineNum + between buffer lineStart p.
Proof.
  induction n as [|n IH]; intros ps lineStart lineNum matchSet Hn Hs Hps k;
    cbn [markLines].
  - split; [auto|]. intros [H|(p & Hp & _)]; [exact H|].
    rewrite Forall_forall in Hps. specialize (Hps p Hp). lia.
  - destruct (Nat.ltb_spec lineStart (length buffer)) as [Hlt|Hge]; cbn [andb].
    2:{ split; [auto|]. intros [H|(p & Hp & _)]; [exact H|].
        rewrite Forall_forall in Hps. specialize (Hps p Hp). lia. }
    destruct ps as [|p0 ps0] eqn:Eps; cbn [length Nat.ltb Nat.leb].
    { split; [auto | intros [H|(p & [] & _)]; exact H]. }
    rewrite <- Eps in *. clear Eps p0 ps0.
    pose proof (between_actualEnd buffer lineStart) as Hzero.
    pose proof (actualEndOf_cases buffer lineStart Hlt) as Hcases.
    set (actualEnd := actualEndOf buffer lineStart) in *.
    assert (Forall (fun p => lineStart <= p) ps) as Hfrom.
    { eapply Forall_impl; [|exact Hps]. simpl. intros; lia. }
    destruct (markLine_spec ps lineStart actualEnd lineNum Hs Hfrom matchSet)
      as (Hs' & Hps' & Hset).
    destruct (markLine ps lineStart actualEnd lineNum matchSet)
      as [ps' matchSet'].
    cbn [fst snd] in *.
    assert (lineStart <= actualEnd) as Hle
      by (apply actualEndOf_ge; exact Hlt).
    assert (forall p, In p ps -> actualEnd <= p ->
              actualEnd + 1 <= p
              /\ between buffer lineStart p
                 = 1 + between buffer (actualEnd + 1) p) as Hafter.
    { intros p Hp Hge. rewrite Forall_forall in Hps.
      destruct (Hps p Hp) as [Hr Hnl].
      destruct Hcases as [(Hend & _ & Hnlend)|[Hend _]]; [|lia].
      assert (p <> actualEnd) by congruence.
      split; [lia|].
      rewrite (between_split buffer lineStart actualEnd p) by lia.
      rewrite (between_split buffer actualEnd (actualEnd + 1) p) by lia.
      rewrite Nat.add_1_r at 1.
      rewrite (between_one buffer actualEnd Hnlend). lia. }
    rewrite IH; [| lia | exact Hs' |].
    2:{ apply Forall_forall. intros p Hp. apply Hps' in Hp.
        destruct Hp as [Hp Hge]. rewrite Forall_forall in Hps.
        destruct (Hps p Hp) as [Hr Hnl].
        destruct (Hafter p Hp Hge) as [Hnext _].
        splits; [lia | lia | exact Hnl]. }
    rewrite Hset. split.
    + intros [[H|(-> & p & Hp & Hlt')]|(p & Hp & ->)].
      * now left.
      * right. exists p. split; [exact Hp|].
        rewrite Forall_forall in Hps. destruct (Hps p Hp) as [Hr _].
        rewrite (between_split buffer lineStart p actualEnd) in Hzero by lia.
        lia.
      * apply Hps' in Hp. destruct Hp as [Hp Hge].
        right. exists p. split; [exact Hp|].
        destruct (Hafter p Hp Hge) as [_ ->]. lia.
    + intros [H|(p & Hp & ->)]; [now left; left|].
      destruct (Nat.lt_ge_cases p actualEnd) as [Hlt'|Hge'].
      * left. right. split; [|exists p; auto].
        rewrite Forall_forall in Hps. destruct (Hps p Hp) as [Hr _].
        rewrite (between_split buffer lineStart p actualEnd) in Hzero by lia.
        lia.
      * right. exists p. split; [apply Hps'; auto|].
        destruct (Hafter p Hp Hge') as [_ ->]. lia.
Qed.

Lemma collectLines_beyond (buffer : list Z) (options : FastGrepOptions)
    (matchSet : list nat) (lineStart lineNum mc n : nat) :
  length buffer <= lineStart ->
  collectLines buffer options matchSet lineStart lineNum mc n = [].
Proof.
  intro H. destruct n as [|n]; simpl; [reflexivity|].
  destruct (Nat.ltb_spec lineStart (length buffer)); [lia | reflexivity].
Qed.

Lemma slice_snoc (buffer : list Z) (a e : nat) (x : Z) :
  a <= e -> at_ buffer e = Some x ->
  slice buffer a (S e) = slice buffer a e ++ [x].
Proof.
  intros Hle Hx. unfold slice, at_ in *.
  replace (S e - a) with ((e - a) + 1) by lia.
  rewrite firstn_add, skipn_skipn.
  replace (e - a + a) with e by lia. f_equal.
  destruct (skipn e buffer) as [|y t] eqn:E.
  - apply skipn_nil_inv in E. congruence.
  - apply skipn_cons_inv in E. destruct E as [E _].
    assert (y = x) as -> by congruence. reflexivity.
Qed.

(** The lines that remain from a line start on. *)
Lemma lineCountOf_next (buffer : list Z) (lineStart : nat) :
  lineStart < length buffer ->
  lineCountOf (skipn lineStart buffer)
  = 1 + lineCountOf (skipn (actualEndOf buffer lineStart + 1) buffer).
Proof.
  intro Hlt. pose proof (between_actualEnd buffer lineStart) as Hzero.
  destruct (actualEndOf_cases buffer lineStart Hlt)
    as [(Hend & Hle & Hnl)|[Hend Hnone]].
  - set (e := actualEndOf buffer lineStart) in *.
    assert (skipn lineStart buffer
            = slice buffer lineStart (S e) ++ skipn (e + 1) buffer) as ->.
    { unfold slice.
      rewrite <- (firstn_skipn (S e - lineStart) (skipn lineStart buffer)) at 1.
      rewrite skipn_skipn. do 2 f_equal. lia. }
    rewrite (slice_snoc buffer lineStart e NEWLINE Hle Hnl).
    rewrite lineCountOf_complete by apply endsWith_app_one.
    rewrite nlCount_app. fold (between buffer lineStart e). rewrite Hzero.
    reflexivity.
  - rewrite Hend. rewrite (@skipn_all2 _ (length buffer + 1) buffer) by lia.
    rewrite lineCountOf_no_newline.
    + rewrite length_skipn.
      destruct (Nat.ltb_spec 0 (length buffer - lineStart)); [reflexivity|lia].
    + unfold indexOf in Hnone. now apply indexFrom_None in Hnone.
Qed.

(** Without a cap the second pass returns the unmarked lines of the
    buffer from the current line on. *)
Lemma collectLines_lines (buffer : list Z) (options : FastGrepOptions)
    (matchSet : list nat) (n : nat) :
  maxCount options = 0 ->
  forall lineStart lineNum mc,
    length buffer - lineStart <= n ->
    lineStart <= length buffer ->
    forall k,
      In k (map lineNumber
              (collectLines buffer options matchSet lineStart lineNum mc n))
      <-> lineNum <= k < lineNum + lineCountOf (skipn lineStart buffer)
          /\ ~ In k matchSet.
Proof.
  intro Hmax. induction n as [|n IH]; intros lineStart lineNum mc Hn Hle k.
  - assert (lineStart = length buffer) as -> by lia.
    rewrite skipn_all. simpl. unfold lineCountOf. simpl.
    split; [contradiction | lia].
  - cbn [collectLines].
    destruct (Nat.ltb_spec lineStart (length buffer)) as [Hlt|Hge].
    2:{ assert (lineStart = length buffer) as -> by lia.
        rewrite skipn_all. unfold lineCountOf. simpl.
        split; [contradiction | lia]. }
    rewrite (lineCountOf_next buffer lineStart Hlt).
    pose proof (actualEndOf_ge buffer lineStart Hlt) as Hend.
    rewrite reached_unbounded by assumption.
    assert (forall mc',
              In k (map lineNumber
                      (collectLines buffer options matchSet
                         (actualEndOf buffer lineStart + 1) (lineNum + 1)
                         mc' n))
              <-> lineNum + 1 <= k
                  < lineNum + 1
                    + lineCountOf
                        (skipn (actualEndOf buffer lineStart + 1) buffer)
                  /\ ~ In k matchSet) as Hrest.
    { intro mc'.
      destruct (Nat.le_gt_cases (actualEndOf buffer lineStart + 1)
                  (length buffer)) as [Hin|Hout].
      - apply IH; lia.
      - rewrite collectLines_beyond by lia.
        rewrite skipn_all2 by lia. unfold lineCountOf. simpl.
        split; [contradiction | lia]. }
    destruct (setHas matchSet lineNum) eqn:Ehas; cbn [negb].
    + rewrite Hrest. apply setHas_In in Ehas. split.
      * intros [Hr Hk]. split; [lia | exact Hk].
      * intros [Hr Hk]. split; [|exact Hk].
        destruct (Nat.eq_dec k lineNum) as [->|]; [contradiction | lia].
    + cbn [map lineNumber In]. rewrite Hrest.
      assert (~ In lineNum matchSet) as Hnot.
      { intro H. apply setHas_In in H. congruence. }
      split.
      * intros [<-|[Hr Hk]]; split; auto; lia.
      * intros [Hr Hk].
        destruct (Nat.eq_dec k lineNum) as [->|]; [now left | right].
        split; [lia | exact Hk].
Qed.

(** The raw occurrences of the pattern, as [grepBufferLiteral] finds
    them. *)
Definition rawPositions (buffer : Uint8Array) (options : FastGrepOptions)
  : list nat :=
  (if ignoreCase options
   then findPatternPositionsIgnoreCase
   else findPatternPositions) buffer (encode (pattern options)).

Lemma rawPositions_sorted (buffer : list Z) (options : FastGrepOptions) :
  StronglySorted lt (rawPositions buffer options).
Proof.
  unfold rawPositions. destruct (ignoreCase options);
    [apply findPatternPositionsIgnoreCase_sorted
    | apply findPatternPositions_sorted].
Qed.

(** The complement property of invert mode, for every buffer and
    pattern such that no occurrence starts on a newline byte: without
    filters and without cap, the inverted scan returns exactly the lines
    of the buffer that the forward scan does not return. *)
Theorem invert_complement_off_newlines (buffer : Uint8Array)
    (options : FastGrepOptions) :
  wholeWord options = false -> lineRegexp options = false ->
  maxCount options = 0 ->
  Forall (fun p => at_ buffer p <> Some NEWLINE) (rawPositions buffer options) ->
  forall k,
    In k (map lineNumber (grepBufferLiteral buffer (withInvert options true)))
    <-> 1 <= k <= lineCountOf buffer
        /\ ~ In k (map lineNumber
                     (grepBufferLiteral buffer (withInvert options false))).
Proof.
  intros Hword Hline Hmax Hoff k.
  pose proof (rawPositions_sorted buffer options) as Hsorted.
  pose proof (positions_bound buffer options) as Hbound.
  fold (rawPositions buffer options) in Hbound.
  assert (forall n,
            (exists p, In p (rawPositions buffer options)
                       /\ n = 1 + between buffer 0 p)
            <-> In n (map lineNumber
                        (grepBufferLiteral buffer (withInvert options false))))
    as Hforward.
  { intro n. unfold grepBufferLiteral. cbn [withInvert invertMatch pattern
      ignoreCase]. fold (rawPositions buffer options).
    destruct (groupByLine_spec buffer (withInvert options false)
                (length (encode (pattern options)))
                _ Hbound 0 1 []
                ltac:(lia) ltac:(simpl; lia) ltac:(constructor)
                ltac:(constructor) ltac:(constructor) ltac:(simpl; auto))
      as (_ & _ & Hkeyed & _).
    rewrite materialize_lineNumber by exact Hkeyed.
    rewrite (groupByLine_keys buffer (withInvert options false)
               (length (encode (pattern options)))
               (rawPositions buffer options) Hword Hline Hmax Hsorted 0 1 []).
    - simpl. tauto.
    - eapply Forall_impl; [|exact Hbound]. simpl. intros; lia. }
  rewrite <- Hforward. unfold grepBufferLiteral.
  cbn [withInvert invertMatch pattern ignoreCase].
  fold (rawPositions buffer options). unfold grepBufferInvert.
  rewrite (collectLines_lines buffer (withInvert options true) _
             (length buffer) Hmax 0 1 0) by lia.
  rewrite markLines_spec; [| lia | exact Hsorted |].
  - simpl skipn. simpl In. split.
    + intros [Hr Hk]. split; [lia|]. intros (p & Hp & ->). apply Hk.
      right. exists p. auto.
    + intros [Hr Hk]. split; [lia|]. intros [[]|(p & Hp & ->)]. apply Hk.
      exists p. auto.
  - apply Forall_forall. intros p Hp. rewrite Forall_forall in Hbound, Hoff.
    specialize (Hbound p Hp). specialize (Hoff p Hp). splits; [lia|lia|exact Hoff].
Qed.

Lemma collectLines_options (buffer : list Z) (o1 o2 : FastGrepOptions)
    (matchSet : list nat) (n : nat) :
  maxCount o1 = maxCount o2 ->
  forall lineStart lineNum mc,
    collectLines buffer o1 matchSet lineStart lineNum mc n
    = collectLines buffer o2 matchSet lineStart lineNum mc n.
Proof.
  intro Hmax. induction n as [|n IH]; intros lineStart lineNum mc; simpl;
    [reflexivity|].
  unfold reached. rewrite Hmax, !IH. reflexivity.
Qed.

(** Invert mode is decided by the raw occurrences alone: the result
    does not depend on [wholeWord], [lineRegexp] or [onlyMatching]. *)
Lemma invert_ignores_filters (buffer : Uint8Array) (o1 o2 : FastGrepOptions) :
  invertMatch o1 = true -> invertMatch o2 = true ->
  pattern o1 = pattern o2 -> ignoreCase o1 = ignoreCase o2 ->
  maxCount o1 = maxCount o2 ->
  grepBufferLiteral buffer o1 = grepBufferLiteral buffer o2.
Proof.
  intros H1 H2 Hp Hi Hm. unfold grepBufferLiteral, grepBufferInvert.
  rewrite H1, H2, Hp, Hi. now apply collectLines_options.
Qed.

(** ** The carry-over buffer *)

Lemma feed_app (options : FastGrepOptions) (pre post : list Uint8Array)
    (st : StreamState) :
  feed options (pre ++ post) st
  = match feed options pre st with
    | Next st' => feed options post st'
    | Return r => Return r
    end.
Proof.
  revert st. induction pre as [|v pre IH]; intro st; simpl; [reflexivity|].
  destruct (onChunk options st v); [apply IH | reflexivity].
Qed.

(** Between two reads the buffer holds the bytes received after the
    last newline, and nothing else: what came before has been consumed
    as newline-terminated regions. *)
Lemma feed_carry (options : FastGrepOptions) (chunks : list Uint8Array) :
  forall st,
    feed options chunks initial = Next st ->
    exists consumed,
      concat chunks = consumed ++ buffer st
      /\ ~ In NEWLINE (buffer st)
      /\ (consumed = [] \/ endsWith consumed NEWLINE = true).
Proof.
  induction chunks as [|v chunks IH] using rev_ind; intros st H.
  - simpl in H. injection H as <-. exists []. simpl. auto.
  - rewrite feed_app in H.
    destruct (feed options chunks initial) as [st0|] eqn:E0; [|discriminate].
    destruct (IH st0 eq_refl) as (consumed & Hcat & Hnl & Hends).
    simpl in H. destruct (onChunk options st0 v) as [st1|] eqn:E1;
      [|discriminate].
    injection H as <-. unfold onChunk in E1.
    rewrite concat_app, Hcat. simpl. rewrite app_nil_r, <- app_assoc.
    destruct (lastIndexOf (buffer st0 ++ v) NEWLINE) as [k|] eqn:Elast.
    + apply lastIndexOf_Some in Elast. destruct Elast as [Hk Hrest].
      pose proof (slice_endsWith _ _ Hk) as Hcomplete.
      destruct (slice_complete _ _ Hk) as [_ Hsplit].
      destruct (deliver _ _ _ _) as [[made mc] [|]]; [discriminate|].
      injection E1 as <-. simpl.
      exists (consumed ++ slice (buffer st0 ++ v) 0 (k + 1)). splits.
      * rewrite <- app_assoc. f_equal. exact Hsplit.
      * now rewrite skipn_S_add.
      * right. rewrite endsWith_app; [exact Hcomplete|].
        intro Hnil. rewrite Hnil in Hcomplete. discriminate.
    + apply lastIndexOf_None in Elast. injection E1 as <-. simpl.
      exists consumed. auto.
Qed.

(** ** The scenarios of the specification *)

Example scenario_foo :
  grepBufferLiteral (encode (lit "foo" ++ [NEWLINE] ++ lit "bar" ++ [NEWLINE]))
    (literalOptions (lit "foo") globalEmpty 0)
  = [mkResult 1 (lit "foo") None].
Proof. reflexivity. Qed.

Example scenario_ignoreCase :
  map lineNumber
    (grepBufferLiteral
       (encode (lit "Foo" ++ [NEWLINE] ++ lit "foo" ++ [NEWLINE]))
       (mkOptions (lit "foo") globalEmpty true true false false false 0 false))
  = [1; 2].
Proof. reflexivity. Qed.

Example scenario_wholeWord :
  grepBufferLiteral (encode (lit "food" ++ [NEWLINE]))
    (mkOptions (lit "foo") globalEmpty true false false true false 0 false)
  = [].
Proof. reflexivity. Qed.

Example scenario_invert :
  grepBufferLiteral
    (encode (lit "a" ++ [NEWLINE] ++ lit "b" ++ [NEWLINE] ++ lit "c"
             ++ [NEWLINE]))
    (withInvert (literalOptions (lit "b") globalEmpty 0) true)
  = [mkResult 1 (lit "a") None; mkResult 3 (lit "c") None].
Proof. reflexivity. Qed.

Example scenario_maxCount :
  let buffer := encode (lit "xx" ++ [NEWLINE] ++ lit "xx" ++ [NEWLINE]) in
  map lineNumber
    (grepBufferLiteral buffer (literalOptions (lit "x") globalEmpty 0))
  = [1; 2]
  /\ map lineNumber
       (grepBufferLiteral buffer (literalOptions (lit "x") globalEmpty 1))
     = [1].
Proof. split; reflexivity. Qed.

(** "a\nb\nc\n" searched for "b": line 2 forward, lines 1 and 3
    inverted. *)
Example invert_complement_lines :
  let buffer := [97; 10; 98; 10; 99; 10]%Z in
  let options := literalOptions (lit "b") globalEmpty 0 in
  map lineNumber (grepBufferLiteral buffer (withInvert options true)) = [1; 3]
  /\ lineCountOf buffer = 3
  /\ forall k,
       In k (map lineNumber (grepBufferLiteral buffer (withInvert options true)))
       <-> 1 <= k <= lineCountOf buffer
           /\ ~ In k (map lineNumber
                        (grepBufferLiteral buffer (withInvert options false))).
Proof.
  cbv zeta. splits; [reflexivity | reflexivity |].
  apply invert_complement_off_newlines; try reflexivity.
  repeat constructor; discriminate.
Qed.

(** ** Instances *)

(** "Foo foo" searched for "foo": the case-sensitive scan finds offset
    4, the case-insensitive scan offsets 0 and 4. *)
Lemma literal_scan_exact_witness :
  let chunk := [70; 111; 111; 32; 102; 111; 111]%Z in
  let pattern := [102; 111; 111]%Z in
  Forall isByte pattern
  /\ pattern <> []
  /\ (forall p, In p (findPatternPositions chunk pattern)
                <-> occursAt chunk pattern p)
  /\ (forall p, In p (findPatternPositionsIgnoreCase chunk pattern)
                <-> occursAt (map asciiFold chunk)
                      (map asciiFold pattern) p)
  /\ findPatternPositions chunk pattern = [4]
  /\ findPatternPositionsIgnoreCase chunk pattern = [0; 4]
  /\ map asciiFold chunk = [102; 111; 111; 32; 102; 111; 111]%Z.
Proof.
  cbv zeta.
  assert (Forall isByte [102; 111; 111]%Z) as Hbytes
    by (repeat constructor; unfold isByte; lia).
  assert ([102; 111; 111]%Z <> []) as Hne by discriminate.
  destruct (literal_scan_exact [70; 111; 111; 32; 102; 111; 111]%Z
              [102; 111; 111]%Z Hbytes) as [Hscan _].
  destruct (Hscan Hne) as (H1 & _ & H2 & _).
  splits; try assumption; reflexivity.
Defined.

(** "a\nbc\nd" delivered as "a\nb" and "c\nd". *)
Lemma stream_lineCount_partition_witness :
  let options := literalOptions (lit "b") globalEmpty 0 in
  let chunks := [[97; 10; 98]; [99; 10; 100]]%Z in
  let whole := [97; 10; 98; 99; 10; 100]%Z in
  maxCount options = 0
  /\ concat chunks = whole
  /\ res_lineCount (grepStream chunks options) = lineCountOf whole.
Proof.
  cbv zeta. splits; [reflexivity | reflexivity |].
  apply stream_lineCount_partition; reflexivity.
Defined.


(** A source that delivers two empty chunks. *)
Lemma stream_empty_source_witness :
  let options := literalOptions (lit "a") globalEmpty 0 in
  Forall (fun value : Uint8Array => value = []) [[]; []]
  /\ grepStream [[]; []] options = mkStreamResult 0 0 [] [].
Proof.
  cbv zeta.
  assert (Forall (fun value : Uint8Array => value = []) [[]; []]) as H
    by (repeat constructor).
  split; [exact H|].
  exact (proj1 (stream_empty_source
                  (literalOptions (lit "a") globalEmpty 0) [[]; []]) H).
Defined.

(** "aa\naa\n" with [maxCount = 1]. *)
Lemma maxCount_cap_witness :
  let options :=
    mkOptions (lit "a") (globalChar 97) false false false false false 1 true in
  let buffer := [97; 97; 10; 97; 97; 10]%Z in
  0 < maxCount options
  /\ length (grepBufferLiteral buffer options) <= 1
  /\ length (nodup Nat.eq_dec
               (map lineNumber (grepBufferRegex buffer options))) <= 1
  /\ length (res_calls (grepStream [buffer] options)) <= 1.
Proof.
  cbv zeta.
  assert (0 < maxCount
                (mkOptions (lit "a") (globalChar 97) false false false false
                   false 1 true)) as Hpos by (simpl; lia).
  destruct (maxCount_cap _ [97; 97; 10; 97; 97; 10]%Z
              [[97; 97; 10; 97; 97; 10]%Z] Hpos) as (H1 & H2 & _ & H3).
  splits; assumption.
Defined.


(** * The rest of the module *)

(** ** Binary classifier *)

(** [for (let i = 0; i < checkLength; i++)] of [isBinaryChunk], from
    [i] with [n] iterations left. *)
Fixpoint zeroFrom (chunk : Uint8Array) (i n : nat) : bool :=
  match n with
  | 0 => false
  | S n' =>
    if same (at_ chunk i) (Some 0%Z) then true else zeroFrom chunk (S i) n'
  end.

Definition isBinaryChunk (chunk : Uint8Array) : bool :=
  let checkLength := Nat.min (length chunk) 8192 in
  zeroFrom chunk 0 checkLength.

Lemma zeroFrom_true (chunk : list Z) (n i : nat) :
  zeroFrom chunk i n = true
  <-> exists k, i <= k < i + n /\ at_ chunk k = Some 0%Z.
Proof.
  revert i. induction n as [|n IH]; intro i; simpl.
  - split; [discriminate | intros (k & Hk & _); lia].
  - destruct (same (at_ chunk i) (Some 0%Z)) eqn:E.
    + apply same_eq in E. split; [|reflexivity].
      intros _. exists i. split; [lia | exact E].
    + rewrite IH. split.
      * intros (k & Hk & Hz). exists k. split; [lia | exact Hz].
      * intros (k & Hk & Hz). exists k. split; [|exact Hz].
        destruct (Nat.eq_dec k i) as [->|]; [|lia].
        apply same_eq in Hz. congruence.
Qed.

Lemma In_firstn_at (l : list Z) (n : nat) (x : Z) :
  In x (firstn n l) <-> exists k, k < n /\ at_ l k = Some x.
Proof.
  unfold at_. split.
  - intro H. apply In_nth_error in H. destruct H as [k Hk].
    rewrite nth_error_firstn in Hk.
    destruct (Nat.ltb_spec k n); [|discriminate]. eauto.
  - intros (k & Hk & Hx). apply (nth_error_In _ k).
    rewrite nth_error_firstn.
    destruct (Nat.ltb_spec k n); [exact Hx | lia].
Qed.

(** A chunk is classified as binary exactly when one of its first 8192
    bytes is zero; zero bytes further on are not looked at. *)
Theorem isBinaryChunk_first_8192 (chunk : Uint8Array) :
  isBinaryChunk chunk = true <-> In 0%Z (firstn 8192 chunk).
Proof.
  unfold isBinaryChunk. rewrite zeroFrom_true, In_firstn_at. split.
  - intros (k & Hk & Hz). exists k. split; [lia | exact Hz].
  - intros (k & Hk & Hz). exists k. split; [|exact Hz].
    assert (k < length chunk) by (apply nth_error_Some; unfold at_ in Hz; congruence).
    lia.
Qed.

(** ** Literal scanner: case folding *)

Lemma toLowerAscii_idempotent (b : Z) :
  toLowerAscii (toLowerAscii b) = toLowerAscii b.
Proof.
  unfold toLowerAscii.
  destruct (Z.leb_spec 65 b), (Z.leb_spec b 90); cbn [andb];
    repeat match goal with
           | |- context [Z.leb ?x ?y] => destruct (Z.leb_spec x y)
           end; cbn [andb]; try reflexivity; lia.
Qed.

Lemma occursAt_map (f : Z -> Z) (chunk pattern : list Z) (p : nat) :
  occursAt chunk pattern p -> occursAt (map f chunk) (map f pattern) p.
Proof.
  unfold occursAt. intro H.
  rewrite length_map, skipn_map, firstn_map, H. reflexivity.
Qed.

Lemma findPatternPositions_degenerate (chunk pattern : list Z) :
  pattern = [] \/ length chunk < length pattern ->
  findPatternPositions chunk pattern = []
  /\ findPatternPositionsIgnoreCase chunk pattern = [].
Proof.
  intro H. unfold findPatternPositions, findPatternPositionsIgnoreCase.
  assert (Nat.eqb (length pattern) 0
          || Nat.ltb (length chunk) (length pattern) = true) as ->.
  { apply orb_true_iff. destruct H as [->|H]; [now left|].
    right. now apply Nat.ltb_lt. }
  split; reflexivity.
Qed.

(** Every case-sensitive occurrence is a case-insensitive one, and the
    case-insensitive scan does not see the case of the buffer or of the
    pattern. *)
Theorem ignoreCase_scan_folds (chunk pattern : Uint8Array) :
  Forall isByte pattern ->
  incl (findPatternPositions chunk pattern)
       (findPatternPositionsIgnoreCase chunk pattern)
  /\ findPatternPositionsIgnoreCase chunk pattern
     = findPatternPositionsIgnoreCase (map toLowerAscii chunk)
         (map toLowerAscii pattern).
Proof.
  intro Hbytes. split.
  - intros p Hp. destruct pattern as [|b pattern].
    + now rewrite (proj1 (findPatternPositions_degenerate chunk []
                            (or_introl eq_refl))) in Hp.
    + apply findPatternPositions_In in Hp; [|discriminate].
      rewrite findPatternPositionsIgnoreCase_fold,
        lowerPattern_bytes by assumption.
      apply findPatternPositions_In; [discriminate|].
      now apply occursAt_map.
  - rewrite !findPatternPositionsIgnoreCase_fold.
    rewrite !lowerPattern_bytes.
    + rewrite !map_map.
      rewrite (map_ext _ toLowerAscii toLowerAscii_idempotent chunk).
      rewrite (map_ext _ toLowerAscii toLowerAscii_idempotent pattern).
      reflexivity.
    + apply Forall_map. eapply Forall_impl; [|exact Hbytes].
      apply toLowerAscii_byte.
    + exact Hbytes.
Qed.

(** ** Boundary utilities *)

Lemma between_none (buffer : list Z) (e : nat) :
  at_ buffer e <> Some NEWLINE -> between buffer e (S e) = 0.
Proof.
  unfold between, slice, at_. intro H.
  replace (S e - e) with 1 by lia.
  destruct (skipn e buffer) as [|x t] eqn:E; [reflexivity|].
  apply skipn_cons_inv in E. destruct E as [E _].
  simpl. rewrite nlCount_one. unfold isNewline.
  destruct (Z.eqb_spec x NEWLINE) as [->|]; [congruence | reflexivity].
Qed.

Lemma same_false (a b : option Z) : same a b = false <-> a <> b.
Proof.
  destruct (same a b) eqn:E.
  - apply same_eq in E. split; [discriminate | congruence].
  - split; [|reflexivity]. intros _ H. apply same_eq in H. congruence.
Qed.

Lemma lineStartAt_spec (chunk : list Z) (pos : nat) :
  (lineStartAt chunk pos = 0
   \/ at_ chunk (lineStartAt chunk pos - 1) = Some NEWLINE)
  /\ between chunk (lineStartAt chunk pos) pos = 0.
Proof.
  induction pos as [|pos [IH1 IH2]]; simpl.
  - split; [now left | apply between_same].
  - destruct (same (at_ chunk pos) (Some NEWLINE)) eqn:E; simpl.
    + apply same_eq in E. split; [|apply between_same].
      right. now rewrite Nat.sub_0_r.
    + apply same_false in E. split; [exact IH1|].
      pose proof (lineStartAt_le chunk pos).
      rewrite (between_split chunk _ pos (S pos)) by lia.
      rewrite IH2, (between_none chunk pos E). reflexivity.
Qed.

Lemma lineEndAt_spec (chunk : list Z) (n end_ : nat) :
  length chunk - end_ <= n ->
  end_ <= length chunk ->
  let e := lineEndAt chunk end_ n in
  end_ <= e <= length chunk
  /\ (e = length chunk \/ at_ chunk e = Some NEWLINE)
  /\ between chunk end_ e = 0.
Proof.
  revert end_. induction n as [|n IH]; intros end_ Hn Hle; cbv zeta; simpl.
  - splits; try lia. apply between_same.
  - destruct (Nat.ltb_spec end_ (length chunk)) as [Hlt|Hge]; simpl.
    + destruct (same (at_ chunk end_) (Some NEWLINE)) eqn:E; simpl.
      * apply same_eq in E. splits; try lia; [now right | apply between_same].
      * apply same_false in E.
        destruct (IH (S end_) ltac:(lia) ltac:(lia)) as (H1 & H2 & H3).
        splits; try lia; [exact H2|].
        rewrite (between_split chunk end_ (S end_)) by lia.
        rewrite (between_none chunk end_ E), H3. reflexivity.
    + splits; try lia. apply between_same.
Qed.

(** The line extracted at a position is the widest newline-free window
    around it: it starts at the buffer start or just after a newline,
    ends at the buffer end or on a newline, holds no newline, and its
    content is the decoded window. *)
Theorem extractLineAt_window (chunk : Uint8Array) (pos : nat) :
  pos <= length chunk ->
  let line := extractLineAt chunk pos in
  line_start line <= pos <= line_end line
  /\ line_end line <= length chunk
  /\ (line_start line = 0
      \/ at_ chunk (line_start line - 1) = Some NEWLINE)
  /\ (line_end line = length chunk
      \/ at_ chunk (line_end line) = Some NEWLINE)
  /\ ~ In NEWLINE (slice chunk (line_start line) (line_end line))
  /\ line_content line
     = decode (slice chunk (line_start line) (line_end line)).
Proof.
  intro Hpos. cbv zeta. unfold extractLineAt. cbn [line_start line_end line_content].
  pose proof (lineStartAt_le chunk pos) as Hs.
  destruct (lineStartAt_spec chunk pos) as [Hs1 Hs2].
  destruct (lineEndAt_spec chunk (length chunk - pos) pos (le_n _) Hpos)
    as (He1 & He2 & He3).
  splits; try lia; auto.
  apply nlCount_zero. fold (between chunk (lineStartAt chunk pos)
                              (lineEndAt chunk pos (length chunk - pos))).
  rewrite (between_split chunk _ pos) by lia. lia.
Qed.

Lemma countNewlines_between (chunk : list Z) (a b : nat) :
  countNewlines chunk a b = between chunk a b.
Proof. unfold countNewlines, between, slice. apply countFrom_count. Qed.

(** [countNewlines] adds up over adjacent ranges, never exceeds the
    width of its range, and counts nothing beyond the end of the
    array. *)
Theorem countNewlines_ranges (chunk : Uint8Array) (a b c : nat) :
  a <= b -> b <= c ->
  countNewlines chunk a c = countNewlines chunk a b + countNewlines chunk b c
  /\ countNewlines chunk a b <= b - a
  /\ (length chunk <= b -> countNewlines chunk a b
                           = countNewlines chunk a (length chunk)).
Proof.
  intros Hab Hbc. rewrite !countNewlines_between. splits.
  - now apply between_split.
  - unfold between, nlCount, slice.
    etransitivity; [apply count_occ_bound|].
    rewrite length_firstn. lia.
  - intro Hlen. unfold between, slice.
    destruct (Nat.le_gt_cases a (length chunk)) as [Ha|Ha].
    + rewrite !firstn_all2; [reflexivity | |]; rewrite length_skipn; lia.
    + rewrite !skipn_all2 by lia. now rewrite !firstn_nil.
Qed.

(** ** Literal path: which lines, how often *)

Lemma maxLine_lineCountOf (buffer : list Z) :
  buffer <> [] -> maxLine buffer = lineCountOf buffer.
Proof.
  intro Hne. destruct (exists_last Hne) as (l & x & ->).
  unfold maxLine, lineCountOf.
  rewrite length_app, Nat.add_1_r. simpl pred.
  rewrite firstn_app, firstn_all, Nat.sub_diag. simpl firstn.
  rewrite app_nil_r, nlCount_app, nlCount_one.
  unfold endsWith. rewrite rev_app_distr. simpl. unfold isNewline.
  destruct (Z.eqb x NEWLINE); simpl; lia.
Qed.

Lemma groupByLine_lower (buffer : list Z) (options : FastGrepOptions)
    (patternLen : nat) (positions : list nat) :
  forall cls cln lm,
    1 <= cln ->
    Forall (fun k => 1 <= k) (keys lm) ->
    Forall (fun k => 1 <= k)
      (keys (groupByLine buffer options patternLen positions cls cln lm)).
Proof.
  induction positions as [|pos positions IH]; intros cls cln lm Hcln Hlm;
    cbn [groupByLine]; [exact Hlm|].
  pose proof (fastForward_spec buffer pos (pos - cls) cls cln) as Hff.
  destruct (fastForward buffer pos cls cln (pos - cls)) as [cls' cln'].
  simpl in Hff. destruct Hff as (Hmono & _).
  destruct (wholeWord options && negb _); [apply IH; [lia | exact Hlm]|].
  destruct (lineRegexp options && negb _); [apply IH; [lia | exact Hlm]|].
  set (lm1 := if negb (mapHas lm cln') then _ else lm).
  assert (Forall (fun k => 1 <= k) (keys lm1)) as H1.
  { subst lm1. destruct (mapHas lm cln') eqn:E; cbn [negb]; [exact Hlm|].
    unfold mapSet. rewrite E. unfold keys. rewrite map_app.
    apply Forall_app. split; [exact Hlm | repeat constructor; simpl; lia]. }
  assert (Forall (fun k => 1 <= k)
            (keys (pushPosition lm1 cln'
                     (pos - line_start (extractLineAt buffer pos))))) as H2
    by now rewrite pushPosition_keys.
  destruct (reached options _); [exact H2 | apply IH; [lia | exact H2]].
Qed.

Lemma grepBufferLiteral_range (buffer : list Z) (options : FastGrepOptions) :
  let ls := map lineNumber (grepBufferLiteral buffer options) in
  StronglySorted lt ls
  /\ NoDup ls
  /\ Forall (fun k => 1 <= k <= lineCountOf buffer) ls.
Proof.
  cbv zeta.
  destruct (grepBufferLiteral_lines buffer options) as (Hs & Hmax & _).
  assert (Forall (fun k => 1 <= k)
            (map lineNumber (grepBufferLiteral buffer options))) as Hlow.
  { unfold grepBufferLiteral. destruct (invertMatch options).
    - unfold grepBufferInvert.
      destruct (collectLines_spec buffer options
                  (markLines buffer
                     ((if ignoreCase options
                       then findPatternPositionsIgnoreCase
                       else findPatternPositions) buffer
                        (encode (pattern options)))
                     0 1 [] (length buffer))
                  (length buffer) 0 1 0 ltac:(simpl; lia) ltac:(auto))
        as (_ & H & _).
      eapply Forall_impl; [|exact H]. simpl. intros; lia.
    - destruct (groupByLine_spec buffer options
                  (length (encode (pattern options)))
                  _ (positions_bound buffer options) 0 1 []
                  ltac:(lia) ltac:(simpl; lia) ltac:(constructor)
                  ltac:(constructor) ltac:(constructor) ltac:(simpl; auto))
        as (_ & _ & Hkeyed & _).
      rewrite materialize_lineNumber by assumption.
      apply groupByLine_lower; [lia | constructor]. }
  splits; [exact Hs | |].
  - clear Hmax Hlow. induction Hs as [|a l _ IH Ha]; constructor; [|exact IH].
    intro Hin. rewrite Forall_forall in Ha. specialize (Ha a Hin). lia.
  - destruct buffer as [|b buffer].
    + rewrite grepBufferLiteral_empty. constructor.
    + rewrite <- maxLine_lineCountOf by discriminate.
      apply Forall_forall. intros k Hk. rewrite Forall_forall in Hmax, Hlow.
      split; auto.
Qed.

(** The lines of the literal path, in both modes: each line is returned
    at most once, in strictly ascending order, and its number is one of
    the buffer's line numbers. *)
Theorem literal_lines_once_in_range (buffer : Uint8Array)
    (options : FastGrepOptions) :
  let ls := map lineNumber (grepBufferLiteral buffer options) in
  StronglySorted lt ls
  /\ NoDup ls
  /\ Forall (fun k => 1 <= k <= lineCountOf buffer) ls.
Proof. apply grepBufferLiteral_range. Qed.

(** ** Literal path: the cap only truncates *)

Definition withMaxCount (options : FastGrepOptions) (k : nat)
  : FastGrepOptions :=
  mkOptions (pattern options) (regex options) (isLiteral options)
    (ignoreCase options) (invertMatch options) (wholeWord options)
    (lineRegexp options) k (onlyMatching options).

(** An accumulator without its offsets: what the results are made of. *)
Definition strip (m : LineMap) : list (nat * nat * jsstring) :=
  map (fun e => (fst e, lm_lineNumber (snd e), lm_content (snd e))) m.

Definition materialized (options : FastGrepOptions)
    (e : nat * nat * jsstring) : GrepLineResult :=
  if onlyMatching options
  then mkResult (snd (fst e)) (pattern options) None
  else mkResult (snd (fst e)) (snd e) None.

Lemma materialize_strip (options : FastGrepOptions) (m : LineMap) :
  map (materialize options) m = map (materialized options) (strip m).
Proof. unfold strip. rewrite map_map. reflexivity. Qed.

Lemma strip_pushPosition (m : LineMap) (k p : nat) :
  strip (pushPosition m k p) = strip m.
Proof.
  induction m as [|[k' v] m IH]; simpl; [reflexivity|].
  destruct (Nat.eqb k' k); simpl; [reflexivity | now rewrite IH].
Qed.

Lemma strip_keys (m : LineMap) : keys m = map (fun e => fst (fst e)) (strip m).
Proof. unfold keys, strip. rewrite map_map. reflexivity. Qed.

Lemma strip_mapHas (m m' : LineMap) (k : nat) :
  strip m = strip m' -> mapHas m k = mapHas m' k.
Proof.
  intro H.
  assert (keys m = keys m') as Hk by (rewrite !strip_keys; now rewrite H).
  destruct (mapHas m k) eqn:E, (mapHas m' k) eqn:E'; try reflexivity.
  - apply mapHas_keys in E. rewrite Hk in E. apply mapHas_keys in E.
    congruence.
  - apply mapHas_keys in E'. rewrite <- Hk in E'. apply mapHas_keys in E'.
    congruence.
Qed.

Lemma strip_length (m : LineMap) : length (strip m) = length m.
Proof. apply length_map. Qed.

(** The entry of a line, created if the line has none: the accumulator
    after one recorded match. *)
Lemma strip_record (m : LineMap) (k off : nat) (c : jsstring) :
  strip (pushPosition
           (if negb (mapHas m k) then mapSet m k (mkLineMatch k c []) else m)
           k off)
  = strip m ++ (if mapHas m k then [] else [(k, k, c)]).
Proof.
  rewrite strip_pushPosition. destruct (mapHas m k) eqn:E; cbn [negb].
  - now rewrite app_nil_r.
  - unfold mapSet. rewrite E. unfold strip. now rewrite map_app.
Qed.

Lemma groupByLine_extends (buffer : list Z) (options : FastGrepOptions)
    (patternLen : nat) (positions : list nat) :
  forall cls cln lm,
  exists more,
    strip (groupByLine buffer options patternLen positions cls cln lm)
    = strip lm ++ more.
Proof.
  induction positions as [|pos positions IH]; intros cls cln lm;
    cbn [groupByLine].
  - exists []. now rewrite app_nil_r.
  - destruct (fastForward buffer pos cls cln (pos - cls)) as [cls' cln'].
    destruct (wholeWord options && negb _); [apply IH|].
    destruct (lineRegexp options && negb _); [apply IH|].
    destruct (reached options _).
    + rewrite strip_record. eauto.
    + destruct (IH cls' cln'
                  (pushPosition
                     (if negb (mapHas lm cln')
                      then mapSet lm cln'
                             (mkLineMatch cln'
                                (line_content (extractLineAt buffer pos)) [])
                      else lm)
                     cln' (pos - line_start (extractLineAt buffer pos))))
        as [more ->].
      rewrite strip_record, <- app_assoc. eauto.
Qed.

Lemma groupByLine_capped (buffer : list Z) (o1 o0 : FastGrepOptions)
    (patternLen : nat) (positions : list nat) :
  wholeWord o1 = wholeWord o0 -> lineRegexp o1 = lineRegexp o0 ->
  pattern o1 = pattern o0 -> maxCount o0 = 0 -> 0 < maxCount o1 ->
  forall cls cln lm1 lm0,
    strip lm1 = strip lm0 ->
    length lm0 < maxCount o1 ->
    strip (groupByLine buffer o1 patternLen positions cls cln lm1)
    = firstn (maxCount o1)
        (strip (groupByLine buffer o0 patternLen positions cls cln lm0)).
Proof.
  intros Hw Hl Hp H0 Hk.
  induction positions as [|pos positions IH];
    intros cls cln lm1 lm0 Hstrip Hlen; cbn [groupByLine].
  - rewrite Hstrip. symmetry. apply firstn_all2. rewrite strip_length. lia.
  - destruct (fastForward buffer pos cls cln (pos - cls)) as [cls' cln'].
    rewrite Hw, Hl, Hp.
    destruct (wholeWord o0 && negb _); [now apply IH|].
    destruct (lineRegexp o0 && negb _); [now apply IH|].
    rewrite (reached_unbounded o0) by assumption.
    set (c := line_content (extractLineAt buffer pos)).
    set (off := pos - line_start (extractLineAt buffer pos)).
    set (next1 := pushPosition
                    (if negb (mapHas lm1 cln')
                     then mapSet lm1 cln' (mkLineMatch cln' c []) else lm1)
                    cln' off).
    set (next0 := pushPosition
                    (if negb (mapHas lm0 cln')
                     then mapSet lm0 cln' (mkLineMatch cln' c []) else lm0)
                    cln' off).
    assert (strip next1 = strip next0) as Hnext.
    { subst next1 next0. rewrite !strip_record.
      now rewrite Hstrip, (strip_mapHas lm1 lm0 cln' Hstrip). }
    assert (length next0 <= S (length lm0)) as Hgrow.
    { rewrite <- !strip_length. subst next0. rewrite strip_record, length_app.
      destruct (mapHas lm0 cln'); simpl; lia. }
    assert (length next1 = length next0) as Hsame
      by (rewrite <- !strip_length; now rewrite Hnext).
    destruct (reached o1 (length next1)) eqn:Ereached.
    + apply reached_iff in Ereached.
      destruct (groupByLine_extends buffer o0 patternLen positions
                  cls' cln' next0) as [more ->].
      rewrite firstn_app, strip_length.
      replace (maxCount o1 - length next0) with 0 by lia.
      rewrite firstn_all2 by (rewrite strip_length; lia).
      simpl. now rewrite app_nil_r.
    + apply IH; [exact Hnext|].
      destruct (Nat.lt_ge_cases (length next0) (maxCount o1)); [assumption|].
      assert (reached o1 (length next1) = true) by (apply reached_iff; lia).
      congruence.
Qed.

Lemma collectLines_capped (buffer : list Z) (o1 o0 : FastGrepOptions)
    (matchSet : list nat) (n : nat) :
  maxCount o0 = 0 -> 0 < maxCount o1 ->
  forall lineStart lineNum mc1 mc0,
    mc1 < maxCount o1 ->
    collectLines buffer o1 matchSet lineStart lineNum mc1 n
    = firstn (maxCount o1 - mc1)
        (collectLines buffer o0 matchSet lineStart lineNum mc0 n).
Proof.
  intros H0 Hk. induction n as [|n IH]; intros lineStart lineNum mc1 mc0 Hmc;
    cbn [collectLines].
  - now rewrite firstn_nil.
  - destruct (Nat.ltb lineStart (length buffer)); [|now rewrite firstn_nil].
    destruct (negb (setHas matchSet lineNum)); [|now apply IH].
    rewrite (reached_unbounded o0) by assumption.
    destruct (reached o1 (mc1 + 1)) eqn:Ereached.
    + apply reached_iff in Ereached.
      replace (maxCount o1 - mc1) with 1 by lia. reflexivity.
    + assert (mc1 + 1 < maxCount o1).
      { destruct (Nat.lt_ge_cases (mc1 + 1) (maxCount o1)); [assumption|].
        assert (reached o1 (mc1 + 1) = true) by (apply reached_iff; lia).
        congruence. }
      replace (maxCount o1 - mc1) with (S (maxCount o1 - (mc1 + 1))) by lia.
      cbn [firstn]. f_equal. now apply IH.
Qed.

Lemma grepBufferLiteral_capped (buffer : list Z) (options : FastGrepOptions)
    (k : nat) :
  0 < k ->
  grepBufferLiteral buffer (withMaxCount options k)
  = firstn k (grepBufferLiteral buffer (withMaxCount options 0)).
Proof.
  intro Hk. unfold grepBufferLiteral.
  cbn [withMaxCount pattern ignoreCase invertMatch].
  destruct (invertMatch options).
  - unfold grepBufferInvert.
    rewrite (collectLines_capped buffer (withMaxCount options k)
               (withMaxCount options 0) _ (length buffer)
               eq_refl Hk 0 1 0 0 Hk).
    cbn [withMaxCount maxCount]. now rewrite Nat.sub_0_r.
  - rewrite !materialize_strip.
    rewrite (groupByLine_capped buffer (withMaxCount options k)
               (withMaxCount options 0) _ _
               eq_refl eq_refl eq_refl eq_refl Hk 0 1 [] [] eq_refl Hk).
    cbn [withMaxCount maxCount]. rewrite firstn_map. reflexivity.
Qed.

(** A positive [maxCount] only truncates: the literal path returns the
    first [k] of the results it returns without a cap. *)
Theorem literal_maxCount_prefix (buffer : Uint8Array)
    (options : FastGrepOptions) (k : nat) :
  0 < k ->
  grepBufferLiteral buffer (withMaxCount options k)
  = firstn k (grepBufferLiteral buffer (withMaxCount options 0)).
Proof. apply grepBufferLiteral_capped. Qed.

(** ** Literal path: the filters *)

(** The two filters of the forward loop: a position is recorded when
    neither [continue] is taken. *)
Definition kept (buffer : Uint8Array) (options : FastGrepOptions)
    (patternLen pos : nat) : bool :=
  negb (wholeWord options && negb (isWordBoundary buffer pos patternLen))
  && negb (lineRegexp options
           && negb (jsstring_eqb (line_content (extractLineAt buffer pos))
                      (pattern options))).

Definition withoutFilters (options : FastGrepOptions) : FastGrepOptions :=
  mkOptions (pattern options) (regex options) (isLiteral options)
    (ignoreCase options) (invertMatch options) false false
    (maxCount options) (onlyMatching options).

(** Forward mode without cap: the accumulator's lines are the lines of
    the positions that pass the filters. *)
Lemma groupByLine_kept_keys (buffer : list Z) (options : FastGrepOptions)
    (patternLen : nat) (positions : list nat) :
  maxCount options = 0 ->
  StronglySorted lt positions ->
  forall cls cln lm,
    Forall (fun p => cls <= p) positions ->
    forall n,
      In n (keys (groupByLine buffer options patternLen positions cls cln lm))
      <-> In n (keys lm)
          \/ exists p, In p positions
                       /\ kept buffer options patternLen p = true
                       /\ n = cln + between buffer cls p.
Proof.
  intros Hmax.
  induction 1 as [|pos rest Hrest IH Hpos]; intros cls cln lm Hfrom n;
    cbn [groupByLine].
  - split; [auto | intros [H|(p & [] & _)]; exact H].
  - inversion Hfrom as [|? ? Hle Hfrom']; subst.
    destruct (fastForward_exact buffer pos (pos - cls) cls cln Hle (le_n _))
      as (Hr & Hcln & Hzero).
    destruct (fastForward buffer pos cls cln (pos - cls)) as [cls' cln'].
    cbn [fst snd] in *.
    assert (Forall (fun p => cls' <= p) rest) as Hfrom''.
    { eapply Forall_impl; [|exact Hpos]. simpl. intros; lia. }
    assert (forall p, cls' <= p ->
              cln + between buffer cls p = cln' + between buffer cls' p)
      as Hshift.
    { intros p Hp. rewrite (between_split buffer cls cls' p) by lia. lia. }
    assert (forall lm',
              (In n (keys lm')
               \/ exists p, In p rest
                            /\ kept buffer options patternLen p = true
                            /\ n = cln' + between buffer cls' p)
              <-> (In n (keys lm')
                   \/ exists p, In p rest
                                /\ kept buffer options patternLen p = true
                                /\ n = cln + between buffer cls p)) as Hrebase.
    { intro lm'. split; intros [H|(p & Hp & Hk & ->)]; auto; right;
        exists p; (splits; [exact Hp | exact Hk |]);
        rewrite Forall_forall in Hpos; specialize (Hpos p Hp);
        rewrite Hshift by lia; reflexivity. }
    unfold kept at 1.
    destruct (wholeWord options && negb (isWordBoundary buffer pos patternLen))
      eqn:Ew.
    { rewrite (IH cls' cln' lm Hfrom''), Hrebase. split.
      - intros [H|(p & Hp & Hk)]; [now left | right].
        exists p. split; [now right | exact Hk].
      - intros [H|(p & [<-|Hp] & Hk & Hn)]; [now left | | right; eauto].
        unfold kept in Hk. rewrite Ew in Hk. discriminate. }
    destruct (lineRegexp options && negb _) eqn:El.
    { rewrite (IH cls' cln' lm Hfrom''), Hrebase. split.
      - intros [H|(p & Hp & Hk)]; [now left | right].
        exists p. split; [now right | exact Hk].
      - intros [H|(p & [<-|Hp] & Hk & Hn)]; [now left | | right; eauto].
        unfold kept in Hk. rewrite Ew, El in Hk. discriminate. }
    rewrite reached_unbounded by assumption.
    rewrite IH by exact Hfrom''. rewrite Hrebase, pushPosition_keys.
    assert (In n (keys (if negb (mapHas lm cln')
                        then mapSet lm cln'
                               (mkLineMatch cln'
                                  (line_content (extractLineAt buffer pos)) [])
                        else lm))
            <-> In n (keys lm) \/ n = cln') as ->.
    { destruct (mapHas lm cln') eqn:Ehas; cbn [negb].
      - apply mapHas_keys in Ehas. split; [auto|].
        intros [H| ->]; assumption.
      - now apply mapSet_keys. }
    assert (kept buffer options patternLen pos = true) as Hkept
      by (unfold kept; now rewrite Ew, El).
    split.
    + intros [[H| ->]|(p & Hp & Hk & ->)].
      * now left.
      * right. exists pos. splits; [now left | exact Hkept |].
        rewrite Hshift by lia. lia.
      * right. exists p. splits; [now right | exact Hk | reflexivity].
    + intros [H|(p & [<-|Hp] & Hk & ->)].
      * left. now left.
      * left. right. rewrite Hshift by lia. lia.
      * right. exists p. auto.
Qed.

Lemma forward_lines (buffer : list Z) (options : FastGrepOptions) (n : nat) :
  invertMatch options = false -> maxCount options = 0 ->
  (In n (map lineNumber (grepBufferLiteral buffer options))
   <-> exists p, In p (rawPositions buffer options)
                 /\ kept buffer options (length (encode (pattern options))) p
                    = true
                 /\ n = 1 + between buffer 0 p).
Proof.
  intros Hfwd Hmax. unfold grepBufferLiteral. rewrite Hfwd.
  fold (rawPositions buffer options).
  pose proof (positions_bound buffer options) as Hbound.
  fold (rawPositions buffer options) in Hbound.
  destruct (groupByLine_spec buffer options
              (length (encode (pattern options)))
              _ Hbound 0 1 []
              ltac:(lia) ltac:(simpl; lia) ltac:(constructor)
              ltac:(constructor) ltac:(constructor)
              ltac:(rewrite Hmax; lia))
    as (_ & _ & Hkeyed & _).
  rewrite materialize_lineNumber by exact Hkeyed.
  rewrite (groupByLine_kept_keys buffer options _ _ Hmax
             (rawPositions_sorted buffer options) 0 1 []).
  - simpl. tauto.
  - eapply Forall_impl; [|exact Hbound]. simpl. intros; lia.
Qed.

(** Forward mode without cap returns exactly the lines of the raw
    occurrences that pass the whole-word and whole-line filters; the
    line of an occurrence is one plus the newlines before it. *)
Theorem literal_forward_lines (buffer : Uint8Array)
    (options : FastGrepOptions) (n : nat) :
  invertMatch options = false -> maxCount options = 0 ->
  (In n (map lineNumber (grepBufferLiteral buffer options))
   <-> exists p, In p (rawPositions buffer options)
                 /\ kept buffer options (length (encode (pattern options))) p
                    = true
                 /\ n = 1 + countNewlines buffer 0 p).
Proof.
  intros Hfwd Hmax. rewrite forward_lines by assumption.
  split; intros (p & Hp & Hk & ->); exists p;
    rewrite ?countNewlines_between; auto.
Qed.

(** The whole-word and whole-line filters only remove lines: without
    cap, every line returned with them is returned without them. *)
Theorem literal_filters_only_remove (buffer : Uint8Array)
    (options : FastGrepOptions) :
  invertMatch options = false -> maxCount options = 0 ->
  incl (map lineNumber (grepBufferLiteral buffer options))
       (map lineNumber (grepBufferLiteral buffer (withoutFilters options))).
Proof.
  intros Hfwd Hmax n Hn.
  apply forward_lines in Hn; try assumption.
  destruct Hn as (p & Hp & _ & ->).
  apply forward_lines; try assumption.
  exists p. splits; [exact Hp | reflexivity | reflexivity].
Qed.

(** What the recorded lines have in common: a property of the line of
    every kept position holds of every accumulated content. *)
Lemma groupByLine_contents (P : jsstring -> Prop) (buffer : list Z)
    (options : FastGrepOptions) (patternLen : nat) (positions : list nat) :
  Forall (fun pos => kept buffer options patternLen pos = true ->
                     P (line_content (extractLineAt buffer pos))) positions ->
  forall cls cln lm,
    Forall (fun e => P (lm_content (snd e))) lm ->
    Forall (fun e => P (lm_content (snd e)))
      (groupByLine buffer options patternLen positions cls cln lm).
Proof.
  induction 1 as [|pos positions Hpos _ IH]; intros cls cln lm Hlm;
    cbn [groupByLine]; [exact Hlm|].
  destruct (fastForward buffer pos cls cln (pos - cls)) as [cls' cln'].
  unfold kept in Hpos.
  destruct (wholeWord options && negb _); [now apply IH|].
  destruct (lineRegexp options && negb _); [now apply IH|].
  specialize (Hpos eq_refl).
  assert (forall m k off,
            Forall (fun e => P (lm_content (snd e))) m ->
            Forall (fun e => P (lm_content (snd e))) (pushPosition m k off))
    as Hpush.
  { intros m k off Hm. induction Hm as [|[k' v] m Hv Hm IHm]; simpl;
      [constructor|].
    destruct (Nat.eqb k' k); constructor; auto. }
  assert (Forall (fun e => P (lm_content (snd e)))
            (if negb (mapHas lm cln')
             then mapSet lm cln'
                    (mkLineMatch cln'
                       (line_content (extractLineAt buffer pos)) [])
             else lm)) as Hnext.
  { destruct (mapHas lm cln') eqn:E; cbn [negb]; [exact Hlm|].
    unfold mapSet. rewrite E. apply Forall_app. split; [exact Hlm|].
    repeat constructor. exact Hpos. }
  destruct (reached options _); [now apply Hpush|].
  apply IH. now apply Hpush.
Qed.

(** With [lineRegexp], forward mode returns only lines whose decoded
    content is the pattern itself. *)
Theorem literal_lineRegexp_content (buffer : Uint8Array)
    (options : FastGrepOptions) (r : GrepLineResult) :
  lineRegexp options = true -> invertMatch options = false ->
  In r (grepBufferLiteral buffer options) ->
  content r = pattern options.
Proof.
  intros Hline Hfwd. unfold grepBufferLiteral. rewrite Hfwd.
  intro Hin. apply in_map_iff in Hin. destruct Hin as (e & <- & He).
  unfold materialize. destruct (onlyMatching options); [reflexivity|].
  cbn [content].
  assert (Forall (fun e => lm_content (snd e) = pattern options)
            (groupByLine buffer options (length (encode (pattern options)))
               ((if ignoreCase options
                 then findPatternPositionsIgnoreCase
                 else findPatternPositions) buffer (encode (pattern options)))
               0 1 [])) as Hall.
  { apply (groupByLine_contents (fun c => c = pattern options));
      [|constructor].
    apply Forall_forall. intros pos _ Hk. unfold kept in Hk.
    rewrite Hline in Hk.
    apply andb_true_iff in Hk. destruct Hk as [_ Hk].
    cbn [andb] in Hk. apply negb_true_iff, negb_false_iff in Hk.
    now apply jsstring_eqb_eq. }
  rewrite Forall_forall in Hall. exact (Hall e He).
Qed.

(** ** Contents are single lines *)

Definition newlineFree (r : GrepLineResult) : Prop :=
  ~ In NEWLINE (content r).

Lemma decode_newline_free (bytes : list Z) :
  ~ In NEWLINE bytes -> ~ In NEWLINE (decode bytes).
Proof.
  intro H. apply nlCount_zero. rewrite decode_newlines. now apply nlCount_zero.
Qed.

Lemma extractLineAt_newline_free (buffer : list Z) (pos : nat) :
  pos <= length buffer ->
  ~ In NEWLINE (line_content (extractLineAt buffer pos)).
Proof.
  intro Hpos. unfold extractLineAt. cbn [line_content].
  apply decode_newline_free, nlCount_zero.
  pose proof (lineStartAt_le buffer pos) as Hs.
  destruct (lineStartAt_spec buffer pos) as [_ Hs2].
  destruct (lineEndAt_spec buffer (length buffer - pos) pos (le_n _) Hpos)
    as (He1 & _ & He3).
  fold (between buffer (lineStartAt buffer pos)
          (lineEndAt buffer pos (length buffer - pos))).
  rewrite (between_split buffer _ pos) by lia. lia.
Qed.

Lemma collectLines_newline_free (buffer : list Z) (options : FastGrepOptions)
    (matchSet : list nat) (n : nat) :
  forall lineStart lineNum mc,
    Forall newlineFree
      (collectLines buffer options matchSet lineStart lineNum mc n).
Proof.
  induction n as [|n IH]; intros lineStart lineNum mc; cbn [collectLines];
    [constructor|].
  destruct (Nat.ltb lineStart (length buffer)); [|constructor].
  assert (newlineFree
            (mkResult lineNum
               (decode (slice buffer lineStart (actualEndOf buffer lineStart)))
               None)) as Hr.
  { unfold newlineFree. cbn [content].
    apply decode_newline_free, nlCount_zero. apply between_actualEnd. }
  destruct (negb _); [|apply IH].
  destruct (reached options _); constructor; auto.
Qed.

Lemma split_newline_free (s : jsstring) :
  Forall (fun l => ~ In NEWLINE l) (split s NEWLINE).
Proof.
  induction s as [|c s IH]; simpl; [repeat constructor; auto|].
  destruct (Z.eqb_spec c NEWLINE) as [->|Hne].
  - constructor; [auto | exact IH].
  - destruct (split s NEWLINE) as [|l ls]; [repeat constructor|].
    + intros [E|[]]. congruence.
    + inversion IH as [|? ? Hl Hls]; subst. constructor; [|exact Hls].
      intros [E|Hin]; [congruence | auto].
Qed.

Lemma In_removelast (A : Type) (l : list A) (x : A) :
  In x (removelast l) -> In x l.
Proof.
  rewrite removelast_firstn_len. intro H.
  rewrite <- (firstn_skipn (pred (length l)) l). apply in_or_app. now left.
Qed.

Lemma linesOf_newline_free (buffer : list Z) :
  Forall (fun l => ~ In NEWLINE l) (linesOf buffer).
Proof.
  unfold linesOf. pose proof (split_newline_free (decode buffer)) as H.
  destruct (endsWith (decode buffer) NEWLINE); [|exact H].
  apply Forall_forall. intros l Hl. rewrite Forall_forall in H.
  apply H. now apply In_removelast.
Qed.

Lemma In_slice (a : list Z) (b e : nat) (x : Z) : In x (slice a b e) -> In x a.
Proof.
  unfold slice. intro H.
  assert (In x (skipn b a)) as H'.
  { rewrite <- (firstn_skipn (e - b) (skipn b a)). apply in_or_app. now left. }
  rewrite <- (firstn_skipn b a). apply in_or_app. now right.
Qed.

Lemma execAll_fragments (re : RegExp) (line : jsstring) (n lastIndex : nat)
    (m : jsstring) :
  In m (execAll re line lastIndex n) -> exists b e, m = slice line b e.
Proof.
  revert lastIndex. induction n as [|n IH]; intro lastIndex; simpl;
    [contradiction|].
  destruct (exec re line lastIndex) as [[[b e]|] next]; [|contradiction].
  intros [<-|H]; [eauto | eapply IH; exact H].
Qed.

Lemma pushedFor_newline_free (options : FastGrepOptions) (line : jsstring)
    (i : nat) :
  ~ In NEWLINE line -> Forall newlineFree (pushedFor options line i).
Proof.
  intro Hline. unfold pushedFor.
  destruct (onlyMatching options && negb (invertMatch options)).
  - apply Forall_forall. intros r Hr. apply in_map_iff in Hr.
    destruct Hr as (m & <- & Hm). apply execAll_fragments in Hm.
    destruct Hm as (b & e & ->). unfold newlineFree. cbn [content].
    intro H. apply Hline. eapply In_slice. exact H.
  - repeat constructor. exact Hline.
Qed.

Lemma regexLines_newline_free (options : FastGrepOptions)
    (lines : list jsstring) :
  Forall (fun l => ~ In NEWLINE l) lines ->
  forall i mc, Forall newlineFree (regexLines options lines i mc).
Proof.
  induction 1 as [|line lines Hline _ IH]; intros i mc; cbn [regexLines];
    [constructor|].
  destruct (negb _); [|apply IH].
  pose proof (pushedFor_newline_free options line i Hline) as Hp.
  destruct (reached options _); [exact Hp|].
  apply Forall_app. split; [exact Hp | apply IH].
Qed.

(** The options under which a content can hold a newline: the literal
    only-matching results repeat the pattern, whatever it holds. *)
Definition singleLine (options : FastGrepOptions) : Prop :=
  isLiteral options = false
  \/ onlyMatching options = false
  \/ invertMatch options = true
  \/ ~ In NEWLINE (pattern options).

Lemma grepBufferLiteral_newline_free (buffer : list Z)
    (options : FastGrepOptions) :
  onlyMatching options = false \/ invertMatch options = true
  \/ ~ In NEWLINE (pattern options) ->
  Forall newlineFree (grepBufferLiteral buffer options).
Proof.
  intro Hopt. unfold grepBufferLiteral.
  destruct (invertMatch options) eqn:Einv;
    [apply collectLines_newline_free|].
  apply Forall_map.
  assert (Forall (fun e => ~ In NEWLINE (lm_content (snd e)))
            (groupByLine buffer options (length (encode (pattern options)))
               ((if ignoreCase options
                 then findPatternPositionsIgnoreCase
                 else findPatternPositions) buffer (encode (pattern options)))
               0 1 [])) as Hall.
  { apply (groupByLine_contents (fun c => ~ In NEWLINE c)); [|constructor].
    pose proof (positions_bound buffer options) as Hb.
    eapply Forall_impl; [|exact Hb]. simpl. intros pos Hpos _.
    apply extractLineAt_newline_free. lia. }
  eapply Forall_impl; [|exact Hall]. intros e He.
  unfold newlineFree, materialize.
  destruct (onlyMatching options) eqn:Eom; cbn [content]; [|exact He].
  destruct Hopt as [H|[H|H]]; [congruence | congruence | exact H].
Qed.

Lemma scan_newline_free (region : list Z) (options : FastGrepOptions) :
  singleLine options -> Forall newlineFree (scan region options).
Proof.
  intro Hopt. unfold scan. destruct (isLiteral options) eqn:El.
  - apply grepBufferLiteral_newline_free.
    destruct Hopt as [H|[H|[H|H]]]; [congruence | auto | auto | auto].
  - apply regexLines_newline_free, linesOf_newline_free.
Qed.

Lemma delivered_newline_free (options : FastGrepOptions) (off : nat)
    (results : list GrepLineResult) (mc : nat) :
  Forall newlineFree results ->
  Forall newlineFree (fst (fst (deliver options off results mc))).
Proof.
  intro H. destruct (deliver_prefix options off results mc) as (n & _ & -> & _).
  apply Forall_map. apply Forall_forall. intros r Hr.
  rewrite Forall_forall in H. apply (H r).
  rewrite <- (firstn_skipn n results). apply in_or_app. now left.
Qed.

(** Every content is a single line.  The contents returned by
    [grepBufferRegex] never hold a newline; those returned by
    [grepBufferLiteral] do not either, except that forward only-matching
    results repeat a pattern that holds one; and the same goes for every
    result that [grepStream] passes to [onResult]. *)
Theorem contents_are_single_lines (options : FastGrepOptions)
    (region : Uint8Array) (stream : list Uint8Array) :
  Forall newlineFree (grepBufferRegex region options)
  /\ (onlyMatching options = false \/ invertMatch options = true
      \/ ~ In NEWLINE (pattern options) ->
      Forall newlineFree (grepBufferLiteral region options))
  /\ (singleLine options ->
      Forall newlineFree (res_calls (grepStream stream options))).
Proof.
  splits.
  - apply regexLines_newline_free, linesOf_newline_free.
  - apply grepBufferLiteral_newline_free.
  - intro Hopt. unfold grepStream.
    apply (readLoop_rule options
             (fun st => Forall newlineFree (calls st))
             (fun r => Forall newlineFree (res_calls r))).
    + intros st v Hst. unfold onChunk.
      destruct (lastIndexOf (buffer st ++ v) NEWLINE) as [k|]; [|exact Hst].
      pose proof (delivered_newline_free options (lineOffset st)
                    (scan (slice (buffer st ++ v) 0 (k + 1)) options)
                    (matchCount st) (scan_newline_free _ options Hopt)) as Hd.
      destruct (deliver _ _ _ _) as [[made mc] [|]]; simpl in *;
        apply Forall_app; split; assumption.
    + intros st Hst. unfold onDone.
      destruct (Nat.ltb 0 (length (buffer st))); [|exact Hst].
      pose proof (delivered_newline_free options (lineOffset st)
                    (scan (buffer st) options)
                    (matchCount st) (scan_newline_free _ options Hopt)) as Hd.
      destruct (deliver _ _ _ _) as [[made mc] ?]; simpl in *.
      apply Forall_app; split; assumption.
    + constructor.
Qed.

(** ** Literal path: patterns that cannot occur *)

Lemma sorted_range_seq (n : nat) :
  forall a l,
    StronglySorted lt l ->
    (forall k, In k l <-> a <= k < a + n) ->
    l = seq a n.
Proof.
  induction n as [|n IH]; intros a l Hs Hin.
  - destruct l as [|h t]; [reflexivity|].
    assert (In h (h :: t)) as H by now left. apply Hin in H. lia.
  - assert (In a l) as Ha by (apply Hin; lia).
    destruct l as [|h t]; [contradiction|].
    apply StronglySorted_inv in Hs. destruct Hs as [Hs Hh].
    rewrite Forall_forall in Hh.
    assert (h = a) as ->.
    { assert (a <= h < a + S n) as Hr by (apply Hin; now left).
      destruct Ha as [E|Ha]; [exact E|]. specialize (Hh a Ha). lia. }
    simpl. f_equal. apply IH; [exact Hs|].
    intro k. split.
    + intro Hk. specialize (Hh k Hk).
      assert (a <= k < a + S n) by (apply Hin; now right). lia.
    + intro Hk. assert (In k (a :: t)) as H by (apply Hin; lia).
      destruct H as [E|H]; [lia | exact H].
Qed.

Lemma markLines_nil (buffer : list Z) (lineStart lineNum : nat)
    (matchSet : list nat) (n : nat) :
  markLines buffer [] lineStart lineNum matchSet n = matchSet.
Proof.
  destruct n as [|n]; simpl; [reflexivity|].
  now rewrite andb_false_r.
Qed.

Lemma rawPositions_degenerate (buffer : list Z) (options : FastGrepOptions) :
  pattern options = []
  \/ length buffer < length (encode (pattern options)) ->
  rawPositions buffer options = [].
Proof.
  intro H. unfold rawPositions.
  assert (encode (pattern options) = []
          \/ length buffer < length (encode (pattern options))) as H'.
  { destruct H as [->|H]; [left; reflexivity | now right]. }
  destruct (findPatternPositions_degenerate buffer _ H') as [E1 E2].
  now destruct (ignoreCase options).
Qed.

(** An empty pattern, or one longer than the buffer, occurs nowhere:
    forward mode returns nothing, and invert mode without cap returns
    every line of the buffer, in order. *)
Theorem literal_pattern_cannot_occur (buffer : Uint8Array)
    (options : FastGrepOptions) :
  pattern options = []
  \/ length buffer < length (encode (pattern options)) ->
  (invertMatch options = false -> grepBufferLiteral buffer options = [])
  /\ (invertMatch options = true -> maxCount options = 0 ->
      map lineNumber (grepBufferLiteral buffer options)
      = seq 1 (lineCountOf buffer)).
Proof.
  intro H. apply rawPositions_degenerate in H. unfold rawPositions in H.
  unfold grepBufferLiteral. rewrite H. split.
  - intros ->. reflexivity.
  - intros -> Hmax. unfold grepBufferInvert. rewrite markLines_nil.
    apply sorted_range_seq.
    + now destruct (collectLines_spec buffer options [] (length buffer)
                      0 1 0 ltac:(simpl; lia) ltac:(rewrite Hmax; lia))
        as (Hs & _).
    + intro k.
      rewrite (collectLines_lines buffer options [] (length buffer) Hmax
                 0 1 0) by lia.
      simpl. tauto.
Qed.

(** ** Regex path: the lines it sees *)

Section DecoderLastByte.

Local Open Scope Z_scope.

Lemma lead_progress (b : Z) :
  fst (Utf8.lead b) <> [] \/ Utf8.bytes_needed (snd (Utf8.lead b)) <> 0%nat.
Proof.
  unfold Utf8.lead.
  repeat match goal with
         | |- context [if Utf8.in_range ?lo ?hi b then _ else _] =>
           destruct (Utf8.in_range lo hi b)
         end; simpl; (left; discriminate) || (right; discriminate).
Qed.

Lemma handler_progress (st : Utf8.state) (b : Z) :
  fst (Utf8.handler st b) <> []
  \/ Utf8.bytes_needed (snd (Utf8.handler st b)) <> 0%nat.
Proof.
  unfold Utf8.handler.
  destruct (Nat.eqb_spec (Utf8.bytes_needed st) 0) as [E|Hne];
    [apply lead_progress|].
  destruct (negb _).
  - destruct (Utf8.lead b). left. discriminate.
  - destruct (Nat.eqb _ _); cbn [fst snd Utf8.bytes_needed];
      [left; discriminate | right; exact Hne].
Qed.

(** After a byte that is not a newline the decoder's output, with what
    the end of the input adds, ends with a character that is not a
    newline. *)
Lemma handler_final (st : Utf8.state) (b : Z) :
  pending_ok st -> b <> NEWLINE ->
  exists out c,
    fst (Utf8.handler st b) ++ Utf8.run (snd (Utf8.handler st b)) []
    = out ++ [c]
    /\ c <> NEWLINE.
Proof.
  intros Hst Hb.
  destruct (handler_spec st b Hst) as [Hcount _].
  assert (isNewline b = 0%nat) as E.
  { unfold isNewline. destruct (Z.eqb_spec b NEWLINE); [contradiction|auto]. }
  rewrite E in Hcount. apply nlCount_zero in Hcount.
  cbn [Utf8.run].
  destruct (Nat.eqb_spec (Utf8.bytes_needed (snd (Utf8.handler st b))) 0)
    as [E0|Hne].
  - destruct (handler_progress st b) as [Hout|Hn]; [|contradiction].
    destruct (exists_last Hout) as (out & c & Eout).
    exists out, c. rewrite app_nil_r. split; [exact Eout|].
    intros ->. apply Hcount. rewrite Eout. apply in_or_app. right. now left.
  - exists (fst (Utf8.handler st b)), Utf8.REPLACEMENT.
    split; [reflexivity | discriminate].
Qed.

Lemma run_last_other (bytes : list Z) (b : Z) (st : Utf8.state) :
  pending_ok st -> b <> NEWLINE ->
  exists out c, Utf8.run st (bytes ++ [b]) = out ++ [c] /\ c <> NEWLINE.
Proof.
  intros Hst Hb. revert st Hst.
  induction bytes as [|a bytes IH]; intros st Hst.
  - simpl app. cbn [Utf8.run].
    destruct (handler_final st b Hst Hb) as (out & c & E & Hc).
    destruct (Utf8.handler st b) as [o st']. cbn [fst snd] in E.
    cbn [Utf8.run] in E. exists out, c. split; [exact E | exact Hc].
  - simpl app. cbn [Utf8.run].
    destruct (handler_spec st a Hst) as [_ Hst'].
    destruct (Utf8.handler st a) as [o st']. cbn [snd] in Hst'.
    destruct (IH st' Hst') as (out & c & -> & Hc).
    exists (o ++ out), c. split; [now rewrite app_assoc | exact Hc].
Qed.

Lemma units_last (c : Z) :
  c <> NEWLINE ->
  exists out d, Utf8.units c = out ++ [d] /\ d <> NEWLINE.
Proof.
  intro Hc. unfold Utf8.units. destruct (Z.ltb c 65536).
  - exists [], c. split; [reflexivity | exact Hc].
  - exists [55296 + Z.shiftr (c - 65536) 10], (56320 + Z.land (c - 65536) 1023).
    split; [reflexivity|].
    assert (0 <= Z.land (c - 65536) 1023)
      by (apply Z.land_nonneg; right; lia).
    unfold NEWLINE. lia.
Qed.

(** The decoded text of bytes that do not end with a newline does not
    end with a newline. *)
Lemma decode_not_endsWith (bytes : list Z) (b : Z) :
  b <> NEWLINE -> endsWith (decode (bytes ++ [b])) NEWLINE = false.
Proof.
  intro Hb. unfold decode, Utf8.decode.
  destruct (run_last_other bytes b Utf8.start start_ok Hb)
    as (out & c & -> & Hc).
  assert (Utf8.stripBOM (out ++ [c]) = []
          \/ exists out', Utf8.stripBOM (out ++ [c]) = out' ++ [c]) as Hs.
  { destruct out as [|x out]; simpl.
    - destruct (Z.eqb c 65279); [now left | right; exists []; reflexivity].
    - right. destruct (Z.eqb x 65279);
        [exists out | exists (x :: out)]; reflexivity. }
  destruct Hs as [->|[out' ->]]; [reflexivity|].
  rewrite flat_map_app. simpl flat_map. rewrite app_nil_r.
  destruct (units_last c Hc) as (o & d & -> & Hd).
  rewrite app_assoc. unfold endsWith. rewrite rev_app_distr. simpl.
  now apply Z.eqb_neq.
Qed.

End DecoderLastByte.

(** On a buffer that is not empty the regex path walks as many lines
    as the buffer has. *)
Lemma linesOf_count (buffer : list Z) :
  buffer <> [] -> length (linesOf buffer) = lineCountOf buffer.
Proof.
  intro Hne. destruct (exists_last Hne) as (l & b & ->).
  unfold lineCountOf. rewrite length_app, Nat.add_1_r. cbn [Nat.ltb Nat.leb].
  destruct (Z.eq_dec b NEWLINE) as [->|Hb].
  - rewrite linesOf_complete by apply endsWith_app_one.
    rewrite endsWith_app_one. simpl. lia.
  - unfold linesOf. rewrite (decode_not_endsWith l b Hb).
    rewrite split_length, decode_newlines.
    assert (endsWith (l ++ [b]) NEWLINE = false) as ->.
    { unfold endsWith. rewrite rev_app_distr. simpl. now apply Z.eqb_neq. }
    simpl. lia.
Qed.

Lemma grepBufferRegex_range (buffer : list Z) (options : FastGrepOptions)
    (r : GrepLineResult) :
  buffer <> [] ->
  In r (grepBufferRegex buffer options) ->
  1 <= lineNumber r <= lineCountOf buffer.
Proof.
  intros Hne Hr. rewrite <- (linesOf_count buffer Hne).
  unfold grepBufferRegex in Hr.
  destruct (regexLines_spec options (linesOf buffer) 0 0 ltac:(auto))
    as (_ & H & _).
  rewrite Forall_forall in H. specialize (H (lineNumber r) (in_map _ _ _ Hr)).
  simpl in H. lia.
Qed.

(** On a buffer that is not empty [grepBufferRegex] returns line
    numbers of the buffer only: each is at least 1 and at most the
    buffer's line count. *)
Theorem regex_lines_in_range (buffer : Uint8Array) (options : FastGrepOptions)
    (r : GrepLineResult) :
  buffer <> [] ->
  In r (grepBufferRegex buffer options) ->
  1 <= lineNumber r <= lineCountOf buffer.
Proof. apply grepBufferRegex_range. Qed.

(** ** Regex path: selection *)

(** A selected line pushes at least one result, and every result it
    pushes carries its number. *)
Lemma pushedFor_selected (options : FastGrepOptions) (line : jsstring)
    (i : nat) :
  negb (Bool.eqb (test (regex options) line) (invertMatch options)) = true ->
  exists n, map lineNumber (pushedFor options line i) = repeat (i + 1) (S n).
Proof.
  intro Hsel.
  destruct (pushedFor_lineNumbers options line i) as (n & Hn & Hone).
  destruct (onlyMatching options && negb (invertMatch options)) eqn:Eflag.
  - destruct n as [|n]; [|eauto]. exfalso.
    apply andb_true_iff in Eflag. destruct Eflag as [_ Einv].
    apply negb_true_iff in Einv. rewrite Einv in Hsel.
    unfold pushedFor in Hn. rewrite Einv in Hn.
    destruct (onlyMatching options); [|discriminate]. cbn [andb negb] in Hn.
    unfold test in Hsel.
    replace (length line + 2) with (S (length line + 1)) in Hn by lia.
    cbn [execAll] in Hn.
    destruct (exec (regex options) line 0) as [[[b e]|] next];
      simpl in Hsel, Hn; discriminate.
  - specialize (Hone eq_refl). subst n. eauto.
Qed.

Lemma repeat_In_S (k n x : nat) : In x (repeat k (S n)) <-> x = k.
Proof.
  split.
  - intro H. now apply repeat_spec in H.
  - intros ->. now left.
Qed.

(** Without cap the regex path returns the numbers of the selected
    lines: those on which [test] differs from [invertMatch]. *)
Lemma regexLines_selected (options : FastGrepOptions) (lines : list jsstring) :
  maxCount options = 0 ->
  forall i mc k,
    In k (map lineNumber (regexLines options lines i mc))
    <-> exists j line,
          nth_error lines j = Some line /\ k = i + j + 1
          /\ test (regex options) line <> invertMatch options.
Proof.
  intro Hmax. induction lines as [|line lines IH]; intros i mc k;
    cbn [regexLines].
  - split; [contradiction|]. intros (j & l & H & _). now destruct j.
  - destruct (negb (Bool.eqb (test (regex options) line)
                      (invertMatch options))) eqn:Esel.
    + destruct (pushedFor_selected options line i Esel) as (n & Hn).
      rewrite reached_unbounded by assumption.
      rewrite map_app, in_app_iff, Hn, repeat_In_S, IH.
      apply negb_true_iff, eqb_false_iff in Esel. split.
      * intros [->|(j & l & Hj & -> & Hl)].
        -- exists 0, line. splits; [reflexivity | lia | exact Esel].
        -- exists (S j), l. splits; [exact Hj | lia | exact Hl].
      * intros ([|j] & l & Hj & -> & Hl).
        -- left. lia.
        -- right. exists j, l. splits; [exact Hj | lia | exact Hl].
    + rewrite IH. apply negb_false_iff, eqb_prop in Esel. split.
      * intros (j & l & Hj & -> & Hl).
        exists (S j), l. splits; [exact Hj | lia | exact Hl].
      * intros ([|j] & l & Hj & -> & Hl).
        -- simpl in Hj. injection Hj as <-. contradiction.
        -- exists j, l. splits; [exact Hj | lia | exact Hl].
Qed.

(** On the regex path, without cap, invert mode returns exactly the
    lines of the buffer that forward mode does not return. *)
Theorem regex_invert_complement (buffer : Uint8Array)
    (options : FastGrepOptions) (k : nat) :
  buffer <> [] -> maxCount options = 0 ->
  (In k (map lineNumber (grepBufferRegex buffer (withInvert options true)))
   <-> 1 <= k <= lineCountOf buffer
       /\ ~ In k (map lineNumber
                    (grepBufferRegex buffer (withInvert options false)))).
Proof.
  intros Hne Hmax. rewrite <- (linesOf_count buffer Hne).
  unfold grepBufferRegex.
  rewrite (regexLines_selected (withInvert options true) _ Hmax).
  rewrite (regexLines_selected (withInvert options false) _ Hmax).
  cbn [withInvert regex invertMatch]. split.
  - intros (j & l & Hj & -> & Hl).
    assert (j < length (linesOf buffer))
      by (apply nth_error_Some; congruence).
    split; [lia|]. intros (j' & l' & Hj' & E & Hl').
    assert (j' = j) as -> by lia.
    assert (l' = l) as -> by congruence.
    destruct (test (regex options) l); congruence.
  - intros [Hr Hno].
    destruct (nth_error (linesOf buffer) (k - 1)) as [l|] eqn:El.
    + exists (k - 1), l. splits; [exact El | lia |].
      intro Ht. apply Hno. exists (k - 1), l.
      splits; [exact El | lia |]. rewrite Ht. discriminate.
    + apply nth_error_None in El. lia.
Qed.

Definition withOnlyMatching (options : FastGrepOptions) (only : bool)
  : FastGrepOptions :=
  mkOptions (pattern options) (regex options) (isLiteral options)
    (ignoreCase options) (invertMatch options) (wholeWord options)
    (lineRegexp options) (maxCount options) only.

Lemma regexLines_onlyMatching (options : FastGrepOptions)
    (lines : list jsstring) :
  forall i mc k,
    In k (map lineNumber
            (regexLines (withOnlyMatching options true) lines i mc))
    <-> In k (map lineNumber
                (regexLines (withOnlyMatching options false) lines i mc)).
Proof.
  induction lines as [|line lines IH]; intros i mc k; cbn [regexLines];
    [reflexivity|].
  cbn [withOnlyMatching regex invertMatch].
  destruct (negb (Bool.eqb (test (regex options) line)
                    (invertMatch options))) eqn:Esel; [|apply IH].
  destruct (pushedFor_selected (withOnlyMatching options true) line i Esel)
    as (n1 & H1).
  destruct (pushedFor_selected (withOnlyMatching options false) line i Esel)
    as (n0 & H0).
  change (reached (withOnlyMatching options true) (mc + 1))
    with (reached options (mc + 1)).
  change (reached (withOnlyMatching options false) (mc + 1))
    with (reached options (mc + 1)).
  destruct (reached options (mc + 1)).
  - now rewrite H1, H0, !repeat_In_S.
  - now rewrite !map_app, !in_app_iff, H1, H0, !repeat_In_S, IH.
Qed.

(** Only-matching changes what is returned for a line, not which lines
    are returned: with and without it [grepBufferRegex] returns the same
    line numbers, under any cap. *)
Theorem regex_onlyMatching_same_lines (buffer : Uint8Array)
    (options : FastGrepOptions) (k : nat) :
  In k (map lineNumber
          (grepBufferRegex buffer (withOnlyMatching options true)))
  <-> In k (map lineNumber
              (grepBufferRegex buffer (withOnlyMatching options false))).
Proof. apply regexLines_onlyMatching. Qed.

(** ** Literal path: only-matching *)

Lemma groupByLine_options (buffer : list Z) (o1 o2 : FastGrepOptions)
    (patternLen : nat) (positions : list nat) :
  wholeWord o1 = wholeWord o2 -> lineRegexp o1 = lineRegexp o2 ->
  pattern o1 = pattern o2 -> maxCount o1 = maxCount o2 ->
  forall cls cln lm,
    groupByLine buffer o1 patternLen positions cls cln lm
    = groupByLine buffer o2 patternLen positions cls cln lm.
Proof.
  intros Hw Hl Hp Hm. induction positions as [|pos positions IH];
    intros cls cln lm; cbn [groupByLine]; [reflexivity|].
  destruct (fastForward buffer pos cls cln (pos - cls)) as [cls' cln'].
  unfold reached. rewrite Hw, Hl, Hp, Hm, !IH. reflexivity.
Qed.

(** In the literal path only-matching changes the content and nothing
    else: forward mode returns the same lines with the pattern as their
    content, invert mode returns the same results. *)
Theorem literal_onlyMatching_content (buffer : Uint8Array)
    (options : FastGrepOptions) :
  (invertMatch options = false ->
   grepBufferLiteral buffer (withOnlyMatching options true)
   = map (fun r => mkResult (lineNumber r) (pattern options) None)
       (grepBufferLiteral buffer (withOnlyMatching options false)))
  /\ (invertMatch options = true ->
      grepBufferLiteral buffer (withOnlyMatching options true)
      = grepBufferLiteral buffer (withOnlyMatching options false)).
Proof.
  split; intro Hinv.
  - unfold grepBufferLiteral.
    cbn [withOnlyMatching pattern ignoreCase invertMatch]. rewrite Hinv.
    rewrite (groupByLine_options buffer (withOnlyMatching options true)
               (withOnlyMatching options false) _ _
               eq_refl eq_refl eq_refl eq_refl).
    rewrite map_map. apply map_ext. intro e. reflexivity.
  - apply invert_ignores_filters; auto.
Qed.

(** ** Stream driver: what is scanned, what is reported *)

Lemma readLoop_scanned (options : FastGrepOptions) (chunks : list Uint8Array) :
  forall st,
  exists unread,
    concat (scanned st) ++ buffer st ++ concat chunks
    = concat (res_scanned (readLoop options chunks st)) ++ unread
    /\ (maxCount options = 0 -> unread = []).
Proof.
  induction chunks as [|v chunks IH]; intro st; cbn [readLoop concat].
  - exists []. split; [|reflexivity]. rewrite !app_nil_r. unfold onDone.
    destruct (buffer st) as [|b rest] eqn:Eb; cbn [length Nat.ltb Nat.leb].
    + now rewrite app_nil_r.
    + destruct (deliver _ _ _ _) as [[made mc] ?]. cbn [res_scanned].
      rewrite concat_app. simpl. now rewrite app_nil_r.
  - unfold onChunk.
    destruct (lastIndexOf (buffer st ++ v) NEWLINE) as [k|] eqn:E.
    + apply lastIndexOf_Some in E. destruct E as [Hk _].
      destruct (slice_complete _ _ Hk) as [_ Hsplit].
      assert (concat (scanned st) ++ buffer st ++ v ++ concat chunks
              = concat (scanned st ++ [slice (buffer st ++ v) 0 (k + 1)])
                ++ skipn (k + 1) (buffer st ++ v) ++ concat chunks) as Hcat.
      { rewrite concat_app. simpl. rewrite app_nil_r, <- (app_assoc (concat _)).
        f_equal. rewrite !app_assoc. f_equal. exact Hsplit. }
      destruct (deliver options (lineOffset st)
                  (scan (slice (buffer st ++ v) 0 (k + 1)) options)
                  (matchCount st)) as [[made mc] stopped] eqn:Ed.
      destruct stopped.
      * exists (skipn (k + 1) (buffer st ++ v) ++ concat chunks).
        cbn [res_scanned]. split; [exact Hcat|].
        intro H0. rewrite (deliver_unbounded _ _ _ _ H0) in Ed. discriminate.
      * destruct (IH (mkStreamState (skipn (k + 1) (buffer st ++ v))
                        (lineOffset st
                         + countNewlines (slice (buffer st ++ v) 0 (k + 1)) 0
                             (length (slice (buffer st ++ v) 0 (k + 1))))
                        mc (calls st ++ made)
                        (scanned st ++ [slice (buffer st ++ v) 0 (k + 1)])))
          as (unread & Hu & H0).
        exists unread. split; [|exact H0].
        rewrite Hcat. exact Hu.
    + destruct (IH (mkStreamState (buffer st ++ v) (lineOffset st)
                      (matchCount st) (calls st) (scanned st)))
        as (unread & Hu & H0).
      exists unread. split; [|exact H0].
      cbn [buffer scanned] in Hu. rewrite <- Hu, <- !app_assoc. reflexivity.
Qed.

(** The regions handed to the scanners are consecutive pieces of the
    input, from its start: put end to end they are a prefix of the
    bytes delivered, and without cap they are all of them, so that
    every byte is scanned once. *)
Theorem stream_scans_input_once (options : FastGrepOptions)
    (stream : list Uint8Array) :
  exists unread,
    concat stream
    = concat (res_scanned (grepStream stream options)) ++ unread
    /\ (maxCount options = 0 -> unread = []).
Proof.
  destruct (readLoop_scanned options stream initial) as (unread & H & H0).
  exists unread. split; [exact H | exact H0].
Qed.

Lemma scan_range (region : list Z) (options : FastGrepOptions) :
  region <> [] ->
  Forall (fun k => 1 <= k <= lineCountOf region)
    (map lineNumber (scan region options)).
Proof.
  intro Hne. unfold scan. destruct (isLiteral options).
  - apply grepBufferLiteral_range.
  - apply Forall_forall. intros k Hk. apply in_map_iff in Hk.
    destruct Hk as (r & <- & Hr).
    now apply (grepBufferRegex_range region options).
Qed.

Lemma delivered_range (options : FastGrepOptions) (off hi : nat)
    (results : list GrepLineResult) (mc : nat) :
  Forall (fun k => 1 <= k <= hi) (map lineNumber results) ->
  Forall (fun k => 1 <= k <= off + hi)
    (map lineNumber (fst (fst (deliver options off results mc)))).
Proof.
  intro H. destruct (delivered_lines options off results mc) as (n & ->).
  apply Forall_map. apply Forall_forall. intros k Hk.
  rewrite Forall_forall in H.
  assert (In k (map lineNumber results)) as Hin.
  { rewrite <- (firstn_skipn n). apply in_or_app. now left. }
  specialize (H k Hin). lia.
Qed.

Lemma lineCountOf_complete_region (region : list Z) :
  endsWith region NEWLINE = true -> lineCountOf region = nlCount region.
Proof.
  intro H. unfold lineCountOf. rewrite H. simpl. rewrite andb_false_r. lia.
Qed.

(** Every line number passed to [onResult] is a line of the input that
    the call accounts for: at least 1 and at most the line count it
    returns. *)
Theorem stream_lineNumbers_within_lineCount (options : FastGrepOptions)
    (stream : list Uint8Array) (call : GrepLineResult) :
  In call (res_calls (grepStream stream options)) ->
  1 <= lineNumber call <= res_lineCount (grepStream stream options).
Proof.
  intro Hcall. apply (in_map lineNumber) in Hcall. revert Hcall.
  generalize (lineNumber call). intros k Hk.
  assert (Forall (fun k => 1 <= k <= res_lineCount (grepStream stream options))
            (map lineNumber (res_calls (grepStream stream options)))) as Hall.
  { unfold grepStream.
    apply (readLoop_rule options
             (fun st => Forall (fun k => 1 <= k <= lineOffset st)
                          (map lineNumber (calls st))
                        /\ ~ In NEWLINE (buffer st))
             (fun r => Forall (fun k => 1 <= k <= res_lineCount r)
                         (map lineNumber (res_calls r)))).
    - intros st v [Hcalls Hbuf]. unfold onChunk.
      destruct (lastIndexOf (buffer st ++ v) NEWLINE) as [i|] eqn:E.
      + apply lastIndexOf_Some in E. destruct E as [Hi Hrest].
        pose proof (slice_endsWith _ _ Hi) as Hends.
        set (complete := slice (buffer st ++ v) 0 (i + 1)) in *.
        assert (complete <> []) as Hne
          by (intro H; rewrite H in Hends; discriminate).
        pose proof (delivered_range options (lineOffset st)
                      (lineCountOf complete) (scan complete options)
                      (matchCount st) (scan_range complete options Hne)) as Hd.
        rewrite (lineCountOf_complete_region complete Hends) in Hd.
        rewrite countNewlines_all.
        assert (Forall (fun k => 1 <= k <= lineOffset st + nlCount complete)
                  (map lineNumber (calls st))) as Hold.
        { eapply Forall_impl; [|exact Hcalls]. simpl. intros; lia. }
        destruct (deliver _ _ _ _) as [[made mc] [|]]; cbn [fst] in Hd;
          cbn [res_calls res_lineCount calls lineOffset buffer].
        * rewrite map_app. apply Forall_app. split; assumption.
        * split; [|now rewrite skipn_S_add].
          rewrite map_app. apply Forall_app. split; assumption.
      + apply lastIndexOf_None in E. split; assumption.
    - intros st [Hcalls Hbuf]. unfold onDone.
      destruct (Nat.ltb_spec 0 (length (buffer st))) as [Hlen|Hlen].
      + assert (buffer st <> []) as Hne
          by (intro H; rewrite H in Hlen; simpl in Hlen; lia).
        pose proof (delivered_range options (lineOffset st)
                      (lineCountOf (buffer st)) (scan (buffer st) options)
                      (matchCount st) (scan_range _ options Hne)) as Hd.
        rewrite (lineCountOf_no_newline _ Hbuf) in Hd.
        destruct (Nat.ltb_spec 0 (length (buffer st))); [|lia].
        destruct (deliver _ _ _ _) as [[made mc] ?]; cbn [fst] in Hd.
        cbn [res_calls res_lineCount]. rewrite map_app.
        apply Forall_app. split; [|exact Hd].
        eapply Forall_impl; [|exact Hcalls]. simpl. intros; lia.
      + cbn [res_calls res_lineCount].
        eapply Forall_impl; [|exact Hcalls]. simpl. intros; lia.
    - split; [constructor | simpl; auto]. }
  rewrite Forall_forall in Hall. exact (Hall k Hk).
Qed.

(** The match count returned is the number of calls of [onResult]. *)
Theorem stream_matchCount_counts_calls (options : FastGrepOptions)
    (stream : list Uint8Array) :
  res_matchCount (grepStream stream options)
  = length (res_calls (grepStream stream options)).
Proof.
  symmetry. apply (proj1 (grepStream_calls_capped options stream)).
Qed.

(** ** Chunk boundaries do not show in the literal path

    A region that ends with a newline can be scanned apart from what
    follows it: the results for a buffer are the results for the region,
    then the results for the rest with their line numbers moved by the
    lines of the region. *)

(** A region the stream driver cuts: empty, or ending with a newline. *)
Definition cut (region : list Z) : Prop :=
  region = [] \/ endsWith region NEWLINE = true.

Lemma cut_last (A : list Z) :
  cut A -> A <> [] -> at_ A (length A - 1) = Some NEWLINE.
Proof.
  intros [->|H] Hne; [contradiction|].
  apply endsWith_inv in H. destruct H as [l ->]. unfold at_.
  rewrite length_app, Nat.add_sub. simpl.
  rewrite nth_error_app2 by lia. now rewrite Nat.sub_diag.
Qed.

Lemma at_app_l (A B : list Z) (i : nat) :
  i < length A -> at_ (A ++ B) i = at_ A i.
Proof. apply nth_error_app1. Qed.

Lemma at_app_r (A B : list Z) (i : nat) :
  at_ (A ++ B) (length A + i) = at_ B i.
Proof.
  unfold at_. rewrite nth_error_app2 by lia. f_equal. lia.
Qed.

Lemma slice_app_l (A B : list Z) (s e : nat) :
  e <= length A -> slice (A ++ B) s e = slice A s e.
Proof.
  intro He. unfold slice. rewrite skipn_app, firstn_app, length_skipn.
  replace (e - s - (length A - s)) with 0 by lia.
  simpl. now rewrite app_nil_r.
Qed.

Lemma slice_app_r (A B : list Z) (s e : nat) :
  slice (A ++ B) (length A + s) (length A + e) = slice B s e.
Proof.
  unfold slice. rewrite skipn_app.
  rewrite (skipn_all2 A) by lia. simpl.
  f_equal; [lia | f_equal; lia].
Qed.

Lemma between_app_l (A B : list Z) (s e : nat) :
  e <= length A -> between (A ++ B) s e = between A s e.
Proof. intro H. unfold between. now rewrite slice_app_l. Qed.

Lemma between_app_r (A B : list Z) (s e : nat) :
  between (A ++ B) (length A + s) (length A + e) = between B s e.
Proof. unfold between. now rewrite slice_app_r. Qed.

Lemma between_all (A : list Z) : between A 0 (length A) = nlCount A.
Proof.
  unfold between, slice. simpl. now rewrite Nat.sub_0_r, firstn_all.
Qed.

Lemma between_app_0 (A B : list Z) (q : nat) :
  between (A ++ B) 0 (length A + q) = nlCount A + between B 0 q.
Proof.
  rewrite (between_split (A ++ B) 0 (length A)) by lia.
  rewrite between_app_l, between_all by lia.
  f_equal. replace (length A) with (length A + 0) at 1 by lia.
  apply between_app_r.
Qed.

Lemma sorted_ext (l1 : list nat) :
  forall l2,
    StronglySorted lt l1 -> StronglySorted lt l2 ->
    (forall x, In x l1 <-> In x l2) -> l1 = l2.
Proof.
  induction l1 as [|a l1 IH]; intros l2 H1 H2 Hin.
  - destruct l2 as [|b l2]; [reflexivity|].
    exfalso. apply (proj2 (Hin b)). now left.
  - destruct l2 as [|b l2].
    { exfalso. apply (proj1 (Hin a)). now left. }
    apply StronglySorted_inv in H1, H2.
    destruct H1 as [H1 Ha], H2 as [H2 Hb].
    rewrite Forall_forall in Ha, Hb.
    assert (a = b) as ->.
    { destruct (proj1 (Hin a) (or_introl eq_refl)) as [E|Hab]; [auto|].
      destruct (proj2 (Hin b) (or_introl eq_refl)) as [E|Hba]; [auto|].
      specialize (Ha b Hba). specialize (Hb a Hab). lia. }
    f_equal. apply IH; try assumption.
    intro x. split; intro Hx.
    + destruct (proj1 (Hin x) (or_intror Hx)) as [E|H]; [|exact H].
      specialize (Ha x Hx). lia.
    + destruct (proj2 (Hin x) (or_intror Hx)) as [E|H]; [|exact H].
      specialize (Hb x Hx). lia.
Qed.

(** An occurrence of a newline-free pattern lies on one side of a cut. *)
Lemma occursAt_app (A B pat : list Z) (p : nat) :
  cut A -> pat <> [] -> ~ In NEWLINE pat ->
  (occursAt (A ++ B) pat p
   <-> (p + length pat < length A /\ occursAt A pat p)
       \/ (length A <= p /\ occursAt B pat (p - length A))).
Proof.
  intros Hcut Hne Hnl.
  assert (0 < length pat) as Hlen
    by (destruct pat; [congruence | simpl; lia]).
  rewrite !occursAt_reads by assumption. rewrite length_app. split.
  - intros [Hfit Hread].
    destruct (Nat.le_gt_cases (length A) p) as [Hr|Hl].
    + right. split; [exact Hr|]. split; [lia|]. intros k Hk.
      rewrite <- (Hread k Hk).
      replace (p + k) with (length A + (p - length A + k)) by lia.
      now rewrite at_app_r.
    + assert (A <> []) as HA by (destruct A; [simpl in Hl; lia | discriminate]).
      pose proof (cut_last A Hcut HA) as Hlast.
      destruct (Nat.lt_ge_cases (p + length pat) (length A)) as [Hin|Hout].
      * left. split; [exact Hin|]. split; [lia|]. intros k Hk.
        rewrite <- (Hread k Hk). symmetry. apply at_app_l. lia.
      * exfalso. apply Hnl.
        assert (length A - 1 - p < length pat) as Hk by lia.
        specialize (Hread _ Hk).
        replace (p + (length A - 1 - p)) with (length A - 1) in Hread by lia.
        rewrite at_app_l, Hlast in Hread by lia.
        symmetry in Hread. unfold at_ in Hread.
        eapply nth_error_In. exact Hread.
  - intros [[Hin [Hfit Hread]]|[Hr [Hfit Hread]]].
    + split; [lia|]. intros k Hk. rewrite <- (Hread k Hk).
      apply at_app_l. lia.
    + split; [lia|]. intros k Hk. rewrite <- (Hread k Hk).
      replace (p + k) with (length A + (p - length A + k)) by lia.
      now rewrite at_app_r.
Qed.

(** In a cut region an occurrence of a newline-free pattern ends before
    the last byte. *)
Lemma occursAt_inside (A pat : list Z) (p : nat) :
  cut A -> pat <> [] -> ~ In NEWLINE pat ->
  occursAt A pat p -> p + length pat < length A.
Proof.
  intros Hcut Hne Hnl H.
  assert (occursAt (A ++ []) pat p) as H' by now rewrite app_nil_r.
  apply (occursAt_app A [] pat p Hcut Hne Hnl) in H'.
  destruct H' as [[Hin _]|[_ Hout]]; [exact Hin|].
  unfold occursAt in Hout. rewrite skipn_nil, firstn_nil in Hout.
  congruence.
Qed.

Lemma sorted_lt_app (l1 l2 : list nat) :
  StronglySorted lt l1 -> StronglySorted lt l2 ->
  (forall x y, In x l1 -> In y l2 -> x < y) ->
  StronglySorted lt (l1 ++ l2).
Proof.
  induction 1 as [|x a _ IH Hx]; intros Hb Hab; simpl; [exact Hb|].
  constructor.
  - apply IH; [exact Hb|]. intros; apply Hab; simpl; auto.
  - apply Forall_app. split; [exact Hx|].
    apply Forall_forall. intros y Hy. apply Hab; simpl; auto.
Qed.

Lemma sorted_lt_shift (l : list nat) (off : nat) :
  StronglySorted lt l -> StronglySorted lt (map (fun q => off + q) l).
Proof.
  induction 1 as [|a l _ IH Ha]; simpl; constructor; [exact IH|].
  apply Forall_map. eapply Forall_impl; [|exact Ha]. simpl. intros; lia.
Qed.

Lemma findPatternPositions_app (A B pat : list Z) :
  cut A -> ~ In NEWLINE pat ->
  findPatternPositions (A ++ B) pat
  = findPatternPositions A pat
    ++ map (fun q => length A + q) (findPatternPositions B pat).
Proof.
  intros Hcut Hnl. destruct pat as [|b pat].
  { now rewrite !(proj1 (findPatternPositions_degenerate _ []
                           (or_introl eq_refl))). }
  assert (b :: pat <> []) as Hne by discriminate.
  apply sorted_ext.
  - apply findPatternPositions_sorted.
  - apply sorted_lt_app.
    + apply findPatternPositions_sorted.
    + apply sorted_lt_shift, findPatternPositions_sorted.
    + intros x y Hx Hy.
      pose proof (findPatternPositions_bound A (b :: pat)) as Hb.
      rewrite Forall_forall in Hb. specialize (Hb x Hx).
      apply in_map_iff in Hy. destruct Hy as (q & <- & _). lia.
  - intro p. rewrite in_app_iff, in_map_iff.
    rewrite !findPatternPositions_In by assumption.
    rewrite (occursAt_app A B (b :: pat) p Hcut Hne Hnl). split.
    + intros [[_ H]|[Hr H]]; [now left | right].
      exists (p - length A). split; [lia|].
      now apply findPatternPositions_In.
    + intros [H|(q & <- & Hq)].
      * left. split; [|exact H].
        now apply occursAt_inside.
      * right. split; [lia|]. apply findPatternPositions_In in Hq;
          [|assumption].
        now replace (length A + q - length A) with q by lia.
Qed.

Lemma toLowerAscii_newline (b : Z) : toLowerAscii b = NEWLINE -> b = NEWLINE.
Proof.
  unfold toLowerAscii, NEWLINE.
  destruct (Z.leb_spec 65 b), (Z.leb_spec b 90); simpl; lia.
Qed.

Lemma folded_newline_free (pat : list Z) :
  ~ In NEWLINE pat -> ~ In NEWLINE (map toLowerAscii pat).
Proof.
  intros H Hin. apply in_map_iff in Hin. destruct Hin as (b & Hb & Hin).
  apply toLowerAscii_newline in Hb. now subst.
Qed.

Lemma folded_cut (A : list Z) : cut A -> cut (map toLowerAscii A).
Proof.
  intros [->|H]; [now left | right].
  apply endsWith_inv in H. destruct H as [l ->].
  rewrite map_app. apply endsWith_app_one.
Qed.

(** The pattern's bytes as the scanners use them. *)
Definition patternBytesOk (options : FastGrepOptions) : Prop :=
  Forall isByte (encode (pattern options))
  /\ ~ In NEWLINE (encode (pattern options)).

Lemma rawPositions_app (A B : list Z) (options : FastGrepOptions) :
  cut A -> patternBytesOk options ->
  rawPositions (A ++ B) options
  = rawPositions A options
    ++ map (fun q => length A + q) (rawPositions B options).
Proof.
  intros Hcut [Hbytes Hnl]. unfold rawPositions.
  destruct (ignoreCase options).
  - rewrite !findPatternPositionsIgnoreCase_fold.
    rewrite lowerPattern_bytes by assumption.
    rewrite map_app, findPatternPositions_app
      by (auto using folded_cut, folded_newline_free).
    now rewrite length_map.
  - now apply findPatternPositions_app.
Qed.

Lemma rawPositions_inside (A : list Z) (options : FastGrepOptions) (p : nat) :
  cut A -> patternBytesOk options ->
  In p (rawPositions A options) ->
  p + length (encode (pattern options)) < length A.
Proof.
  intros Hcut [Hbytes Hnl] Hp. unfold rawPositions in Hp.
  destruct (encode (pattern options)) as [|b pat] eqn:Epat.
  { destruct (findPatternPositions_degenerate A [] (or_introl eq_refl))
      as [E1 E2].
    destruct (ignoreCase options); [rewrite E2 in Hp | rewrite E1 in Hp];
      contradiction. }
  destruct (ignoreCase options).
  - rewrite findPatternPositionsIgnoreCase_fold in Hp.
    rewrite lowerPattern_bytes in Hp by assumption.
    apply findPatternPositions_In in Hp; [|discriminate].
    apply occursAt_inside in Hp;
      auto using folded_cut, folded_newline_free; [|discriminate].
    now rewrite !length_map in Hp.
  - apply findPatternPositions_In in Hp; [|discriminate].
    apply occursAt_inside in Hp; auto. discriminate.
Qed.

Lemma isWordBoundary_app_l (A B : list Z) (p len : nat) :
  p + len < length A ->
  isWordBoundary (A ++ B) p len = isWordBoundary A p len.
Proof.
  intro H. unfold isWordBoundary. rewrite length_app.
  rewrite !at_app_l by lia.
  destruct (Nat.leb_spec (length A + length B) (p + len)); [lia|].
  destruct (Nat.leb_spec (length A) (p + len)); [lia|]. reflexivity.
Qed.

Lemma isWordBoundary_app_r (A B : list Z) (q len : nat) :
  cut A ->
  isWordBoundary (A ++ B) (length A + q) len = isWordBoundary B q len.
Proof.
  intro Hcut. unfold isWordBoundary. rewrite length_app. f_equal.
  - destruct q as [|q].
    + rewrite Nat.add_0_r. simpl Nat.eqb at 2. cbn [orb].
      destruct A as [|a A]; [reflexivity|].
      rewrite at_app_l by (simpl; lia).
      rewrite (cut_last (a :: A) Hcut) by discriminate.
      simpl. reflexivity.
    + replace (length A + S q - 1) with (length A + q) by lia.
      rewrite at_app_r. simpl. rewrite Nat.sub_0_r.
      destruct (Nat.eqb_spec (length A + S q) 0); [lia | reflexivity].
  - replace (length A + q + len) with (length A + (q + len)) by lia.
    rewrite at_app_r. f_equal.
    destruct (Nat.leb_spec (length A + length B) (length A + (q + len))),
      (Nat.leb_spec (length B) (q + len)); try reflexivity; lia.
Qed.

(** The start and the end of the line around a position are determined
    by the newlines around it. *)
Lemma line_start_unique (chunk : list Z) (pos s1 s2 : nat) :
  s1 <= pos -> s2 <= pos ->
  (s1 = 0 \/ at_ chunk (s1 - 1) = Some NEWLINE) ->
  (s2 = 0 \/ at_ chunk (s2 - 1) = Some NEWLINE) ->
  between chunk s1 pos = 0 -> between chunk s2 pos = 0 ->
  s1 = s2.
Proof.
  intros H1 H2 Hb1 Hb2 Hz1 Hz2.
  destruct (Nat.lt_trichotomy s1 s2) as [Hlt|[E|Hgt]]; [|exact E|]; exfalso.
  - destruct Hb2 as [->|Hnl]; [lia|].
    apply (between_zero_at chunk s1 pos (s2 - 1) Hz1); [lia | exact Hnl].
  - destruct Hb1 as [->|Hnl]; [lia|].
    apply (between_zero_at chunk s2 pos (s1 - 1) Hz2); [lia | exact Hnl].
Qed.

Lemma line_end_unique (chunk : list Z) (pos e1 e2 : nat) :
  pos <= e1 <= length chunk -> pos <= e2 <= length chunk ->
  (e1 = length chunk \/ at_ chunk e1 = Some NEWLINE) ->
  (e2 = length chunk \/ at_ chunk e2 = Some NEWLINE) ->
  between chunk pos e1 = 0 -> between chunk pos e2 = 0 ->
  e1 = e2.
Proof.
  intros H1 H2 Hb1 Hb2 Hz1 Hz2.
  destruct (Nat.lt_trichotomy e1 e2) as [Hlt|[E|Hgt]]; [|exact E|]; exfalso.
  - destruct Hb1 as [->|Hnl]; [lia|].
    apply (between_zero_at chunk pos e2 e1 Hz2); [lia | exact Hnl].
  - destruct Hb2 as [->|Hnl]; [lia|].
    apply (between_zero_at chunk pos e1 e2 Hz1); [lia | exact Hnl].
Qed.

Lemma line_content_app_l (A B : list Z) (p : nat) :
  cut A -> p < length A ->
  line_content (extractLineAt (A ++ B) p) = line_content (extractLineAt A p).
Proof.
  intros Hcut Hp. unfold extractLineAt. cbn [line_content].
  assert (A <> []) as HA by (destruct A; [simpl in Hp; lia | discriminate]).
  pose proof (cut_last A Hcut HA) as Hlast.
  pose proof (lineStartAt_le A p) as Hs.
  destruct (lineStartAt_spec A p) as [Hs1 Hs2].
  destruct (lineEndAt_spec A (length A - p) p (le_n _) ltac:(lia))
    as (He1 & He2 & He3).
  set (s := lineStartAt A p) in *. set (e := lineEndAt A p (length A - p)) in *.
  assert (e < length A) as Hlt.
  { destruct (Nat.eq_dec e (length A)) as [E|]; [|lia]. exfalso.
    apply (between_zero_at A p e (length A - 1) He3); [lia | exact Hlast]. }
  pose proof (lineStartAt_le (A ++ B) p) as Hs'.
  destruct (lineStartAt_spec (A ++ B) p) as [Hs1' Hs2'].
  destruct (lineEndAt_spec (A ++ B) (length (A ++ B) - p) p (le_n _)
              ltac:(rewrite length_app; lia)) as (He1' & He2' & He3').
  assert (lineStartAt (A ++ B) p = s) as ->.
  { apply (line_start_unique (A ++ B) p); try assumption; try lia.
    - destruct Hs1 as [->|H]; [now left | right].
      rewrite at_app_l by lia. exact H.
    - rewrite between_app_l by lia. exact Hs2. }
  assert (lineEndAt (A ++ B) p (length (A ++ B) - p) = e) as ->.
  { apply (line_end_unique (A ++ B) p); try assumption.
    - rewrite length_app. lia.
    - right. rewrite at_app_l by lia.
      destruct He2 as [E|H]; [lia | exact H].
    - rewrite between_app_l by lia. exact He3. }
  now rewrite slice_app_l by lia.
Qed.

Lemma line_content_app_r (A B : list Z) (q : nat) :
  cut A -> q <= length B ->
  line_content (extractLineAt (A ++ B) (length A + q))
  = line_content (extractLineAt B q).
Proof.
  intros Hcut Hq. unfold extractLineAt. cbn [line_content].
  pose proof (lineStartAt_le B q) as Hs.
  destruct (lineStartAt_spec B q) as [Hs1 Hs2].
  destruct (lineEndAt_spec B (length B - q) q (le_n _) Hq)
    as (He1 & He2 & He3).
  set (s := lineStartAt B q) in *. set (e := lineEndAt B q (length B - q)) in *.
  pose proof (lineStartAt_le (A ++ B) (length A + q)) as Hs'.
  destruct (lineStartAt_spec (A ++ B) (length A + q)) as [Hs1' Hs2'].
  destruct (lineEndAt_spec (A ++ B) (length (A ++ B) - (length A + q))
              (length A + q) (le_n _) ltac:(rewrite length_app; lia))
    as (He1' & He2' & He3').
  assert (lineStartAt (A ++ B) (length A + q) = length A + s) as ->.
  { apply (line_start_unique (A ++ B) (length A + q)); try assumption;
      try lia.
    - destruct s as [|s'].
      + rewrite Nat.add_0_r. destruct A as [|a A]; [now left | right].
        rewrite at_app_l by (simpl; lia).
        apply (cut_last (a :: A) Hcut). discriminate.
      + right. destruct Hs1 as [E|H]; [discriminate|].
        replace (length A + S s' - 1) with (length A + s') by lia.
        rewrite at_app_r. simpl in H. now rewrite Nat.sub_0_r in H.
    - rewrite between_app_r. exact Hs2. }
  assert (lineEndAt (A ++ B) (length A + q)
            (length (A ++ B) - (length A + q)) = length A + e) as ->.
  { apply (line_end_unique (A ++ B) (length A + q)); try assumption.
    - rewrite length_app. lia.
    - rewrite length_app. destruct He2 as [E|H]; [left; lia | right].
      now rewrite at_app_r.
    - rewrite between_app_r. exact He3. }
  now rewrite slice_app_r.
Qed.

Lemma kept_app_l (A B : list Z) (options : FastGrepOptions) (len p : nat) :
  cut A -> p + len < length A ->
  kept (A ++ B) options len p = kept A options len p.
Proof.
  intros Hcut Hp. unfold kept.
  rewrite isWordBoundary_app_l by assumption.
  now rewrite line_content_app_l by (auto; lia).
Qed.

Lemma kept_app_r (A B : list Z) (options : FastGrepOptions) (len q : nat) :
  cut A -> q <= length B ->
  kept (A ++ B) options len (length A + q) = kept B options len q.
Proof.
  intros Hcut Hq. unfold kept.
  rewrite isWordBoundary_app_r by assumption.
  now rewrite line_content_app_r by assumption.
Qed.

(** What forward mode records, position by position: the line and its
    content for every position that passes the filters. *)
Definition recorded (buffer : list Z) (options : FastGrepOptions)
    (patternLen : nat) (positions : list nat) : list (nat * jsstring) :=
  map (fun p => (1 + between buffer 0 p,
                 line_content (extractLineAt buffer p)))
    (filter (kept buffer options patternLen) positions).

(** The first record of every line not seen before, in order. *)
Fixpoint firstPerLine (seen : list nat) (records : list (nat * jsstring))
  : list (nat * nat * jsstring) :=
  match records with
  | [] => []
  | (k, c) :: rest =>
    if setHas seen k then firstPerLine seen rest
    else (k, k, c) :: firstPerLine (seen ++ [k]) rest
  end.

Lemma mapHas_setHas (m : LineMap) (k : nat) : mapHas m k = setHas (keys m) k.
Proof.
  unfold mapHas, setHas, keys. induction m as [|e m IH]; simpl; [reflexivity|].
  now rewrite IH, Nat.eqb_sym.
Qed.

Lemma groupByLine_firstPerLine (buffer : list Z) (options : FastGrepOptions)
    (patternLen : nat) (positions : list nat) :
  maxCount options = 0 ->
  StronglySorted lt positions ->
  forall cls cln lm,
    Forall (fun p => cls <= p) positions ->
    cln = 1 + between buffer 0 cls ->
    strip (groupByLine buffer options patternLen positions cls cln lm)
    = strip lm
      ++ firstPerLine (keys lm) (recorded buffer options patternLen positions).
Proof.
  intro Hmax.
  induction 1 as [|pos rest Hrest IH Hpos]; intros cls cln lm Hfrom Hcln;
    cbn [groupByLine].
  - unfold recorded. simpl. now rewrite app_nil_r.
  - inversion Hfrom as [|? ? Hle Hfrom']; subst.
    destruct (fastForward_exact buffer pos (pos - cls) cls
                (1 + between buffer 0 cls) Hle (le_n _))
      as (Hr & Hcln & Hzero).
    destruct (fastForward buffer pos cls (1 + between buffer 0 cls)
                (pos - cls)) as [cls' cln'].
    cbn [fst snd] in *.
    assert (Forall (fun p => cls' <= p) rest) as Hfrom''.
    { eapply Forall_impl; [|exact Hpos]. simpl. intros; lia. }
    assert (cln' = 1 + between buffer 0 cls') as Hcln'.
    { rewrite (between_split buffer 0 cls cls') by lia. lia. }
    assert (cln' = 1 + between buffer 0 pos) as Hline.
    { rewrite (between_split buffer 0 cls' pos) by lia. lia. }
    unfold recorded. cbn [filter]. unfold kept at 1.
    destruct (wholeWord options && negb (isWordBoundary buffer pos patternLen)).
    { cbn [negb andb]. now apply IH. }
    destruct (lineRegexp options && negb _).
    { cbn [negb andb]. now apply IH. }
    cbn [negb andb map firstPerLine].
    rewrite reached_unbounded by assumption.
    rewrite IH by assumption.
    rewrite strip_record, <- Hline, <- mapHas_setHas.
    rewrite (strip_keys (pushPosition _ _ _)), strip_record.
    rewrite map_app, <- strip_keys, <- app_assoc.
    destruct (mapHas lm cln'); simpl; [now rewrite app_nil_r | reflexivity].
Qed.

Lemma setHas_app (s1 s2 : list nat) (k : nat) :
  setHas (s1 ++ s2) k = setHas s1 k || setHas s2 k.
Proof. unfold setHas. apply existsb_app. Qed.

Lemma firstPerLine_app (e1 e2 : list (nat * jsstring)) :
  forall seen,
    firstPerLine seen (e1 ++ e2)
    = firstPerLine seen e1
      ++ firstPerLine
           (seen ++ map (fun e => fst (fst e)) (firstPerLine seen e1)) e2.
Proof.
  induction e1 as [|[k c] e1 IH]; intro seen; simpl.
  - now rewrite app_nil_r.
  - destruct (setHas seen k); [apply IH|].
    simpl. rewrite IH, <- app_assoc. reflexivity.
Qed.

Lemma firstPerLine_seen (es : list (nat * jsstring)) :
  forall seen seen',
    (forall k, In k (map fst es) -> setHas seen k = setHas seen' k) ->
    firstPerLine seen es = firstPerLine seen' es.
Proof.
  induction es as [|[k c] es IH]; intros seen seen' Hsame; simpl;
    [reflexivity|].
  rewrite <- (Hsame k) by (simpl; auto).
  destruct (setHas seen k).
  - apply IH. intros x Hx. apply Hsame. simpl. auto.
  - f_equal. apply IH. intros x Hx. rewrite !setHas_app.
    f_equal. apply Hsame. simpl. auto.
Qed.

Lemma firstPerLine_lines (es : list (nat * jsstring)) :
  forall seen k,
    In k (map (fun e => fst (fst e)) (firstPerLine seen es)) ->
    In k (map fst es).
Proof.
  induction es as [|[k' c] es IH]; intros seen k; simpl; [auto|].
  destruct (setHas seen k'); simpl.
  - intro H. right. eapply IH. exact H.
  - intros [H|H]; [now left | right; eapply IH; exact H].
Qed.

Lemma setHas_shift (seen : list nat) (off k : nat) :
  setHas (map (fun x => x + off) seen) (k + off) = setHas seen k.
Proof.
  unfold setHas. induction seen as [|x seen IH]; simpl; [reflexivity|].
  rewrite IH. f_equal.
  destruct (Nat.eqb_spec (k + off) (x + off)), (Nat.eqb_spec k x);
    try reflexivity; lia.
Qed.

Lemma firstPerLine_shift (off : nat) (es : list (nat * jsstring)) :
  forall seen,
    firstPerLine (map (fun x => x + off) seen)
      (map (fun e => (fst e + off, snd e)) es)
    = map (fun e => (fst (fst e) + off, snd (fst e) + off, snd e))
        (firstPerLine seen es).
Proof.
  induction es as [|[k c] es IH]; intro seen; simpl; [reflexivity|].
  rewrite setHas_shift. destruct (setHas seen k); [apply IH|].
  simpl. f_equal. rewrite <- IH, map_app. reflexivity.
Qed.

Lemma between_before_last (A : list Z) (p : nat) :
  cut A -> p < length A -> 1 + between A 0 p <= nlCount A.
Proof.
  intros Hcut Hp.
  assert (A <> []) as HA by (destruct A; [simpl in Hp; lia | discriminate]).
  pose proof (cut_last A Hcut HA) as Hlast.
  rewrite <- between_all.
  rewrite (between_split A 0 p (length A)) by lia.
  rewrite (between_split A p (length A - 1) (length A)) by lia.
  replace (length A) with (S (length A - 1)) at 3 by lia.
  rewrite (between_one A _ Hlast). lia.
Qed.

Lemma recorded_app (A B : list Z) (options : FastGrepOptions) (len : nat)
    (posA posB : list nat) :
  cut A ->
  Forall (fun p => p + len < length A) posA ->
  Forall (fun q => q <= length B) posB ->
  recorded (A ++ B) options len (posA ++ map (fun q => length A + q) posB)
  = recorded A options len posA
    ++ map (fun e => (fst e + nlCount A, snd e))
         (recorded B options len posB).
Proof.
  intros Hcut HA HB. unfold recorded.
  rewrite filter_app, map_app. f_equal.
  - rewrite Forall_forall in HA.
    rewrite (filter_ext_in (kept (A ++ B) options len) (kept A options len)).
    + apply map_ext_in. intros p Hp. apply filter_In in Hp.
      destruct Hp as [Hp _]. specialize (HA p Hp).
      rewrite between_app_l by lia.
      now rewrite line_content_app_l by (auto; lia).
    + intros p Hp. apply kept_app_l; auto.
  - rewrite Forall_forall in HB.
    rewrite filter_map_swap, !map_map.
    rewrite (filter_ext_in (fun q => kept (A ++ B) options len (length A + q))
               (kept B options len)).
    + apply map_ext_in. intros q Hq. apply filter_In in Hq.
      destruct Hq as [Hq _]. specialize (HB q Hq). cbn [fst snd].
      rewrite between_app_0, line_content_app_r by assumption.
      f_equal. lia.
    + intros q Hq. apply kept_app_r; auto.
Qed.

Lemma materialized_shift (options : FastGrepOptions) (off : nat)
    (e : nat * nat * jsstring) :
  materialized options (fst (fst e) + off, snd (fst e) + off, snd e)
  = shifted off (materialized options e).
Proof. unfold materialized, shifted. now destruct (onlyMatching options). Qed.

(** Forward mode on a cut region followed by more bytes. *)
Lemma forward_app (A B : list Z) (options : FastGrepOptions) :
  cut A -> patternBytesOk options ->
  invertMatch options = false -> maxCount options = 0 ->
  grepBufferLiteral (A ++ B) options
  = grepBufferLiteral A options
    ++ map (shifted (nlCount A)) (grepBufferLiteral B options).
Proof.
  intros Hcut Hpat Hfwd Hmax.
  assert (forall X,
            grepBufferLiteral X options
            = map (materialized options)
                (firstPerLine []
                   (recorded X options (length (encode (pattern options)))
                      (rawPositions X options)))) as Hshape.
  { intro X. unfold grepBufferLiteral. rewrite Hfwd.
    fold (rawPositions X options). rewrite materialize_strip.
    rewrite (groupByLine_firstPerLine X options _ _ Hmax
               (rawPositions_sorted X options) 0 1 []).
    - reflexivity.
    - apply Forall_forall. intros; lia.
    - now rewrite between_same. }
  rewrite !Hshape. rewrite (rawPositions_app A B options Hcut Hpat).
  assert (Forall (fun p => p + length (encode (pattern options)) < length A)
            (rawPositions A options)) as HA.
  { apply Forall_forall. intros p Hp. now apply rawPositions_inside. }
  assert (Forall (fun q => q <= length B) (rawPositions B options)) as HB.
  { pose proof (positions_bound B options) as Hb.
    fold (rawPositions B options) in Hb.
    eapply Forall_impl; [|exact Hb]. simpl. intros; lia. }
  rewrite recorded_app by assumption.
  rewrite firstPerLine_app, map_app. f_equal.
  rewrite (firstPerLine_seen _ _ []).
  - rewrite (firstPerLine_shift (nlCount A) _ []).
    rewrite !map_map. apply map_ext. intro e. apply materialized_shift.
  - intros k Hk. rewrite app_nil_l.
    destruct (setHas _ k) eqn:E; [|reflexivity]. exfalso.
    apply setHas_In, firstPerLine_lines in E.
    unfold recorded in E, Hk. rewrite !map_map in E, Hk. cbn [fst] in E, Hk.
    apply in_map_iff in E. destruct E as (p & <- & Hp).
    apply in_map_iff in Hk. destruct Hk as (e & He & Hin).
    apply in_map_iff in Hin. destruct Hin as (q & <- & _).
    cbn [fst] in He.
    apply filter_In in Hp. destruct Hp as [Hp _].
    rewrite Forall_forall in HA. specialize (HA p Hp).
    pose proof (between_before_last A p Hcut ltac:(lia)). lia.
Qed.

(** *** Invert mode across a cut *)

Lemma indexFrom_shift (l : list Z) (v : Z) (k : nat) :
  forall i, indexFrom l v (k + i) = option_map (Nat.add k) (indexFrom l v i).
Proof.
  induction l as [|x l IH]; intro i; simpl; [reflexivity|].
  destruct (Z.eqb x v); [reflexivity|].
  rewrite <- IH. f_equal. lia.
Qed.

Lemma indexFrom_app (l1 l2 : list Z) (v : Z) :
  forall i,
    indexFrom (l1 ++ l2) v i
    = match indexFrom l1 v i with
      | Some j => Some j
      | None => indexFrom l2 v (i + length l1)
      end.
Proof.
  induction l1 as [|x l1 IH]; intro i; simpl.
  - now rewrite Nat.add_0_r.
  - destruct (Z.eqb x v); [reflexivity|].
    rewrite IH. destruct (indexFrom l1 v (S i)); [reflexivity|].
    f_equal. lia.
Qed.

Lemma actualEndOf_app_r (A B : list Z) (s : nat) :
  actualEndOf (A ++ B) (length A + s) = length A + actualEndOf B s.
Proof.
  unfold actualEndOf, indexOf.
  rewrite skipn_app, (skipn_all2 A) by lia.
  replace (length A + s - length A) with s by lia. simpl.
  rewrite indexFrom_shift.
  destruct (indexFrom (skipn s B) NEWLINE s); simpl; [reflexivity|].
  apply length_app.
Qed.

Lemma actualEndOf_app_l (A B : list Z) (s : nat) :
  cut A -> s < length A -> actualEndOf (A ++ B) s = actualEndOf A s.
Proof.
  intros Hcut Hs. unfold actualEndOf, indexOf.
  rewrite skipn_app. replace (s - length A) with 0 by lia. simpl.
  rewrite indexFrom_app.
  destruct (indexFrom (skipn s A) NEWLINE s) eqn:E; [reflexivity|].
  exfalso. apply indexFrom_None in E. apply E.
  assert (A <> []) as HA by (destruct A; [simpl in Hs; lia | discriminate]).
  pose proof (cut_last A Hcut HA) as Hlast. unfold at_ in Hlast.
  apply (nth_error_In _ (length A - 1 - s)).
  rewrite nth_error_skipn. rewrite <- Hlast. f_equal. lia.
Qed.

(** Without a cap the second pass is a filter of the lines of the
    buffer by the set. *)
Lemma collectLines_filter (buffer : list Z) (options : FastGrepOptions)
    (matchSet : list nat) (n : nat) :
  maxCount options = 0 ->
  forall lineStart lineNum mc mc',
    collectLines buffer options matchSet lineStart lineNum mc n
    = filter (fun r => negb (setHas matchSet (lineNumber r)))
        (collectLines buffer options [] lineStart lineNum mc' n).
Proof.
  intro Hmax. induction n as [|n IH]; intros lineStart lineNum mc mc';
    cbn [collectLines]; [reflexivity|].
  destruct (Nat.ltb lineStart (length buffer)); [|reflexivity].
  rewrite !reached_unbounded by assumption.
  cbn [setHas existsb negb filter lineNumber].
  fold (setHas matchSet lineNum).
  destruct (setHas matchSet lineNum); cbn [negb]; [apply IH|].
  f_equal. apply IH.
Qed.

Lemma collectLines_app_r (A B : list Z) (options : FastGrepOptions)
    (n : nat) :
  forall s lineNum mc,
    collectLines (A ++ B) options [] (length A + s) (lineNum + nlCount A) mc n
    = map (shifted (nlCount A)) (collectLines B options [] s lineNum mc n).
Proof.
  induction n as [|n IH]; intros s lineNum mc; cbn [collectLines];
    [reflexivity|].
  rewrite length_app, actualEndOf_app_r, slice_app_r.
  replace (Nat.ltb (length A + s) (length A + length B))
    with (Nat.ltb s (length B))
    by (destruct (Nat.ltb_spec s (length B)),
          (Nat.ltb_spec (length A + s) (length A + length B));
        try reflexivity; lia).
  destruct (Nat.ltb s (length B)); [|reflexivity].
  cbn [setHas existsb negb].
  replace (length A + actualEndOf B s + 1)
    with (length A + (actualEndOf B s + 1)) by lia.
  replace (lineNum + nlCount A + 1) with (lineNum + 1 + nlCount A) by lia.
  destruct (reached options (mc + 1)); cbn [map]; [reflexivity|].
  f_equal. apply IH.
Qed.

Lemma collectLines_mc (buffer : list Z) (options : FastGrepOptions)
    (matchSet : list nat) (lineStart lineNum mc mc' n : nat) :
  maxCount options = 0 ->
  collectLines buffer options matchSet lineStart lineNum mc n
  = collectLines buffer options matchSet lineStart lineNum mc' n.
Proof.
  intro Hmax.
  rewrite (collectLines_filter buffer options matchSet n Hmax _ _ mc 0).
  now rewrite (collectLines_filter buffer options matchSet n Hmax _ _ mc' 0).
Qed.

Lemma collectLines_app_l (A B : list Z) (options : FastGrepOptions)
    (n m : nat) :
  cut A -> maxCount options = 0 -> length B <= m ->
  forall s lineNum mc mc',
    s <= length A -> length A - s <= n ->
    collectLines (A ++ B) options [] s lineNum mc (n + m)
    = collectLines A options [] s lineNum mc n
      ++ collectLines (A ++ B) options [] (length A)
           (lineNum + between A s (length A)) mc' m.
Proof.
  intros Hcut Hmax Hm.
  induction n as [|n IH]; intros s lineNum mc mc' Hs Hn.
  - assert (s = length A) as -> by lia.
    rewrite between_same, Nat.add_0_r. simpl.
    now apply collectLines_mc.
  - destruct (Nat.eq_dec s (length A)) as [->|Hne].
    + rewrite (collectLines_beyond A) by lia.
      rewrite between_same, Nat.add_0_r. simpl app.
      rewrite (collectLines_mc _ _ _ _ _ mc mc') by assumption.
      apply collectLines_fuel; rewrite length_app; lia.
    + assert (s < length A) as Hlt by lia.
      cbn [Nat.add collectLines]. rewrite length_app.
      destruct (Nat.ltb_spec s (length A + length B)); [|lia].
      destruct (Nat.ltb_spec s (length A)); [|lia].
      rewrite actualEndOf_app_l by assumption.
      destruct (actualEndOf_cases A s Hlt)
        as [(Hend & Hle & Hnl)|[Hend Hnone]].
      2:{ exfalso. unfold indexOf in Hnone. apply indexFrom_None in Hnone.
          apply Hnone.
          assert (A <> []) as HA
            by (destruct A; [simpl in Hlt; lia | discriminate]).
          pose proof (cut_last A Hcut HA) as Hlast. unfold at_ in Hlast.
          apply (nth_error_In _ (length A - 1 - s)).
          rewrite nth_error_skipn. rewrite <- Hlast. f_equal. lia. }
      rewrite slice_app_l by lia.
      cbn [setHas existsb negb].
      rewrite !reached_unbounded by assumption.
      pose proof (between_actualEnd A s) as Hzero.
      assert (between A s (length A)
              = 1 + between A (actualEndOf A s + 1) (length A)) as Hcount.
      { rewrite (between_split A s (actualEndOf A s) (length A)) by lia.
        rewrite (between_split A (actualEndOf A s) (actualEndOf A s + 1)
                   (length A)) by lia.
        rewrite Nat.add_1_r at 1.
        rewrite (between_one A _ Hnl). lia. }
      rewrite (IH _ _ _ mc') by lia. cbn [app]. do 3 f_equal. lia.
Qed.

Lemma rawPositions_off_newline (buffer : list Z) (options : FastGrepOptions)
    (p : nat) :
  patternBytesOk options ->
  In p (rawPositions buffer options) -> at_ buffer p <> Some NEWLINE.
Proof.
  intros [Hbytes Hnl] Hp. unfold rawPositions in Hp.
  destruct (encode (pattern options)) as [|b pat] eqn:Epat.
  { destruct (findPatternPositions_degenerate buffer [] (or_introl eq_refl))
      as [E1 E2].
    destruct (ignoreCase options); [rewrite E2 in Hp | rewrite E1 in Hp];
      contradiction. }
  destruct (ignoreCase options).
  - rewrite findPatternPositionsIgnoreCase_fold in Hp.
    rewrite lowerPattern_bytes in Hp by assumption.
    apply findPatternPositions_In in Hp; [|discriminate].
    apply occursAt_reads in Hp; [|simpl; lia].
    destruct Hp as [_ Hread]. specialize (Hread 0 ltac:(simpl; lia)).
    rewrite Nat.add_0_r, at_map in Hread. simpl in Hread.
    intro E. rewrite E in Hread. simpl in Hread.
    apply (folded_newline_free _ Hnl). simpl. left.
    injection Hread as <-. reflexivity.
  - apply findPatternPositions_In in Hp; [|discriminate].
    apply occursAt_reads in Hp; [|simpl; lia].
    destruct Hp as [_ Hread]. specialize (Hread 0 ltac:(simpl; lia)).
    rewrite Nat.add_0_r in Hread. simpl in Hread.
    intro E. rewrite E in Hread. apply Hnl. left. congruence.
Qed.

(** The set of the first pass: the lines of the raw occurrences. *)
Lemma matchSet_lines (buffer : list Z) (options : FastGrepOptions) (k : nat) :
  patternBytesOk options ->
  In k (markLines buffer (rawPositions buffer options) 0 1 [] (length buffer))
  <-> exists p, In p (rawPositions buffer options)
                /\ k = 1 + between buffer 0 p.
Proof.
  intro Hpat.
  rewrite markLines_spec;
    [| lia | apply rawPositions_sorted |].
  - simpl. tauto.
  - pose proof (positions_bound buffer options) as Hb.
    fold (rawPositions buffer options) in Hb.
    apply Forall_forall. intros p Hp. rewrite Forall_forall in Hb.
    specialize (Hb p Hp). splits; [lia | exact Hb |].
    now apply (rawPositions_off_newline buffer options).
Qed.

Lemma setHas_same (s1 s2 : list nat) (k1 k2 : nat) :
  (In k1 s1 <-> In k2 s2) -> setHas s1 k1 = setHas s2 k2.
Proof.
  intro H. destruct (setHas s1 k1) eqn:E1, (setHas s2 k2) eqn:E2;
    try reflexivity.
  - apply setHas_In, H, setHas_In in E1. congruence.
  - apply setHas_In, H, setHas_In in E2. congruence.
Qed.

(** Invert mode on a cut region followed by more bytes. *)
Lemma invert_app (A B : list Z) (options : FastGrepOptions) :
  cut A -> patternBytesOk options ->
  invertMatch options = true -> maxCount options = 0 ->
  grepBufferLiteral (A ++ B) options
  = grepBufferLiteral A options
    ++ map (shifted (nlCount A)) (grepBufferLiteral B options).
Proof.
  intros Hcut Hpat Hinv Hmax.
  assert (forall X,
            grepBufferLiteral X options
            = filter (fun r =>
                        negb (setHas
                                (markLines X (rawPositions X options) 0 1 []
                                   (length X)) (lineNumber r)))
                (collectLines X options [] 0 1 0 (length X))) as Hshape.
  { intro X. unfold grepBufferLiteral. rewrite Hinv.
    fold (rawPositions X options). unfold grepBufferInvert.
    now apply collectLines_filter. }
  rewrite !Hshape.
  replace (collectLines (A ++ B) options [] 0 1 0 (length (A ++ B)))
    with (collectLines A options [] 0 1 0 (length A)
          ++ map (shifted (nlCount A))
               (collectLines B options [] 0 1 0 (length B))).
  2:{ rewrite length_app.
      rewrite (collectLines_app_l A B options (length A) (length B) Hcut Hmax
                 (le_n _) 0 1 0 0) by lia.
      rewrite between_all. f_equal.
      rewrite <- (collectLines_app_r A B options (length B) 0 1 0).
      now rewrite Nat.add_0_r. }
  rewrite filter_app. f_equal.
  - apply filter_ext_in. intros r Hr. f_equal. apply setHas_same.
    assert (1 <= lineNumber r <= nlCount A) as Hrange.
    { pose proof (collectLines_lines A options [] (length A) Hmax 0 1 0
                    ltac:(lia) ltac:(lia) (lineNumber r)) as Hl.
      destruct Hl as [Hl _]. simpl skipn in Hl.
      destruct Hl as [Hl _]; [now apply in_map|].
      destruct Hcut as [->|Hend]; [simpl in Hr; contradiction|].
      rewrite lineCountOf_complete_region in Hl by assumption. lia. }
    rewrite !matchSet_lines by assumption.
    rewrite (rawPositions_app A B options Hcut Hpat).
    split.
    + intros (p & Hp & Hk). apply in_app_or in Hp.
      destruct Hp as [Hp|Hp].
      * exists p. split; [exact Hp|].
        pose proof (rawPositions_inside A options p Hcut Hpat Hp).
        rewrite between_app_l in Hk by lia. exact Hk.
      * apply in_map_iff in Hp. destruct Hp as (q & <- & Hq).
        rewrite between_app_0 in Hk. lia.
    + intros (p & Hp & Hk). exists p. split; [apply in_or_app; now left|].
      pose proof (rawPositions_inside A options p Hcut Hpat Hp).
      rewrite between_app_l by lia. exact Hk.
  - rewrite filter_map_swap. f_equal.
    apply filter_ext_in. intros r Hr. cbn [shifted lineNumber]. f_equal.
    apply setHas_same.
    assert (1 <= lineNumber r) as Hrange.
    { pose proof (collectLines_lines B options [] (length B) Hmax 0 1 0
                    ltac:(lia) ltac:(lia) (lineNumber r)) as Hl.
      destruct Hl as [Hl _].
      destruct Hl as [Hl _]; [now apply in_map | lia]. }
    rewrite !matchSet_lines by assumption.
    rewrite (rawPositions_app A B options Hcut Hpat).
    split.
    + intros (p & Hp & Hk). apply in_app_or in Hp.
      destruct Hp as [Hp|Hp].
      * pose proof (rawPositions_inside A options p Hcut Hpat Hp) as Hin.
        rewrite between_app_l in Hk by lia.
        pose proof (between_before_last A p Hcut ltac:(lia)). lia.
      * apply in_map_iff in Hp. destruct Hp as (q & <- & Hq).
        rewrite between_app_0 in Hk. exists q. split; [exact Hq | lia].
    + intros (q & Hq & Hk). exists (length A + q).
      split; [apply in_or_app; right; now apply in_map|].
      rewrite between_app_0. lia.
Qed.

(** A region that ends with a newline can be scanned on its own: the
    results for what follows are those of the rest, with the line
    numbers moved by the newlines of the region. *)
Lemma literal_app (A B : list Z) (options : FastGrepOptions) :
  cut A -> patternBytesOk options -> maxCount options = 0 ->
  grepBufferLiteral (A ++ B) options
  = grepBufferLiteral A options
    ++ map (shifted (nlCount A)) (grepBufferLiteral B options).
Proof.
  intros Hcut Hpat Hmax.
  destruct (invertMatch options) eqn:E;
    [now apply invert_app | now apply forward_app].
Qed.

Lemma shifted_shifted (a b : nat) (r : GrepLineResult) :
  shifted a (shifted b r) = shifted (a + b) r.
Proof. unfold shifted. cbn [lineNumber content matches]. f_equal. lia. Qed.

Lemma shifted_zero (rs : list GrepLineResult) : map (shifted 0) rs = rs.
Proof.
  induction rs as [|r rs IH]; simpl; [reflexivity|]. rewrite IH. f_equal.
  destruct r. unfold shifted. cbn [lineNumber content matches].
  now rewrite Nat.add_0_r.
Qed.

(** The read loop on the literal path, from any state: the calls still
    to come are the results of the pending bytes followed by the rest of
    the source, numbered from the lines already consumed. *)
Lemma readLoop_literal (options : FastGrepOptions) :
  isLiteral options = true -> maxCount options = 0 ->
  patternBytesOk options ->
  forall chunks st,
    res_calls (readLoop options chunks st)
    = calls st
      ++ map (shifted (lineOffset st))
           (grepBufferLiteral (buffer st ++ concat chunks) options).
Proof.
  intros Hlit Hmax Hpat.
  induction chunks as [|value rest IH]; intro st; cbn [readLoop concat].
  - rewrite app_nil_r. unfold onDone, scan. rewrite Hlit.
    rewrite deliver_unbounded by assumption.
    destruct (buffer st) as [|b l] eqn:E; cbn [length Nat.ltb Nat.leb].
    + cbn [res_calls]. rewrite grepBufferLiteral_empty. simpl.
      now rewrite app_nil_r.
    + reflexivity.
  - unfold onChunk, scan. rewrite Hlit.
    destruct (lastIndexOf (buffer st ++ value) NEWLINE) as [k|] eqn:Elast.
    + rewrite deliver_unbounded by assumption.
      rewrite IH. cbn [calls lineOffset buffer].
      apply lastIndexOf_Some in Elast. destruct Elast as [Hnl _].
      destruct (slice_complete _ _ Hnl) as [Hshape Hsplit].
      rewrite countNewlines_all.
      set (complete := slice (buffer st ++ value) 0 (k + 1)) in *.
      set (pending := skipn (k + 1) (buffer st ++ value)) in *.
      clearbody complete pending.
      rewrite (app_assoc (buffer st) value), Hsplit.
      rewrite <- (app_assoc complete).
      rewrite (literal_app complete) by
        (auto; right; rewrite Hshape; apply endsWith_app_one).
      rewrite map_app, map_map, <- app_assoc. do 2 f_equal.
      apply map_ext. intro r. rewrite shifted_shifted. reflexivity.
    + rewrite IH. cbn [calls lineOffset buffer].
      now rewrite <- app_assoc.
Qed.

(** On the literal path, without a cap and with a pattern that holds no
    newline, the chunking of the source does not show: the calls of the
    stream driver are the results of one scan of the whole input. *)
Theorem stream_chunking_invisible (options : FastGrepOptions)
    (stream : list Uint8Array) :
  isLiteral options = true -> maxCount options = 0 ->
  patternBytesOk options ->
  res_calls (grepStream stream options)
  = grepBufferLiteral (concat stream) options.
Proof.
  intros Hlit Hmax Hpat. unfold grepStream.
  rewrite (readLoop_literal options Hlit Hmax Hpat stream initial).
  simpl. apply shifted_zero.
Qed.

(** When the pattern holds no newline byte, no occurrence starts on a
    newline, and invert mode is the exact complement of the unfiltered
    forward mode on every buffer. *)
Theorem invert_complement_newline_free_pattern (buffer : Uint8Array)
    (options : FastGrepOptions) (k : nat) :
  patternBytesOk options ->
  wholeWord options = false -> lineRegexp options = false ->
  maxCount options = 0 ->
  (In k (map lineNumber (grepBufferLiteral buffer (withInvert options true)))
   <-> 1 <= k <= lineCountOf buffer
       /\ ~ In k (map lineNumber
                    (grepBufferLiteral buffer (withInvert options false)))).
Proof.
  intros Hpat Hword Hline Hmax.
  apply invert_complement_off_newlines; try assumption.
  apply Forall_forall. intros p Hp.
  now apply (rawPositions_off_newline buffer options).
Qed.

(** ** The lines behind the regex results *)

Lemma regexLines_results (options : FastGrepOptions) (lines : list jsstring) :
  forall i mc r,
    In r (regexLines options lines i mc) ->
    exists j line,
      nth_error lines j = Some line
      /\ test (regex options) line <> invertMatch options
      /\ In r (pushedFor options line (i + j)).
Proof.
  induction lines as [|line lines IH]; intros i mc r; cbn [regexLines];
    [contradiction|].
  assert (forall mc', In r (regexLines options lines (S i) mc') ->
            exists j l, nth_error (line :: lines) j = Some l
                        /\ test (regex options) l <> invertMatch options
                        /\ In r (pushedFor options l (i + j))) as Hrest.
  { intros mc' H. destruct (IH _ _ _ H) as (j & l & Hj & Hsel & Hin).
    exists (S j), l. splits; [exact Hj | exact Hsel|].
    now replace (i + S j) with (S i + j) by lia. }
  destruct (negb (Bool.eqb (test (regex options) line) (invertMatch options)))
    eqn:Esel; [|apply Hrest].
  apply negb_true_iff, eqb_false_iff in Esel.
  assert (In r (pushedFor options line i) ->
          exists j l, nth_error (line :: lines) j = Some l
                      /\ test (regex options) l <> invertMatch options
                      /\ In r (pushedFor options l (i + j))) as Hhere.
  { intro H. exists 0, line. rewrite Nat.add_0_r. splits; auto. }
  destruct (reached options (mc + 1)); [exact Hhere|].
  intro H. apply in_app_or in H. destruct H as [H|H]; [auto | eauto].
Qed.

(** Without cap, the regex path returns line [k] exactly when the
    [k]-th line of the decoded buffer is selected: [test] succeeds on it
    in forward mode, fails on it in invert mode. *)
Theorem regex_selected_lines (buffer : Uint8Array) (options : FastGrepOptions)
    (k : nat) :
  maxCount options = 0 ->
  (In k (map lineNumber (grepBufferRegex buffer options))
   <-> exists j line,
         nth_error (linesOf buffer) j = Some line /\ k = j + 1
         /\ test (regex options) line = negb (invertMatch options)).
Proof.
  intro Hmax. unfold grepBufferRegex.
  rewrite (regexLines_selected options (linesOf buffer) Hmax 0 0 k).
  split; intros (j & line & Hj & Hk & Hsel); exists j, line;
    (splits; [exact Hj | lia |]).
  - destruct (test (regex options) line), (invertMatch options);
      try reflexivity; congruence.
  - rewrite Hsel. now destruct (invertMatch options).
Qed.

(** Under any cap, every result of the regex path stems from the line
    it is numbered with, and that line is selected; its content is the
    whole line, or with only-matching in forward mode a slice of it. *)
Theorem regex_result_is_its_line (buffer : Uint8Array)
    (options : FastGrepOptions) (r : GrepLineResult) :
  In r (grepBufferRegex buffer options) ->
  exists line,
    1 <= lineNumber r
    /\ nth_error (linesOf buffer) (lineNumber r - 1) = Some line
    /\ test (regex options) line = negb (invertMatch options)
    /\ (if onlyMatching options && negb (invertMatch options)
        then exists b e, content r = slice line b e
        else content r = line).
Proof.
  intro Hr. unfold grepBufferRegex in Hr.
  apply regexLines_results in Hr.
  destruct Hr as (j & line & Hj & Hsel & Hin). exists line.
  unfold pushedFor in Hin.
  assert (lineNumber r = j + 1
          /\ (if onlyMatching options && negb (invertMatch options)
              then exists b e, content r = slice line b e
              else content r = line)) as [Hnum Hcontent].
  { destruct (onlyMatching options && negb (invertMatch options)).
    - apply in_map_iff in Hin. destruct Hin as (m & <- & Hm).
      cbn [lineNumber content]. split; [lia|].
      now apply execAll_fragments in Hm.
    - destruct Hin as [<-|[]]. cbn [lineNumber content]. split; [lia|].
      reflexivity. }
  rewrite Hnum. replace (j + 1 - 1) with j by lia.
  splits; [lia | exact Hj | | exact Hcontent].
  destruct (test (regex options) line), (invertMatch options);
    try reflexivity; congruence.
Qed.

(** ** The lines behind the literal results *)

(** [buffer[start .. end_)] is line [k] of the buffer: the window
    starts at the buffer start or just after a newline, ends at the
    buffer end or on a newline, holds no newline, and [k - 1] newlines
    precede it. *)
Definition lineWindow (buffer : list Z) (k start end_ : nat) : Prop :=
  start <= end_ <= length buffer
  /\ (start = 0 \/ at_ buffer (start - 1) = Some NEWLINE)
  /\ (end_ = length buffer \/ at_ buffer end_ = Some NEWLINE)
  /\ ~ In NEWLINE (slice buffer start end_)
  /\ k = 1 + between buffer 0 start.

Lemma extractLineAt_lineWindow (buffer : list Z) (p : nat) :
  p <= length buffer ->
  lineWindow buffer (1 + between buffer 0 p)
    (line_start (extractLineAt buffer p)) (line_end (extractLineAt buffer p))
  /\ line_content (extractLineAt buffer p)
     = decode (slice buffer (line_start (extractLineAt buffer p))
                 (line_end (extractLineAt buffer p))).
Proof.
  intro Hpos. unfold extractLineAt, lineWindow.
  cbn [line_start line_end line_content].
  pose proof (lineStartAt_le buffer p) as Hs.
  destruct (lineStartAt_spec buffer p) as [Hs1 Hs2].
  destruct (lineEndAt_spec buffer (length buffer - p) p (le_n _) Hpos)
    as (He1 & He2 & He3).
  splits; try lia; auto.
  - apply nlCount_zero.
    fold (between buffer (lineStartAt buffer p)
            (lineEndAt buffer p (length buffer - p))).
    rewrite (between_split buffer _ p) by lia. lia.
  - rewrite (between_split buffer 0 (lineStartAt buffer p) p) by lia. lia.
Qed.

Lemma firstPerLine_In (records : list (nat * jsstring)) :
  forall seen e,
    In e (firstPerLine seen records) ->
    fst (fst e) = snd (fst e) /\ In (fst (fst e), snd e) records.
Proof.
  induction records as [|[k c] records IH]; intros seen e; simpl;
    [contradiction|].
  destruct (setHas seen k).
  - intro H. destruct (IH _ _ H). auto.
  - intros [<-|H]; [simpl; auto|]. destruct (IH _ _ H). auto.
Qed.

Lemma In_firstn_list {A : Type} (n : nat) (l : list A) (x : A) :
  In x (firstn n l) -> In x l.
Proof.
  intro H. rewrite <- (firstn_skipn n l). apply in_or_app. now left.
Qed.

(** Every result of forward mode stems from an occurrence that passes
    the filters. *)
Lemma forward_results_recorded (buffer : list Z) (options : FastGrepOptions)
    (r : GrepLineResult) :
  invertMatch options = false ->
  In r (grepBufferLiteral buffer options) ->
  exists p,
    In p (rawPositions buffer options)
    /\ kept buffer options (length (encode (pattern options))) p = true
    /\ lineNumber r = 1 + between buffer 0 p
    /\ content r = if onlyMatching options then pattern options
                   else line_content (extractLineAt buffer p).
Proof.
  intros Hfwd Hr. unfold grepBufferLiteral in Hr. rewrite Hfwd in Hr.
  fold (rawPositions buffer options) in Hr.
  rewrite materialize_strip in Hr.
  assert (In r (map (materialized options)
                  (firstPerLine []
                     (recorded buffer options
                        (length (encode (pattern options)))
                        (rawPositions buffer options))))) as Hin.
  { assert (forall o, maxCount o = 0 ->
              strip (groupByLine buffer o (length (encode (pattern options)))
                       (rawPositions buffer options) 0 1 [])
              = firstPerLine []
                  (recorded buffer o (length (encode (pattern options)))
                     (rawPositions buffer options))) as Hshape.
    { intros o Ho.
      rewrite (groupByLine_firstPerLine buffer o _ _ Ho
                 (rawPositions_sorted buffer options) 0 1 []).
      - reflexivity.
      - apply Forall_forall. intros; lia.
      - now rewrite between_same. }
    destruct (maxCount options) as [|k] eqn:Ek.
    - now rewrite (Hshape options Ek) in Hr.
    - rewrite (groupByLine_capped buffer options (withMaxCount options 0)
                 _ _ eq_refl eq_refl eq_refl eq_refl ltac:(lia) 0 1 [] []
                 eq_refl ltac:(simpl; lia)) in Hr.
      rewrite (Hshape (withMaxCount options 0) eq_refl) in Hr.
      apply in_map_iff in Hr. destruct Hr as (e & He & Hr).
      apply In_firstn_list in Hr.
      apply in_map_iff. exists e. split; [exact He | exact Hr]. }
  apply in_map_iff in Hin. destruct Hin as (e & <- & He).
  apply firstPerLine_In in He. destruct He as [Hsame He].
  unfold recorded in He. apply in_map_iff in He.
  destruct He as (p & Hp & Hkept). apply filter_In in Hkept.
  destruct Hkept as [Hraw Hkept]. injection Hp as Hk Hc.
  exists p. splits; [exact Hraw | exact Hkept | |].
  - unfold materialized. destruct (onlyMatching options);
      cbn [lineNumber]; lia.
  - unfold materialized. destruct (onlyMatching options);
      cbn [content]; [reflexivity | rewrite <- Hc; reflexivity].
Qed.

Lemma collectLines_windows (buffer : list Z) (options : FastGrepOptions)
    (matchSet : list nat) (n : nat) (r : GrepLineResult) :
  forall lineStart lineNum mc,
    lineStart <= length buffer ->
    lineStart = 0 \/ at_ buffer (lineStart - 1) = Some NEWLINE ->
    lineNum = 1 + between buffer 0 lineStart ->
    In r (collectLines buffer options matchSet lineStart lineNum mc n) ->
    exists start end_,
      lineWindow buffer (lineNumber r) start end_
      /\ content r = decode (slice buffer start end_).
Proof.
  induction n as [|n IH]; intros lineStart lineNum mc Hle Hstart Hnum;
    cbn [collectLines]; [contradiction|].
  destruct (Nat.ltb_spec lineStart (length buffer)) as [Hlt|Hge];
    [|contradiction].
  pose proof (between_actualEnd buffer lineStart) as Hzero.
  pose proof (actualEndOf_ge buffer lineStart Hlt) as Hge.
  assert (In r (collectLines buffer options matchSet
                  (actualEndOf buffer lineStart + 1) (lineNum + 1)
                  (mc + 1) n)
          \/ In r (collectLines buffer options matchSet
                     (actualEndOf buffer lineStart + 1) (lineNum + 1) mc n) ->
          exists start end_,
            lineWindow buffer (lineNumber r) start end_
            /\ content r = decode (slice buffer start end_)) as Hrest.
  { intro Hin.
    destruct (actualEndOf_cases buffer lineStart Hlt)
      as [(Hend & _ & Hnl)|[Hend _]].
    - assert (lineNum + 1
              = 1 + between buffer 0 (actualEndOf buffer lineStart + 1))
        as Hnext.
      { replace (actualEndOf buffer lineStart + 1)
          with (S (actualEndOf buffer lineStart)) by lia.
        rewrite (between_split buffer 0 lineStart) by lia.
        rewrite (between_split buffer lineStart (actualEndOf buffer lineStart))
          by lia.
        rewrite (between_one buffer _ Hnl). lia. }
      assert (at_ buffer (actualEndOf buffer lineStart + 1 - 1)
              = Some NEWLINE) as Hprev
        by (now rewrite Nat.add_sub).
      destruct Hin as [Hin|Hin];
        (eapply IH; [| | | exact Hin];
         [lia | right; exact Hprev | exact Hnext]).
    - rewrite !collectLines_beyond in Hin by lia. now destruct Hin. }
  assert (exists start end_,
            lineWindow buffer lineNum start end_
            /\ decode (slice buffer lineStart (actualEndOf buffer lineStart))
               = decode (slice buffer start end_)) as Hhere.
  { exists lineStart, (actualEndOf buffer lineStart).
    split; [|reflexivity]. unfold lineWindow. splits; auto.
    - destruct (actualEndOf_cases buffer lineStart Hlt)
        as [(Hend & _ & _)|[Hend _]]; lia.
    - destruct (actualEndOf_cases buffer lineStart Hlt)
        as [(_ & _ & Hnl)|[Hend _]]; auto.
    - now apply nlCount_zero. }
  destruct (negb (setHas matchSet lineNum)); [|auto].
  destruct (reached options (mc + 1)).
  - intros [<-|[]]. exact Hhere.
  - intros [<-|Hin]; [exact Hhere | auto].
Qed.

(** Under any cap and any filter, a result of the literal path that
    carries a line (any result of invert mode, and of forward mode
    without only-matching) carries the line it is numbered with: its
    content is the decoding of the bytes of that line of the buffer,
    from line start to line end, newline excluded. *)
Theorem literal_result_is_its_line (buffer : Uint8Array)
    (options : FastGrepOptions) (r : GrepLineResult) :
  onlyMatching options = false \/ invertMatch options = true ->
  In r (grepBufferLiteral buffer options) ->
  exists start end_,
    lineWindow buffer (lineNumber r) start end_
    /\ content r = decode (slice buffer start end_).
Proof.
  intros Hopt Hr. destruct (invertMatch options) eqn:Einv.
  - unfold grepBufferLiteral in Hr. rewrite Einv in Hr.
    unfold grepBufferInvert in Hr.
    eapply (collectLines_windows buffer options); [| | | exact Hr].
    + lia.
    + now left.
    + now rewrite between_same.
  - destruct Hopt as [Hom|]; [|discriminate].
    destruct (forward_results_recorded buffer options r Einv Hr)
      as (p & Hraw & _ & Hnum & Hcontent).
    rewrite Hom in Hcontent.
    pose proof (positions_bound buffer options) as Hb.
    fold (rawPositions buffer options) in Hb.
    rewrite Forall_forall in Hb. specialize (Hb p Hraw).
    destruct (extractLineAt_lineWindow buffer p ltac:(lia)) as [Hw Hc].
    exists (line_start (extractLineAt buffer p)),
      (line_end (extractLineAt buffer p)).
    rewrite Hnum, Hcontent. auto.
Qed.

(** ** A cap only truncates the calls of the stream driver *)

(** The line loop under a cap returns a prefix of what it returns
    without, and all of it unless the cap is reached. *)
Lemma regexLines_capped (options : FastGrepOptions) (k : nat)
    (lines : list jsstring) :
  0 < k ->
  forall i mc mc0,
    mc < k ->
    exists n,
      regexLines (withMaxCount options k) lines i mc
      = firstn n (regexLines (withMaxCount options 0) lines i mc0)
      /\ (k <= mc + length (regexLines (withMaxCount options k) lines i mc)
          \/ regexLines (withMaxCount options k) lines i mc
             = regexLines (withMaxCount options 0) lines i mc0).
Proof.
  intro Hk. induction lines as [|line lines IH]; intros i mc mc0 Hmc;
    cbn [regexLines].
  - exists 0. split; [reflexivity | now right].
  - change (regex (withMaxCount options k)) with (regex options).
    change (regex (withMaxCount options 0)) with (regex options).
    change (invertMatch (withMaxCount options k)) with (invertMatch options).
    change (invertMatch (withMaxCount options 0)) with (invertMatch options).
    change (pushedFor (withMaxCount options k) line i)
      with (pushedFor options line i).
    change (pushedFor (withMaxCount options 0) line i)
      with (pushedFor options line i).
    destruct (negb (Bool.eqb (test (regex options) line)
                      (invertMatch options))) eqn:Esel; [|now apply IH].
    destruct (pushedFor_selected options line i Esel) as (m & Hm).
    assert (0 < length (pushedFor options line i)) as Hpushed.
    { rewrite <- (length_map lineNumber), Hm, repeat_length. lia. }
    rewrite (reached_unbounded (withMaxCount options 0)) by reflexivity.
    destruct (reached (withMaxCount options k) (mc + 1)) eqn:Ereached.
    + exists (length (pushedFor options line i)). split.
      * now rewrite firstn_app, Nat.sub_diag, firstn_all, firstn_O, app_nil_r.
      * left. apply reached_iff in Ereached.
        cbn [withMaxCount maxCount] in Ereached. lia.
    + assert (mc + 1 < k) as Hnext.
      { destruct (Nat.lt_ge_cases (mc + 1) k); [assumption|].
        assert (reached (withMaxCount options k) (mc + 1) = true)
          by (apply reached_iff; cbn [withMaxCount maxCount]; lia).
        congruence. }
      destruct (IH (S i) (mc + 1) (mc0 + 1) Hnext) as (n & Hn & Hfull).
      exists (length (pushedFor options line i) + n). split.
      * rewrite firstn_app_2. now rewrite Hn.
      * rewrite length_app.
        destruct Hfull as [Hfull|Hfull]; [left; lia | right].
        now rewrite Hfull.
Qed.

Lemma scan_capped (region : list Z) (options : FastGrepOptions) (k : nat) :
  0 < k ->
  exists n,
    scan region (withMaxCount options k)
    = firstn n (scan region (withMaxCount options 0))
    /\ (k <= length (scan region (withMaxCount options k))
        \/ scan region (withMaxCount options k)
           = scan region (withMaxCount options 0)).
Proof.
  intro Hk. unfold scan. cbn [withMaxCount isLiteral].
  destruct (isLiteral options).
  - exists k. rewrite (grepBufferLiteral_capped region options k Hk).
    split; [reflexivity|].
    destruct (Nat.le_gt_cases k
                (length (grepBufferLiteral region (withMaxCount options 0)))).
    + left. rewrite length_firstn. lia.
    + right. apply firstn_all2. lia.
  - unfold grepBufferRegex.
    destruct (regexLines_capped options k (linesOf region) Hk 0 0 0 Hk)
      as (n & Hn & Hfull).
    exists n. split; [exact Hn|]. simpl in Hfull. exact Hfull.
Qed.

Lemma prefix_agrees {A : Type} (n m : nat) (short long more : list A) :
  short = firstn n long -> m <= length short ->
  firstn m (long ++ more) = firstn m short.
Proof.
  intros -> Hm. rewrite length_firstn in Hm.
  rewrite firstn_firstn. replace (Nat.min m n) with m by lia.
  rewrite firstn_app. replace (m - length long) with 0 by lia.
  now rewrite firstn_O, app_nil_r.
Qed.

Lemma readLoop_calls_extend (options : FastGrepOptions)
    (chunks : list Uint8Array) :
  forall st,
  exists more, res_calls (readLoop options chunks st) = calls st ++ more.
Proof.
  induction chunks as [|v chunks IH]; intro st; cbn [readLoop].
  - unfold onDone. destruct (Nat.ltb 0 (length (buffer st))).
    + destruct (deliver _ _ _ _) as [[made mc] ?]. cbn [res_calls]. eauto.
    + exists []. cbn [res_calls]. now rewrite app_nil_r.
  - unfold onChunk.
    destruct (lastIndexOf (buffer st ++ v) NEWLINE) as [k|].
    + destruct (deliver _ _ _ _) as [[made mc] stopped].
      destruct stopped; [cbn [res_calls]; eauto|].
      destruct (IH (mkStreamState (skipn (k + 1) (buffer st ++ v))
                      (lineOffset st
                       + countNewlines (slice (buffer st ++ v) 0 (k + 1)) 0
                           (length (slice (buffer st ++ v) 0 (k + 1))))
                      mc (calls st ++ made)
                      (scanned st ++ [slice (buffer st ++ v) 0 (k + 1)])))
        as [more Hmore].
      rewrite Hmore. cbn [calls]. rewrite <- app_assoc. eauto.
    + destruct (IH (mkStreamState (buffer st ++ v) (lineOffset st)
                      (matchCount st) (calls st) (scanned st)))
        as [more Hmore].
      rewrite Hmore. cbn [calls]. eauto.
Qed.

(** Two runs of the read loop, one under the cap [k] and one without,
    from states that agree: the capped run makes the first [k] calls of
    the other. *)
Lemma readLoop_capped (options : FastGrepOptions) (k : nat)
    (chunks : list Uint8Array) :
  0 < k ->
  forall stk st0,
    buffer stk = buffer st0 -> lineOffset stk = lineOffset st0 ->
    calls stk = calls st0 ->
    matchCount stk = length (calls stk) -> length (calls stk) < k ->
    res_calls (readLoop (withMaxCount options k) chunks stk)
    = firstn k (res_calls (readLoop (withMaxCount options 0) chunks st0)).
Proof.
  intro Hk.
  assert (forall (cs : list GrepLineResult) off region more,
            length cs < k ->
            (let Rk := scan region (withMaxCount options k) in
             let R0 := scan region (withMaxCount options 0) in
             (length cs + length Rk < k /\ Rk = R0)
             \/ (k <= length cs + length Rk
                 /\ cs ++ map (shifted off) (firstn (k - length cs) Rk)
                    = firstn k ((cs ++ map (shifted off) R0) ++ more))))
    as Hregion.
  { intros cs off region more Hcs. cbv zeta.
    destruct (scan_capped region options k Hk) as (n & Hn & Hfull).
    destruct (Nat.lt_ge_cases
                (length cs + length (scan region (withMaxCount options k))) k)
      as [Hlt|Hge].
    - left. split; [exact Hlt|]. destruct Hfull as [Hfull|Hfull]; [lia|].
      exact Hfull.
    - right. split; [exact Hge|].
      rewrite <- app_assoc, firstn_app.
      rewrite (firstn_all2 cs) by lia. f_equal.
      rewrite <- firstn_map. symmetry.
      apply (prefix_agrees n).
      + now rewrite Hn, firstn_map.
      + rewrite length_map. lia. }
  induction chunks as [|v chunks IH];
    intros stk st0 Hbuf Hoff Hcalls Hmc Hbelow; cbn [readLoop].
  - unfold onDone. rewrite <- Hbuf, <- Hoff, <- Hcalls, Hmc.
    destruct (Nat.ltb 0 (length (buffer stk))).
    + rewrite (deliver_unbounded (withMaxCount options 0)) by reflexivity.
      cbn [res_calls].
      destruct (Hregion (calls stk) (lineOffset stk) (buffer stk) []
                  Hbelow) as [[Hlt Hsame]|[Hge Hcut]].
      * rewrite deliver_below by (cbn [withMaxCount maxCount]; lia).
        cbn [res_calls]. rewrite Hsame. symmetry. apply firstn_all2.
        rewrite length_app, length_map, <- Hsame. lia.
      * rewrite deliver_capped by (cbn [withMaxCount maxCount]; lia).
        cbn [res_calls withMaxCount maxCount].
        rewrite app_nil_r in Hcut. exact Hcut.
    + cbn [res_calls]. symmetry. apply firstn_all2. lia.
  - unfold onChunk. rewrite <- Hbuf, <- Hoff, <- Hcalls, Hmc.
    destruct (lastIndexOf (buffer stk ++ v) NEWLINE) as [j|].
    + rewrite (deliver_unbounded (withMaxCount options 0)) by reflexivity.
      set (region := slice (buffer stk ++ v) 0 (j + 1)).
      set (next0 := mkStreamState _ _ _ _ (scanned st0 ++ [region])).
      destruct (readLoop_calls_extend (withMaxCount options 0) chunks next0)
        as [more Hmore].
      destruct (Hregion (calls stk) (lineOffset stk) region more Hbelow)
        as [[Hlt Hsame]|[Hge Hcut]].
      * rewrite deliver_below by (cbn [withMaxCount maxCount]; lia).
        apply IH; cbn [buffer lineOffset calls matchCount]; auto.
        -- now rewrite Hsame.
        -- now rewrite length_app, length_map.
        -- rewrite length_app, length_map. lia.
      * rewrite deliver_capped by (cbn [withMaxCount maxCount]; lia).
        cbn [res_calls withMaxCount maxCount].
        rewrite Hmore. subst next0. cbn [calls]. exact Hcut.
    + apply IH; cbn [buffer lineOffset calls matchCount]; auto.
Qed.

(** A positive [maxCount] only truncates the stream: on either path the
    calls of [onResult] under the cap [k] are the first [k] of the calls
    made without a cap. *)
Theorem stream_maxCount_prefix (options : FastGrepOptions)
    (stream : list Uint8Array) (k : nat) :
  0 < k ->
  res_calls (grepStream stream (withMaxCount options k))
  = firstn k (res_calls (grepStream stream (withMaxCount options 0))).
Proof.
  intro Hk. unfold grepStream.
  apply readLoop_capped; auto.
Qed.

(** ** The offsets kept by the literal aggregator *)

















(** ** Instances of the further properties *)

(** "foo" in "Foo foo". *)
Lemma ignoreCase_scan_folds_witness :
  let chunk := [70; 111; 111; 32; 102; 111; 111]%Z in
  let pattern := [102; 111; 111]%Z in
  Forall isByte pattern
  /\ incl (findPatternPositions chunk pattern)
          (findPatternPositionsIgnoreCase chunk pattern)
  /\ findPatternPositionsIgnoreCase chunk pattern
     = findPatternPositionsIgnoreCase (map toLowerAscii chunk)
         (map toLowerAscii pattern).
Proof.
  cbv zeta.
  assert (Forall isByte [102; 111; 111]%Z) as Hbytes
    by (repeat constructor; unfold isByte; lia).
  split; [exact Hbytes|].
  exact (ignoreCase_scan_folds [70; 111; 111; 32; 102; 111; 111]%Z
           [102; 111; 111]%Z Hbytes).
Defined.

(** Offset 3 of "a\nbc\nd" lies on the line "bc", bytes 2 to 4. *)
Lemma extractLineAt_window_witness :
  let chunk := [97; 10; 98; 99; 10; 100]%Z in
  let line := extractLineAt chunk 3 in
  3 <= length chunk
  /\ line_start line <= 3 <= line_end line
  /\ line_end line <= length chunk
  /\ (line_start line = 0
      \/ at_ chunk (line_start line - 1) = Some NEWLINE)
  /\ (line_end line = length chunk
      \/ at_ chunk (line_end line) = Some NEWLINE)
  /\ ~ In NEWLINE (slice chunk (line_start line) (line_end line))
  /\ line_content line
     = decode (slice chunk (line_start line) (line_end line)).
Proof.
  cbv zeta. split; [simpl; lia|].
  apply (extractLineAt_window [97; 10; 98; 99; 10; 100]%Z 3).
  simpl. lia.
Defined.

(** "a\nb\n" cut at offset 2. *)
Lemma countNewlines_ranges_witness :
  let chunk := [97; 10; 98; 10]%Z in
  0 <= 2 /\ 2 <= 4
  /\ countNewlines chunk 0 4 = countNewlines chunk 0 2 + countNewlines chunk 2 4
  /\ countNewlines chunk 0 2 <= 2 - 0
  /\ (length chunk <= 2 -> countNewlines chunk 0 2
                           = countNewlines chunk 0 (length chunk)).
Proof.
  cbv zeta. split; [lia|]. split; [lia|].
  apply (countNewlines_ranges [97; 10; 98; 10]%Z 0 2 4); lia.
Defined.

(** "a" in "a\na\na\n" with a cap of two. *)
Lemma literal_maxCount_prefix_witness :
  let options := literalOptions (lit "a") globalEmpty 0 in
  let buffer := [97; 10; 97; 10; 97; 10]%Z in
  0 < 2
  /\ grepBufferLiteral buffer (withMaxCount options 2)
     = firstn 2 (grepBufferLiteral buffer (withMaxCount options 0)).
Proof.
  cbv zeta. split; [lia|].
  apply (literal_maxCount_prefix [97; 10; 97; 10; 97; 10]%Z
           (literalOptions (lit "a") globalEmpty 0) 2).
  lia.
Defined.

(** "a" in "b\na\n": line 2. *)
Lemma literal_forward_lines_witness :
  let options := literalOptions (lit "a") globalEmpty 0 in
  let buffer := [98; 10; 97; 10]%Z in
  invertMatch options = false /\ maxCount options = 0
  /\ (In 2 (map lineNumber (grepBufferLiteral buffer options))
      <-> exists p, In p (rawPositions buffer options)
                    /\ kept buffer options (length (encode (pattern options)))
                         p = true
                    /\ 2 = 1 + countNewlines buffer 0 p).
Proof.
  cbv zeta. split; [reflexivity|]. split; [reflexivity|].
  apply (literal_forward_lines [98; 10; 97; 10]%Z
           (literalOptions (lit "a") globalEmpty 0) 2); reflexivity.
Defined.

(** The whole word "a" in "ab\na\n". *)
Lemma literal_filters_only_remove_witness :
  let options :=
    mkOptions (lit "a") globalEmpty true false false true false 0 false in
  let buffer := [97; 98; 10; 97; 10]%Z in
  invertMatch options = false /\ maxCount options = 0
  /\ incl (map lineNumber (grepBufferLiteral buffer options))
          (map lineNumber (grepBufferLiteral buffer (withoutFilters options))).
Proof.
  cbv zeta. split; [reflexivity|]. split; [reflexivity|].
  apply (literal_filters_only_remove [97; 98; 10; 97; 10]%Z
           (mkOptions (lit "a") globalEmpty true false false true false 0
              false)); reflexivity.
Defined.

(** The whole line "a" in "ab\na\n". *)
Lemma literal_lineRegexp_content_witness :
  let options :=
    mkOptions (lit "a") globalEmpty true false false false true 0 false in
  let buffer := [97; 98; 10; 97; 10]%Z in
  let r := mkResult 2 [97%Z] None in
  lineRegexp options = true /\ invertMatch options = false
  /\ In r (grepBufferLiteral buffer options)
  /\ content r = pattern options.
Proof.
  cbv zeta.
  assert (In (mkResult 2 [97%Z] None)
            (grepBufferLiteral [97; 98; 10; 97; 10]%Z
               (mkOptions (lit "a") globalEmpty true false false false true 0
                  false))) as Hin
    by (left; reflexivity).
  split; [reflexivity|]. split; [reflexivity|]. split; [exact Hin|].
  exact (literal_lineRegexp_content [97; 98; 10; 97; 10]%Z
           (mkOptions (lit "a") globalEmpty true false false false true 0
              false)
           (mkResult 2 [97%Z] None) eq_refl eq_refl Hin).
Defined.

(** "a" in "a\nb" delivered as "a\n" and "b". *)
Lemma contents_are_single_lines_witness :
  let options := literalOptions (lit "a") globalEmpty 0 in
  let region := [97; 10; 98]%Z in
  let stream := [[97; 10]; [98]]%Z in
  singleLine options
  /\ Forall newlineFree (grepBufferLiteral region options)
  /\ Forall newlineFree (res_calls (grepStream stream options)).
Proof.
  cbv zeta.
  destruct (contents_are_single_lines (literalOptions (lit "a") globalEmpty 0)
              [97; 10; 98]%Z [[97; 10]; [98]]%Z) as (_ & Hlit & Hstream).
  assert (singleLine (literalOptions (lit "a") globalEmpty 0)) as Hsingle
    by (right; left; reflexivity).
  split; [exact Hsingle|].
  split; [apply Hlit; left; reflexivity | exact (Hstream Hsingle)].
Defined.

(** "abc" cannot occur in "a\n". *)
Lemma literal_pattern_cannot_occur_witness :
  let options := literalOptions (lit "abc") globalEmpty 0 in
  let buffer := [97; 10]%Z in
  length buffer < length (encode (pattern options))
  /\ grepBufferLiteral buffer options = []
  /\ map lineNumber (grepBufferLiteral buffer (withInvert options true))
     = seq 1 (lineCountOf buffer).
Proof.
  cbv zeta.
  assert (length [97; 10]%Z
          < length (encode (pattern (literalOptions (lit "abc") globalEmpty 0))))
    as Hshort by (vm_compute; lia).
  split; [exact Hshort|]. split.
  - apply (literal_pattern_cannot_occur [97; 10]%Z
             (literalOptions (lit "abc") globalEmpty 0) (or_intror Hshort)).
    reflexivity.
  - apply (literal_pattern_cannot_occur [97; 10]%Z
             (withInvert (literalOptions (lit "abc") globalEmpty 0) true)
             (or_intror Hshort)); reflexivity.
Defined.

(** /a/g on "a\nb". *)
Lemma regex_lines_in_range_witness :
  let options :=
    mkOptions [] (globalChar 97) false false false false false 0 false in
  let buffer := [97; 10; 98]%Z in
  let r := mkResult 1 [97%Z] None in
  buffer <> []
  /\ In r (grepBufferRegex buffer options)
  /\ 1 <= lineNumber r <= lineCountOf buffer.
Proof.
  cbv zeta.
  assert (In (mkResult 1 [97%Z] None)
            (grepBufferRegex [97; 10; 98]%Z
               (mkOptions [] (globalChar 97) false false false false false 0
                  false))) as Hin
    by (left; reflexivity).
  split; [discriminate|]. split; [exact Hin|].
  apply (regex_lines_in_range [97; 10; 98]%Z
           (mkOptions [] (globalChar 97) false false false false false 0 false)
           (mkResult 1 [97%Z] None)); [discriminate | exact Hin].
Defined.

(** /a/g on "a\nb": line 2 is the inverted result. *)
Lemma regex_invert_complement_witness :
  let options :=
    mkOptions [] (globalChar 97) false false false false false 0 false in
  let buffer := [97; 10; 98]%Z in
  buffer <> [] /\ maxCount options = 0
  /\ (In 2 (map lineNumber (grepBufferRegex buffer (withInvert options true)))
      <-> 1 <= 2 <= lineCountOf buffer
          /\ ~ In 2 (map lineNumber
                       (grepBufferRegex buffer (withInvert options false)))).
Proof.
  cbv zeta. split; [discriminate|]. split; [reflexivity|].
  apply (regex_invert_complement [97; 10; 98]%Z
           (mkOptions [] (globalChar 97) false false false false false 0 false)
           2); [discriminate | reflexivity].
Defined.

(** "a" in "xay\nb\n", forward. *)
Lemma literal_onlyMatching_content_witness :
  let options := literalOptions (lit "a") globalEmpty 0 in
  let buffer := [120; 97; 121; 10; 98; 10]%Z in
  invertMatch options = false
  /\ grepBufferLiteral buffer (withOnlyMatching options true)
     = map (fun r => mkResult (lineNumber r) (pattern options) None)
         (grepBufferLiteral buffer (withOnlyMatching options false)).
Proof.
  cbv zeta. split; [reflexivity|].
  apply (literal_onlyMatching_content [120; 97; 121; 10; 98; 10]%Z
           (literalOptions (lit "a") globalEmpty 0)).
  reflexivity.
Defined.

(** "b" in "a\nbc\nd" delivered as "a\nb" and "c\nd". *)
Lemma stream_lineNumbers_within_lineCount_witness :
  let options := literalOptions (lit "b") globalEmpty 0 in
  let stream := [[97; 10; 98]; [99; 10; 100]]%Z in
  let call := mkResult 2 [98; 99]%Z None in
  In call (res_calls (grepStream stream options))
  /\ 1 <= lineNumber call <= res_lineCount (grepStream stream options).
Proof.
  cbv zeta.
  assert (In (mkResult 2 [98; 99]%Z None)
            (res_calls (grepStream [[97; 10; 98]; [99; 10; 100]]%Z
                          (literalOptions (lit "b") globalEmpty 0)))) as Hin
    by (left; reflexivity).
  split; [exact Hin|].
  exact (stream_lineNumbers_within_lineCount
           (literalOptions (lit "b") globalEmpty 0)
           [[97; 10; 98]; [99; 10; 100]]%Z (mkResult 2 [98; 99]%Z None) Hin).
Defined.

(** "bc" in "a\nbc\nd" delivered as "a\nb" and "c\nd". *)
Lemma stream_chunking_invisible_witness :
  let options := literalOptions (lit "bc") globalEmpty 0 in
  let stream := [[97; 10; 98]; [99; 10; 100]]%Z in
  isLiteral options = true /\ maxCount options = 0
  /\ patternBytesOk options
  /\ res_calls (grepStream stream options)
     = grepBufferLiteral (concat stream) options.
Proof.
  cbv zeta.
  assert (patternBytesOk (literalOptions (lit "bc") globalEmpty 0)) as Hpat.
  { split.
    - change (Forall isByte [98; 99]%Z).
      repeat constructor; unfold isByte; lia.
    - change (~ In NEWLINE [98; 99]%Z). unfold NEWLINE.
      intros [H|[H|[]]]; discriminate. }
  split; [reflexivity|]. split; [reflexivity|]. split; [exact Hpat|].
  exact (stream_chunking_invisible (literalOptions (lit "bc") globalEmpty 0)
           [[97; 10; 98]; [99; 10; 100]]%Z eq_refl eq_refl Hpat).
Defined.

(** "a" in "a\nb\n": line 2 is the inverted result. *)
Lemma invert_complement_newline_free_pattern_witness :
  let options := literalOptions (lit "a") globalEmpty 0 in
  let buffer := [97; 10; 98; 10]%Z in
  patternBytesOk options
  /\ wholeWord options = false /\ lineRegexp options = false
  /\ maxCount options = 0
  /\ (In 2 (map lineNumber (grepBufferLiteral buffer (withInvert options true)))
      <-> 1 <= 2 <= lineCountOf buffer
          /\ ~ In 2 (map lineNumber
                       (grepBufferLiteral buffer (withInvert options false)))).
Proof.
  cbv zeta.
  assert (patternBytesOk (literalOptions (lit "a") globalEmpty 0)) as Hpat.
  { split.
    - change (Forall isByte [97]%Z).
      repeat constructor; unfold isByte; lia.
    - change (~ In NEWLINE [97]%Z). unfold NEWLINE.
      intros [H|[]]; discriminate. }
  split; [exact Hpat|].
  split; [reflexivity|]. split; [reflexivity|]. split; [reflexivity|].
  exact (invert_complement_newline_free_pattern [97; 10; 98; 10]%Z
           (literalOptions (lit "a") globalEmpty 0) 2 Hpat
           eq_refl eq_refl eq_refl).
Defined.

(** /a/g on "b\na": line 2 is selected. *)
Lemma regex_selected_lines_witness :
  let options :=
    mkOptions [] (globalChar 97) false false false false false 0 false in
  let buffer := [98; 10; 97]%Z in
  maxCount options = 0
  /\ (In 2 (map lineNumber (grepBufferRegex buffer options))
      <-> exists j line,
            nth_error (linesOf buffer) j = Some line /\ 2 = j + 1
            /\ test (regex options) line = negb (invertMatch options)).
Proof.
  cbv zeta. split; [reflexivity|].
  apply (regex_selected_lines [98; 10; 97]%Z
           (mkOptions [] (globalChar 97) false false false false false 0 false)
           2).
  reflexivity.
Defined.

(** /a/g with only-matching on "b\nxa": the fragment "a" of line 2. *)
Lemma regex_result_is_its_line_witness :
  let options :=
    mkOptions [] (globalChar 97) false false false false false 0 true in
  let buffer := [98; 10; 120; 97]%Z in
  let r := mkResult 2 [97%Z] None in
  In r (grepBufferRegex buffer options)
  /\ exists line,
       1 <= lineNumber r
       /\ nth_error (linesOf buffer) (lineNumber r - 1) = Some line
       /\ test (regex options) line = negb (invertMatch options)
       /\ (if onlyMatching options && negb (invertMatch options)
           then exists b e, content r = slice line b e
           else content r = line).
Proof.
  cbv zeta.
  assert (In (mkResult 2 [97%Z] None)
            (grepBufferRegex [98; 10; 120; 97]%Z
               (mkOptions [] (globalChar 97) false false false false false 0
                  true))) as Hin
    by (left; reflexivity).
  split; [exact Hin|].
  exact (regex_result_is_its_line [98; 10; 120; 97]%Z
           (mkOptions [] (globalChar 97) false false false false false 0 true)
           (mkResult 2 [97%Z] None) Hin).
Defined.

(** "a" in "b\nxa\n": line 2 is bytes 2 to 4. *)
Lemma literal_result_is_its_line_witness :
  let options := literalOptions (lit "a") globalEmpty 0 in
  let buffer := [98; 10; 120; 97; 10]%Z in
  let r := mkResult 2 [120; 97]%Z None in
  (onlyMatching options = false \/ invertMatch options = true)
  /\ In r (grepBufferLiteral buffer options)
  /\ exists start end_,
       lineWindow buffer (lineNumber r) start end_
       /\ content r = decode (slice buffer start end_).
Proof.
  cbv zeta.
  assert (In (mkResult 2 [120; 97]%Z None)
            (grepBufferLiteral [98; 10; 120; 97; 10]%Z
               (literalOptions (lit "a") globalEmpty 0))) as Hin
    by (left; reflexivity).
  split; [left; reflexivity|]. split; [exact Hin|].
  exact (literal_result_is_its_line [98; 10; 120; 97; 10]%Z
           (literalOptions (lit "a") globalEmpty 0)
           (mkResult 2 [120; 97]%Z None) (or_introl eq_refl) Hin).
Defined.

(** "a" in "a\na\na\n" delivered as "a\na" and "\na\n", cap two. *)
Lemma stream_maxCount_prefix_witness :
  let options := literalOptions (lit "a") globalEmpty 0 in
  let stream := [[97; 10; 97]; [10; 97; 10]]%Z in
  0 < 2
  /\ res_calls (grepStream stream (withMaxCount options 2))
     = firstn 2 (res_calls (grepStream stream (withMaxCount options 0))).
Proof.
  cbv zeta. split; [lia|].
  apply (stream_maxCount_prefix (literalOptions (lit "a") globalEmpty 0)
           [[97; 10; 97]; [10; 97; 10]]%Z 2).
  lia.
Defined.


From Stdlib Require Import Permutation.

(** * help: the listing of the available commands

    The module that follows [fast-grep.ts] in the source file: the table
    of built-in categories, [formatHelp] and the [help] command. *)

Module Help.

(** The fields of a [Command] that [formatHelp] reads; [category] is
    optional. *)
Record Command := mkCommand {
  name : jsstring;
  category : option jsstring
}.

(** A [Map] with string keys: its entries in insertion order. *)
Definition StringMap (V : Type) := list (jsstring * V).

Definition Map_has {V : Type} (m : StringMap V) (key : jsstring) : bool :=
  existsb (fun e => jsstring_eqb (fst e) key) m.

Fixpoint Map_get {V : Type} (m : StringMap V) (key : jsstring) : option V :=
  match m with
  | [] => None
  | (k, v) :: rest => if jsstring_eqb k key then Some v else Map_get rest key
  end.

(** [m.set(key, value)]: an existing key keeps its place. *)
Fixpoint Map_set {V : Type} (m : StringMap V) (key : jsstring) (value : V)
  : StringMap V :=
  match m with
  | [] => [(key, value)]
  | (k, v) :: rest =>
    if jsstring_eqb k key then (k, value) :: rest
    else (k, v) :: Map_set rest key value
  end.

Definition Map_delete {V : Type} (m : StringMap V) (key : jsstring)
  : StringMap V :=
  filter (fun e => negb (jsstring_eqb (fst e) key)) m.

Definition Map_keys {V : Type} (m : StringMap V) : list jsstring := map fst m.

(** [a < b] on strings: by code units, a proper prefix first. *)
Fixpoint stringLt (a b : jsstring) : bool :=
  match a, b with
  | _, [] => false
  | [], _ :: _ => true
  | x :: a', y :: b' =>
    if Z.ltb x y then true
    else if Z.ltb y x then false
    else stringLt a' b'
  end.

(** [names.sort()] without a comparator: ascending by code units,
    stable. *)
Fixpoint insert (x : jsstring) (sorted : list jsstring) : list jsstring :=
  match sorted with
  | [] => [x]
  | y :: rest => if stringLt y x then y :: insert x rest else x :: sorted
  end.

Definition sort (names : list jsstring) : list jsstring :=
  fold_right insert [] names.

(** [parts.join(sep)] *)
Fixpoint join (parts : list jsstring) (sep : jsstring) : jsstring :=
  match parts with
  | [] => []
  | [p] => p
  | p :: rest => p ++ sep ++ join rest sep
  end.

Definition LEGACY_CATEGORIES : list (jsstring * list jsstring) :=
  [ (lit "File operations",
     map lit ["ls"; "cat"; "head"; "tail"; "wc"; "touch"; "mkdir"; "rm";
              "cp"; "mv"; "ln"; "chmod"; "stat"; "readlink"]%string);
    (lit "Text processing",
     map lit ["grep"; "sed"; "awk"; "sort"; "uniq"; "cut"; "tr"; "tee";
              "diff"]%string);
    (lit "Search", map lit ["find"]%string);
    (lit "Navigation & paths",
     map lit ["pwd"; "basename"; "dirname"; "tree"; "du"]%string);
    (lit "Environment & shell",
     map lit ["echo"; "printf"; "env"; "printenv"; "export"; "alias";
              "unalias"; "history"; "clear"; "true"; "false"; "bash";
              "sh"]%string);
    (lit "Data processing",
     map lit ["xargs"; "jq"; "base64"; "date"]%string);
    (lit "Network", map lit ["curl"; "html-to-markdown"]%string) ].

(** The reverse lookup, filled by the two nested loops. *)
Definition LEGACY_CMD_TO_CAT : StringMap jsstring :=
  fold_left
    (fun m entry =>
       fold_left (fun m cmd => Map_set m cmd (fst entry)) (snd entry) m)
    LEGACY_CATEGORIES [].

Definition CATEGORY_ORDER : list jsstring :=
  map lit ["File operations"; "Text processing"; "Search";
           "Navigation & paths"; "Environment & shell"; "Data processing";
           "Network"; "Other"]%string.

(** [cmd.category ?? LEGACY_CMD_TO_CAT.get(cmd.name) ?? "Other"] *)
Definition categoryOf (cmd : Command) : jsstring :=
  match category cmd with
  | Some c => c
  | None =>
    match Map_get LEGACY_CMD_TO_CAT (name cmd) with
    | Some c => c
    | None => lit "Other"
    end
  end.

(** The body of the first loop of [formatHelp]. *)
Definition file (categorized : StringMap (list jsstring)) (cmd : Command)
  : StringMap (list jsstring) :=
  let category := categoryOf cmd in
  let categorized :=
    if negb (Map_has categorized category)
    then Map_set categorized category []
    else categorized in
  match Map_get categorized category with
  | Some names => Map_set categorized category (names ++ [name cmd])
  | None => categorized
  end.

(** The two lines pushed for a category. *)
Definition section (cat : jsstring) (cmds : list jsstring) : list jsstring :=
  [ lit "  " ++ cat ++ lit ":";
    lit "    " ++ join cmds (lit ", ") ++ [NEWLINE] ].

(** The loop over [CATEGORY_ORDER]. *)
Fixpoint displayOrdered (order : list jsstring)
    (categorized : StringMap (list jsstring)) (lines : list jsstring)
  : StringMap (list jsstring) * list jsstring :=
  match order with
  | [] => (categorized, lines)
  | cat :: rest =>
    if Map_has categorized cat then
      match Map_get categorized cat with
      | Some names =>
        displayOrdered rest (Map_delete categorized cat)
          (lines ++ section cat (sort names))
      | None => displayOrdered rest (Map_delete categorized cat) lines
      end
    else displayOrdered rest categorized lines
  end.

(** The loop over the remaining categories. *)
Fixpoint displayRemaining (remainingCats : list jsstring)
    (categorized : StringMap (list jsstring)) (lines : list jsstring)
  : list jsstring :=
  match remainingCats with
  | [] => lines
  | cat :: rest =>
    match Map_get categorized cat with
    | Some names =>
      displayRemaining rest categorized (lines ++ section cat (sort names))
    | None => displayRemaining rest categorized lines
    end
  end.

Definition formatHelp (commands : list Command) : jsstring :=
  let categorized := fold_left file commands [] in
  let lines := [lit "Available commands:" ++ [NEWLINE]] in
  let '(categorized, lines) :=
    displayOrdered CATEGORY_ORDER categorized lines in
  let remainingCats := sort (Map_keys categorized) in
  let lines := displayRemaining remainingCats categorized lines in
  let lines :=
    lines
    ++ [lit "Use '<command> --help' for details on a specific command."] in
  join lines [NEWLINE] ++ [NEWLINE].

(** ** Properties of the listing *)

Lemma jsstring_eqb_refl (a : jsstring) : jsstring_eqb a a = true.
Proof. now apply jsstring_eqb_eq. Qed.

Lemma jsstring_eqb_neq (a b : jsstring) :
  a <> b -> jsstring_eqb a b = false.
Proof.
  intro H. destruct (jsstring_eqb a b) eqn:E; [|reflexivity].
  apply jsstring_eqb_eq in E. contradiction.
Qed.

Lemma jsstring_eqb_sym (a b : jsstring) :
  jsstring_eqb a b = jsstring_eqb b a.
Proof.
  destruct (jsstring_eqb b a) eqn:E.
  - apply jsstring_eqb_eq in E. subst. apply jsstring_eqb_refl.
  - apply jsstring_eqb_neq. intros ->. now rewrite jsstring_eqb_refl in E.
Qed.

(** Membership in a list of strings, as the maps decide it. *)
Definition mem (c : jsstring) (l : list jsstring) : bool :=
  existsb (fun k => jsstring_eqb k c) l.

Lemma mem_In (c : jsstring) (l : list jsstring) : mem c l = true <-> In c l.
Proof.
  unfold mem. rewrite existsb_exists. split.
  - intros (k & Hk & E). apply jsstring_eqb_eq in E. now subst.
  - intro H. exists c. split; [exact H | apply jsstring_eqb_refl].
Qed.

Lemma mem_app (c : jsstring) (l1 l2 : list jsstring) :
  mem c (l1 ++ l2) = mem c l1 || mem c l2.
Proof. apply existsb_app. Qed.

Section Maps.

Context {V : Type}.

Lemma Map_has_keys (m : StringMap V) (k : jsstring) :
  Map_has m k = mem k (Map_keys m).
Proof.
  unfold Map_has, mem, Map_keys. induction m as [|e m IH]; simpl;
    [reflexivity | now rewrite IH].
Qed.

Lemma Map_has_get (m : StringMap V) (k : jsstring) :
  Map_has m k = match Map_get m k with Some _ => true | None => false end.
Proof.
  unfold Map_has. induction m as [|[k' v] m IH]; simpl; [reflexivity|].
  destruct (jsstring_eqb k' k); [reflexivity | exact IH].
Qed.

Lemma Map_get_set (m : StringMap V) (k k' : jsstring) (v : V) :
  Map_get (Map_set m k v) k'
  = if jsstring_eqb k k' then Some v else Map_get m k'.
Proof.
  induction m as [|[k0 v0] m IH]; simpl.
  - reflexivity.
  - destruct (jsstring_eqb k0 k) eqn:E0; simpl.
    + apply jsstring_eqb_eq in E0. subst k0.
      destruct (jsstring_eqb k k'); reflexivity.
    + destruct (jsstring_eqb k0 k') eqn:E1; [|exact IH].
      apply jsstring_eqb_eq in E1. subst k0.
      now rewrite jsstring_eqb_sym, E0.
Qed.

Lemma Map_keys_set (m : StringMap V) (k : jsstring) (v : V) :
  Map_keys (Map_set m k v)
  = if Map_has m k then Map_keys m else Map_keys m ++ [k].
Proof.
  unfold Map_keys, Map_has. induction m as [|[k0 v0] m IH]; simpl;
    [reflexivity|].
  destruct (jsstring_eqb k0 k); simpl; [reflexivity|].
  rewrite IH. now destruct (existsb _ m).
Qed.

Lemma Map_get_filter (p : jsstring -> bool) (m : StringMap V)
    (k : jsstring) :
  Map_get (filter (fun e => p (fst e)) m) k
  = if p k then Map_get m k else None.
Proof.
  induction m as [|[k0 v0] m IH]; simpl; [now destruct (p k)|].
  destruct (p k0) eqn:Ep; simpl.
  - destruct (jsstring_eqb k0 k) eqn:E; [|exact IH].
    apply jsstring_eqb_eq in E. subst k0. now rewrite Ep.
  - destruct (jsstring_eqb k0 k) eqn:E; [|exact IH].
    apply jsstring_eqb_eq in E. subst k0. rewrite IH. now rewrite Ep.
Qed.

Lemma Map_keys_filter (p : jsstring -> bool) (m : StringMap V) :
  Map_keys (filter (fun e => p (fst e)) m) = filter p (Map_keys m).
Proof.
  unfold Map_keys. induction m as [|e m IH]; simpl; [reflexivity|].
  destruct (p (fst e)); simpl; now rewrite IH.
Qed.

End Maps.

(** The names filed under a category, in the order of the commands. *)
Definition namesOf (commands : list Command) (c : jsstring) : list jsstring :=
  map name (filter (fun cmd => jsstring_eqb (categoryOf cmd) c) commands).

(** The categories in the order in which they are first seen. *)
Fixpoint firstSeen (seen cats : list jsstring) : list jsstring :=
  match cats with
  | [] => []
  | c :: rest =>
    if mem c seen then firstSeen seen rest
    else c :: firstSeen (seen ++ [c]) rest
  end.

Definition olist (o : option (list jsstring)) : list jsstring :=
  match o with Some l => l | None => [] end.

Lemma file_get (m : StringMap (list jsstring)) (cmd : Command)
    (c : jsstring) :
  Map_get (file m cmd) c
  = if jsstring_eqb (categoryOf cmd) c
    then Some (olist (Map_get m c) ++ [name cmd])
    else Map_get m c.
Proof.
  unfold file. rewrite Map_has_get.
  destruct (Map_get m (categoryOf cmd)) as [names|] eqn:E; cbn [negb].
  - rewrite E, Map_get_set.
    destruct (jsstring_eqb (categoryOf cmd) c) eqn:Ec; [|reflexivity].
    apply jsstring_eqb_eq in Ec. subst c. now rewrite E.
  - rewrite Map_get_set, jsstring_eqb_refl, !Map_get_set.
    destruct (jsstring_eqb (categoryOf cmd) c) eqn:Ec; [|reflexivity].
    apply jsstring_eqb_eq in Ec. subst c. now rewrite E.
Qed.

Lemma file_keys (m : StringMap (list jsstring)) (cmd : Command) :
  Map_keys (file m cmd)
  = if mem (categoryOf cmd) (Map_keys m) then Map_keys m
    else Map_keys m ++ [categoryOf cmd].
Proof.
  unfold file. rewrite <- Map_has_keys.
  destruct (Map_has m (categoryOf cmd)) eqn:Eh; cbn [negb].
  - pose proof Eh as Eg. rewrite Map_has_get in Eg.
    destruct (Map_get m (categoryOf cmd)); [|discriminate].
    now rewrite Map_keys_set, Eh.
  - rewrite Map_get_set, jsstring_eqb_refl.
    rewrite Map_keys_set, Map_has_get, Map_get_set, jsstring_eqb_refl.
    now rewrite Map_keys_set, Eh.
Qed.

Lemma categorized_get (commands : list Command) (c : jsstring) :
  forall m,
    Map_get (fold_left file commands m) c
    = match namesOf commands c with
      | [] => Map_get m c
      | names => Some (olist (Map_get m c) ++ names)
      end.
Proof.
  induction commands as [|cmd commands IH]; intro m; [reflexivity|].
  cbn [fold_left]. rewrite IH, file_get. unfold namesOf. cbn [filter].
  destruct (jsstring_eqb (categoryOf cmd) c); cbn [map olist].
  - fold (namesOf commands c).
    destruct (namesOf commands c); [reflexivity|].
    now rewrite <- app_assoc.
  - reflexivity.
Qed.

Lemma categorized_keys (commands : list Command) :
  forall m,
    Map_keys (fold_left file commands m)
    = Map_keys m ++ firstSeen (Map_keys m) (map categoryOf commands).
Proof.
  induction commands as [|cmd commands IH]; intro m; cbn [fold_left map
    firstSeen].
  - now rewrite app_nil_r.
  - rewrite IH, file_keys.
    destruct (mem (categoryOf cmd) (Map_keys m)); [reflexivity|].
    now rewrite <- app_assoc.
Qed.

(** What is pushed for a category of a map, if it has it. *)
Definition shown (m : StringMap (list jsstring)) (c : jsstring)
  : list jsstring :=
  match Map_get m c with
  | Some names => section c (sort names)
  | None => []
  end.

Lemma flat_map_same {A B : Type} (f g : A -> list B) (l : list A) :
  (forall a, In a l -> f a = g a) -> flat_map f l = flat_map g l.
Proof.
  induction l as [|a l IH]; intro H; simpl; [reflexivity|].
  rewrite (H a) by (simpl; auto). f_equal. apply IH.
  intros b Hb. apply H. simpl. auto.
Qed.

Lemma filter_twice {A : Type} (p q : A -> bool) (l : list A) :
  filter p (filter q l) = filter (fun a => q a && p a) l.
Proof.
  induction l as [|a l IH]; simpl; [reflexivity|].
  destruct (q a); simpl; [|exact IH].
  destruct (p a); now rewrite IH.
Qed.

Lemma displayOrdered_spec (order : list jsstring) :
  NoDup order ->
  forall m lines,
    displayOrdered order m lines
    = (filter (fun e => negb (mem (fst e) order)) m,
       lines ++ flat_map (shown m) order).
Proof.
  induction 1 as [|cat rest Hnew Hrest IH]; intros m lines;
    cbn [displayOrdered].
  - simpl. rewrite app_nil_r. f_equal.
    induction m as [|e m IHm]; simpl; [reflexivity | now rewrite <- IHm].
  - cbn [flat_map]. rewrite Map_has_get.
    destruct (Map_get m cat) as [names|] eqn:E.
    + assert (shown m cat = section cat (sort names)) as ->
        by (unfold shown; now rewrite E).
      rewrite IH. unfold Map_delete. rewrite filter_twice. f_equal.
      * apply filter_ext. intro e. unfold mem. cbn [existsb].
        rewrite (jsstring_eqb_sym cat (fst e)).
        now destruct (jsstring_eqb (fst e) cat).
      * rewrite <- app_assoc. do 2 f_equal.
        apply flat_map_same. intros c Hc. unfold shown.
        rewrite (Map_get_filter (fun k => negb (jsstring_eqb k cat))).
        rewrite jsstring_eqb_neq; [reflexivity|].
        intros ->. contradiction.
    + assert (shown m cat = []) as -> by (unfold shown; now rewrite E).
      rewrite IH. simpl app. f_equal.
      apply filter_ext_in. intros e He. unfold mem. cbn [existsb].
      rewrite jsstring_eqb_neq; [reflexivity|].
      intros ->.
      assert (Map_has m (fst e) = true) as Hhas.
      { rewrite Map_has_keys. apply mem_In. unfold Map_keys.
        now apply in_map. }
      rewrite Map_has_get, E in Hhas. discriminate.
Qed.

Lemma displayRemaining_spec (remainingCats : list jsstring)
    (m : StringMap (list jsstring)) :
  forall lines,
    displayRemaining remainingCats m lines
    = lines ++ flat_map (shown m) remainingCats.
Proof.
  induction remainingCats as [|cat rest IH]; intro lines;
    cbn [displayRemaining flat_map].
  - now rewrite app_nil_r.
  - unfold shown at 1.
    destruct (Map_get m cat); rewrite IH; [|reflexivity].
    now rewrite <- app_assoc.
Qed.

(** *** Sorting *)

Lemma insert_perm (x : jsstring) (l : list jsstring) :
  Permutation (insert x l) (x :: l).
Proof.
  induction l as [|y l IH]; simpl; [reflexivity|].
  destruct (stringLt y x); [|reflexivity].
  rewrite IH. apply perm_swap.
Qed.

Lemma sort_perm (l : list jsstring) : Permutation (sort l) l.
Proof.
  induction l as [|x l IH]; simpl; [constructor|].
  rewrite insert_perm. now constructor.
Qed.

Lemma sort_In (l : list jsstring) (x : jsstring) : In x (sort l) <-> In x l.
Proof.
  split; apply Permutation_in; [apply sort_perm|].
  apply Permutation_sym, sort_perm.
Qed.

(** [a <= b] on strings: [b < a] does not hold. *)
Definition stringLe (a b : jsstring) : Prop := stringLt b a = false.

Lemma stringLt_asym (a b : jsstring) :
  stringLt a b = true -> stringLt b a = false.
Proof.
  revert b. induction a as [|x a IH]; intros [|y b]; simpl; try congruence.
  destruct (Z.ltb_spec x y), (Z.ltb_spec y x); try congruence; try lia.
  apply IH.
Qed.

Lemma insert_sorted (x : jsstring) (l : list jsstring) :
  Sorted stringLe l -> Sorted stringLe (insert x l).
Proof.
  induction 1 as [|y l Hl IH Hy]; simpl.
  - repeat constructor.
  - destruct (stringLt y x) eqn:E.
    + constructor; [exact IH|].
      destruct l as [|z l]; simpl.
      * constructor. unfold stringLe. now apply stringLt_asym.
      * destruct (stringLt z x).
        -- constructor. now inversion Hy.
        -- constructor. unfold stringLe. now apply stringLt_asym.
    + constructor; [now constructor|]. constructor. exact E.
Qed.

Lemma sort_sorted (l : list jsstring) : Sorted stringLe (sort l).
Proof.
  induction l as [|x l IH]; simpl; [constructor|].
  now apply insert_sorted.
Qed.

(** *** The layout of the listing *)

Definition used (commands : list Command) (c : jsstring) : bool :=
  mem c (map categoryOf commands).

Definition standard (c : jsstring) : bool := mem c CATEGORY_ORDER.

(** The headings in the order of display: the standard categories in
    use, in their fixed order, then the other categories in use, in
    ascending order. *)
Definition headings (commands : list Command) : list jsstring :=
  filter (used commands) CATEGORY_ORDER
  ++ sort (filter (fun c => negb (standard c))
             (firstSeen [] (map categoryOf commands))).

(** The listing with the given sections. *)
Definition render (sections : list (jsstring * list jsstring)) : jsstring :=
  join ([lit "Available commands:" ++ [NEWLINE]]
        ++ flat_map (fun s => section (fst s) (snd s)) sections
        ++ [lit "Use '<command> --help' for details on a specific command."])
    [NEWLINE]
  ++ [NEWLINE].

Definition sections (commands : list Command)
  : list (jsstring * list jsstring) :=
  map (fun c => (c, sort (namesOf commands c))) (headings commands).

Lemma used_namesOf (commands : list Command) (c : jsstring) :
  used commands c
  = match namesOf commands c with [] => false | _ => true end.
Proof.
  unfold used, namesOf, mem.
  induction commands as [|cmd commands IH]; simpl; [reflexivity|].
  destruct (jsstring_eqb (categoryOf cmd) c); simpl; [reflexivity|].
  exact IH.
Qed.

Lemma firstSeen_In (cats : list jsstring) (c : jsstring) :
  forall seen, In c (firstSeen seen cats) -> In c cats.
Proof.
  induction cats as [|c' cats IH]; intro seen; simpl; [auto|].
  destruct (mem c' seen); simpl.
  - intro H. right. eapply IH. exact H.
  - intros [H|H]; [now left | right; eapply IH; exact H].
Qed.

Lemma shown_categorized (commands : list Command) (c : jsstring) :
  shown (fold_left file commands []) c
  = if used commands c then section c (sort (namesOf commands c)) else [].
Proof.
  unfold shown. rewrite categorized_get, used_namesOf. simpl.
  now destruct (namesOf commands c).
Qed.

Lemma flat_map_filter {A B : Type} (p : A -> bool) (f : A -> list B)
    (l : list A) :
  flat_map (fun a => if p a then f a else []) l = flat_map f (filter p l).
Proof.
  induction l as [|a l IH]; simpl; [reflexivity|].
  destruct (p a); simpl; now rewrite IH.
Qed.

Lemma CATEGORY_ORDER_NoDup : NoDup CATEGORY_ORDER.
Proof.
  unfold CATEGORY_ORDER.
  repeat (constructor;
          [simpl; intros H;
           repeat (destruct H as [H|H]; [discriminate H|]); exact H|]).
  constructor.
Qed.

Lemma formatHelp_sections (commands : list Command) :
  formatHelp commands = render (sections commands).
Proof.
  unfold formatHelp, render, sections.
  rewrite (displayOrdered_spec CATEGORY_ORDER CATEGORY_ORDER_NoDup).
  rewrite displayRemaining_spec.
  rewrite (Map_keys_filter (fun k => negb (mem k CATEGORY_ORDER))).
  rewrite categorized_keys. cbn [Map_keys map app].
  do 2 f_equal. rewrite <- !app_assoc. cbn [app]. f_equal.
  rewrite app_assoc. f_equal.
  rewrite (flat_map_concat_map _ (map _ _)), map_map, <- flat_map_concat_map.
  cbn [fst snd]. unfold headings. rewrite flat_map_app. f_equal.
  - rewrite <- flat_map_filter. apply flat_map_same. intros c _.
    apply shown_categorized.
  - apply flat_map_same. intros c Hc. unfold shown.
    rewrite (Map_get_filter (fun k => negb (mem k CATEGORY_ORDER))).
    apply (proj1 (sort_In _ _)), filter_In in Hc. destruct Hc as [Hseen Hstd].
    unfold standard in Hstd. rewrite Hstd.
    fold (shown (fold_left file commands []) c).
    rewrite shown_categorized.
    apply firstSeen_In in Hseen. apply mem_In in Hseen.
    unfold used. now rewrite Hseen.
Qed.

Lemma firstSeen_new (cats : list jsstring) :
  forall seen,
    NoDup (firstSeen seen cats)
    /\ (forall c, In c (firstSeen seen cats) -> ~ In c seen)
    /\ (forall c, In c cats -> In c seen \/ In c (firstSeen seen cats)).
Proof.
  induction cats as [|c' cats IH]; intro seen; cbn [firstSeen].
  - split; [constructor|]. split; [intros c [] | intros c []].
  - destruct (mem c' seen) eqn:E.
    + destruct (IH seen) as (H1 & H2 & H3). split; [exact H1|].
      split; [exact H2|]. intros c [<-|Hc]; [|now apply H3].
      left. now apply mem_In.
    + destruct (IH (seen ++ [c'])) as (H1 & H2 & H3).
      assert (~ In c' seen) as Hnew.
      { intro H. apply mem_In in H. congruence. }
      split; [|split].
      * constructor; [|exact H1]. intro H. apply (H2 c' H).
        apply in_or_app. right. simpl. auto.
      * intros c [<-|Hc]; [exact Hnew|]. intro H. apply (H2 c Hc).
        apply in_or_app. now left.
      * intros c [<-|Hc]; [right; simpl; auto|].
        destruct (H3 c Hc) as [H|H]; [|right; simpl; auto].
        apply in_app_or in H. destruct H as [H|[<-|[]]]; [now left|].
        right. simpl. auto.
Qed.

Lemma used_firstSeen (commands : list Command) (c : jsstring) :
  used commands c = true
  <-> In c (firstSeen [] (map categoryOf commands)).
Proof.
  unfold used. rewrite mem_In.
  destruct (firstSeen_new (map categoryOf commands) []) as (_ & _ & H).
  split.
  - intro Hc. destruct (H c Hc) as [[]|Hin]. exact Hin.
  - apply firstSeen_In.
Qed.

Lemma filter_split_perm {A : Type} (p q : A -> bool) (l : list A) :
  (forall a, p a = true -> q a = false) ->
  Permutation (filter p l ++ filter q l) (filter (fun a => p a || q a) l).
Proof.
  intro Hpq. induction l as [|a l IH]; simpl; [constructor|].
  destruct (p a) eqn:Ep; simpl.
  - rewrite (Hpq a Ep). now constructor.
  - destruct (q a); [|exact IH].
    rewrite <- Permutation_middle. now constructor.
Qed.

Lemma filter_all {A : Type} (p : A -> bool) (l : list A) :
  (forall a, In a l -> p a = true) -> filter p l = l.
Proof.
  induction l as [|a l IH]; intro H; simpl; [reflexivity|].
  rewrite (H a) by (simpl; auto). f_equal. apply IH.
  intros b Hb. apply H. simpl. auto.
Qed.

Lemma flat_map_perm {A B : Type} (f g : A -> list B) (l : list A) :
  (forall a, Permutation (f a) (g a)) ->
  Permutation (flat_map f l) (flat_map g l).
Proof.
  intro H. induction l as [|a l IH]; simpl; [constructor|].
  now apply Permutation_app.
Qed.

(** Grouping the names by distinct categories loses and repeats
    nothing. *)
Lemma namesOf_groups (commands : list Command) (cats : list jsstring) :
  NoDup cats ->
  Permutation (flat_map (namesOf commands) cats)
    (map name (filter (fun cmd => mem (categoryOf cmd) cats) commands)).
Proof.
  induction 1 as [|c cats Hnew Hcats IH]; cbn [flat_map].
  - replace (filter (fun cmd => mem (categoryOf cmd) []) commands)
      with (@nil Command); [constructor|].
    induction commands as [|cmd commands IHc]; simpl; [reflexivity | exact IHc].
  - rewrite IH. unfold namesOf. rewrite <- map_app.
    apply Permutation_map.
    rewrite filter_split_perm.
    + erewrite filter_ext; [reflexivity|].
      intro cmd. unfold mem. cbn [existsb].
      now rewrite (jsstring_eqb_sym c).
    + intros cmd E. apply jsstring_eqb_eq in E. subst c.
      destruct (mem (categoryOf cmd) cats) eqn:Em; [|reflexivity].
      apply mem_In in Em. contradiction.
Qed.

Lemma headings_perm (commands : list Command) :
  Permutation (headings commands)
    (firstSeen [] (map categoryOf commands)).
Proof.
  unfold headings.
  destruct (firstSeen_new (map categoryOf commands) []) as (Hnodup & _ & _).
  set (cats := firstSeen [] (map categoryOf commands)) in *.
  rewrite sort_perm.
  transitivity (filter standard cats
                ++ filter (fun c => negb (standard c)) cats).
  - apply Permutation_app_tail. apply NoDup_Permutation.
    + apply NoDup_filter, CATEGORY_ORDER_NoDup.
    + now apply NoDup_filter.
    + intro c. rewrite !filter_In. unfold standard.
      rewrite used_firstSeen, mem_In. fold cats. tauto.
  - rewrite filter_split_perm.
    + rewrite filter_all; [reflexivity|].
      intros c _. now destruct (standard c).
    + intros c ->. reflexivity.
Qed.

Lemma headings_NoDup (commands : list Command) : NoDup (headings commands).
Proof.
  destruct (firstSeen_new (map categoryOf commands) []) as (Hnodup & _ & _).
  eapply Permutation_NoDup; [|exact Hnodup].
  apply Permutation_sym, headings_perm.
Qed.

Lemma headings_used (commands : list Command) (c : jsstring) :
  In c (headings commands) <-> used commands c = true.
Proof.
  rewrite used_firstSeen. split; apply Permutation_in;
    [|apply Permutation_sym]; apply headings_perm.
Qed.

(** The exact layout of the listing: the standard categories in use,
    in the order of [CATEGORY_ORDER], then the other categories in use
    in ascending order; under each heading the names of its commands,
    sorted. *)
Theorem formatHelp_layout (commands : list Command) :
  formatHelp commands
  = render (map (fun c => (c, sort (namesOf commands c)))
              (filter (used commands) CATEGORY_ORDER
               ++ sort (filter (fun c => negb (standard c))
                          (firstSeen [] (map categoryOf commands))))).
Proof. apply formatHelp_sections. Qed.

(** Every command is listed exactly once: the names under the headings
    of the listing are, together, a rearrangement of the names of the
    commands; no heading is repeated or empty; the names under a heading
    are sorted and belong to commands of that category. *)
Theorem formatHelp_lists_every_command (commands : list Command) :
  exists listed : list (jsstring * list jsstring),
    formatHelp commands = render listed
    /\ Permutation (flat_map snd listed) (map name commands)
    /\ NoDup (map fst listed)
    /\ Forall (fun s =>
                 snd s <> []
                 /\ Sorted stringLe (snd s)
                 /\ Forall (fun n =>
                              exists cmd, In cmd commands
                                          /\ name cmd = n
                                          /\ categoryOf cmd = fst s)
                      (snd s)) listed.
Proof.
  exists (sections commands). split; [apply formatHelp_sections|].
  unfold sections. split; [|split].
  - rewrite flat_map_concat_map, map_map, <- flat_map_concat_map.
    cbn [snd].
    rewrite (flat_map_perm _ (namesOf commands))
      by (intro c; apply sort_perm).
    rewrite (Permutation_flat_map _ (headings_perm commands)).
    destruct (firstSeen_new (map categoryOf commands) []) as (Hnodup & _ & _).
    rewrite namesOf_groups by exact Hnodup.
    rewrite filter_all; [reflexivity|].
    intros cmd Hcmd. apply mem_In, used_firstSeen.
    unfold used. apply mem_In. now apply in_map.
  - rewrite map_map. cbn [fst]. rewrite map_id. apply headings_NoDup.
  - apply Forall_forall. intros s Hs. apply in_map_iff in Hs.
    destruct Hs as (c & <- & Hc). cbn [fst snd].
    apply headings_used in Hc. split; [|split].
    + rewrite used_namesOf in Hc. intro E.
      pose proof (Permutation_length (sort_perm (namesOf commands c))) as Hl.
      rewrite E in Hl. destruct (namesOf commands c); [discriminate|].
      discriminate.
    + apply sort_sorted.
    + apply Forall_forall. intros n Hn. apply (proj1 (sort_In _ _)) in Hn.
      unfold namesOf in Hn. apply in_map_iff in Hn.
      destruct Hn as (cmd & Hname & Hcmd). apply filter_In in Hcmd.
      destruct Hcmd as [Hcmd E]. apply jsstring_eqb_eq in E.
      exists cmd. auto.
Qed.

(** *** The table of built-in categories *)

(** No string of the list occurs in [seen] or twice. *)
Fixpoint distinctFrom (seen l : list jsstring) : bool :=
  match l with
  | [] => true
  | x :: rest => negb (mem x seen) && distinctFrom (x :: seen) rest
  end.

Lemma Map_get_In {V : Type} (m : StringMap V) (k : jsstring) (v : V) :
  Map_get m k = Some v -> In (k, v) m.
Proof.
  induction m as [|[k0 v0] m IH]; simpl; [discriminate|].
  destruct (jsstring_eqb k0 k) eqn:E.
  - apply jsstring_eqb_eq in E. subst k0. intro H. injection H as ->.
    now left.
  - intro H. right. now apply IH.
Qed.

Lemma Map_In_get {V : Type} (m : StringMap V) (k : jsstring) (v : V) :
  NoDup (Map_keys m) -> In (k, v) m -> Map_get m k = Some v.
Proof.
  unfold Map_keys. induction m as [|[k0 v0] m IH]; simpl; [contradiction|].
  intros Hnodup [E|Hin].
  - injection E as -> ->. now rewrite jsstring_eqb_refl.
  - inversion Hnodup as [|? ? Hnew Hrest]; subst.
    rewrite jsstring_eqb_neq; [now apply IH|].
    intros ->. apply Hnew. apply in_map_iff. exists (k, v). auto.
Qed.

Lemma distinctFrom_NoDup (l : list jsstring) :
  forall seen,
    distinctFrom seen l = true ->
    NoDup l /\ forall x, In x l -> ~ In x seen.
Proof.
  induction l as [|x l IH]; intros seen H.
  - split; [constructor | intros x []].
  - cbn [distinctFrom] in H.
    apply andb_true_iff in H. destruct H as [Hx Hrest].
    apply negb_true_iff in Hx.
    destruct (IH (x :: seen) Hrest) as [Hnodup Hnew].
    split.
    + constructor; [|exact Hnodup]. intro Hin.
      apply (Hnew x Hin). simpl. auto.
    + intros y [<-|Hy].
      * intro Hin. apply mem_In in Hin. congruence.
      * intro Hin. apply (Hnew y Hy). simpl. auto.
Qed.

(** The reverse lookup is exact: it maps a name to a category exactly
    when the table lists the name under that category; no name is
    listed twice, so that no entry overwrites another. *)
Theorem legacy_lookup_exact (cmd cat : jsstring) :
  Map_get LEGACY_CMD_TO_CAT cmd = Some cat
  <-> exists cmds, In (cat, cmds) LEGACY_CATEGORIES /\ In cmd cmds.
Proof.
  assert (LEGACY_CMD_TO_CAT
          = flat_map (fun e => map (fun c => (c, fst e)) (snd e))
              LEGACY_CATEGORIES) as Htable by reflexivity.
  assert (NoDup (Map_keys LEGACY_CMD_TO_CAT)) as Hnodup.
  { apply (distinctFrom_NoDup _ []). vm_compute. reflexivity. }
  split.
  - intro H. apply Map_get_In in H. rewrite Htable in H.
    apply in_flat_map in H. destruct H as ([c cmds] & He & Hin).
    apply in_map_iff in Hin. destruct Hin as (x & E & Hx).
    cbn [fst snd] in *. injection E as -> ->. exists cmds. auto.
  - intros (cmds & He & Hin). apply Map_In_get; [exact Hnodup|].
    rewrite Htable. apply in_flat_map. exists (cat, cmds).
    split; [exact He|]. cbn [fst snd]. apply in_map_iff. exists cmd. auto.
Qed.

(** *** The order of registration does not matter *)

Lemma stringLt_irrefl (a : jsstring) : stringLt a a = false.
Proof.
  induction a as [|x a IH]; simpl; [reflexivity|].
  now rewrite Z.ltb_irrefl.
Qed.

Lemma stringLt_total (a b : jsstring) :
  stringLt a b = false -> stringLt b a = false -> a = b.
Proof.
  revert b. induction a as [|x a IH]; intros [|y b]; simpl;
    try congruence.
  destruct (Z.ltb_spec x y), (Z.ltb_spec y x); try congruence; try lia.
  intros H1 H2. assert (x = y) as -> by lia. f_equal. now apply IH.
Qed.

Lemma stringLt_trans (a b c : jsstring) :
  stringLt a b = true -> stringLt b c = true -> stringLt a c = true.
Proof.
  revert b c. induction a as [|x a IH]; intros [|y b] [|z c]; simpl;
    try congruence.
  destruct (Z.ltb_spec x y), (Z.ltb_spec y x), (Z.ltb_spec y z),
    (Z.ltb_spec z y), (Z.ltb_spec x z), (Z.ltb_spec z x);
    try congruence; try lia.
  apply IH.
Qed.

Lemma stringLe_trans (a b c : jsstring) :
  stringLe a b -> stringLe b c -> stringLe a c.
Proof.
  unfold stringLe. intros Hab Hbc.
  destruct (stringLt c a) eqn:Hca; [|reflexivity].
  destruct (stringLt a b) eqn:Hlt.
  - rewrite (stringLt_trans c a b Hca Hlt) in Hbc. discriminate.
  - assert (a = b) as -> by now apply stringLt_total.
    congruence.
Qed.

Lemma sorted_unique (l : list jsstring) :
  forall l',
    Sorted stringLe l -> Sorted stringLe l' -> Permutation l l' -> l = l'.
Proof.
  induction l as [|x l IH]; intros l' Hs Hs' Hp.
  - now apply Permutation_nil in Hp.
  - destruct l' as [|y l'].
    { apply Permutation_sym, Permutation_nil in Hp. discriminate. }
    apply Sorted_StronglySorted in Hs; [|exact stringLe_trans].
    apply Sorted_StronglySorted in Hs'; [|exact stringLe_trans].
    inversion Hs as [|? ? Hl Hx]; subst.
    inversion Hs' as [|? ? Hl' Hy]; subst.
    assert (x = y) as ->.
    { apply stringLt_total.
      - assert (In x (y :: l')) as Hin
          by (eapply Permutation_in; [exact Hp | simpl; auto]).
        destruct Hin as [<-|Hin]; [apply stringLt_irrefl|].
        rewrite Forall_forall in Hy. specialize (Hy x Hin).
        exact Hy.
      - assert (In y (x :: l)) as Hin
          by (eapply Permutation_in;
              [apply Permutation_sym; exact Hp | simpl; auto]).
        destruct Hin as [<-|Hin]; [apply stringLt_irrefl|].
        rewrite Forall_forall in Hx. specialize (Hx y Hin).
        exact Hx. }
    f_equal. apply IH.
    + now apply StronglySorted_Sorted.
    + now apply StronglySorted_Sorted.
    + now apply Permutation_cons_inv in Hp.
Qed.

Lemma sort_unique (l l' : list jsstring) :
  Permutation l l' -> sort l = sort l'.
Proof.
  intro H. apply sorted_unique; try apply sort_sorted.
  rewrite !sort_perm. exact H.
Qed.

Lemma filter_perm {A : Type} (p : A -> bool) (l l' : list A) :
  Permutation l l' -> Permutation (filter p l) (filter p l').
Proof.
  induction 1 as [|a l l' H IH|a b l|l1 l2 l3 H1 IH1 H2 IH2]; simpl.
  - constructor.
  - destruct (p a); [now constructor | exact IH].
  - destruct (p a), (p b); try reflexivity. apply perm_swap.
  - now transitivity (filter p l2).
Qed.

(** The listing does not depend on the order in which the commands are
    registered. *)
Theorem formatHelp_order_independent (commands commands' : list Command) :
  Permutation commands commands' ->
  formatHelp commands = formatHelp commands'.
Proof.
  intro Hp. rewrite !formatHelp_sections. f_equal.
  assert (forall c, used commands c = used commands' c) as Hused.
  { intro c. unfold used.
    destruct (mem c (map categoryOf commands')) eqn:E.
    - apply mem_In. apply mem_In in E.
      eapply Permutation_in; [|exact E].
      apply Permutation_map, Permutation_sym, Hp.
    - destruct (mem c (map categoryOf commands)) eqn:E'; [|reflexivity].
      apply mem_In in E'.
      assert (In c (map categoryOf commands')) as Hin
        by (eapply Permutation_in; [|exact E'];
            apply Permutation_map, Hp).
      apply mem_In in Hin. congruence. }
  assert (headings commands = headings commands') as Hheadings.
  { unfold headings. f_equal.
    - apply filter_ext. exact Hused.
    - apply sort_unique, filter_perm.
      destruct (firstSeen_new (map categoryOf commands) []) as (H1 & _ & _).
      destruct (firstSeen_new (map categoryOf commands') []) as (H2 & _ & _).
      apply NoDup_Permutation; [exact H1 | exact H2|].
      intro c. now rewrite <- !used_firstSeen, Hused. }
  unfold sections. rewrite Hheadings. apply map_ext. intro c. f_equal.
  apply sort_unique. unfold namesOf.
  now apply Permutation_map, filter_perm.
Qed.

(** *** Instances *)

(** Two commands registered in either order. *)
Lemma formatHelp_order_independent_witness :
  let ls := mkCommand (lit "ls") None in
  let deploy := mkCommand (lit "deploy") (Some (lit "Ops")) in
  Permutation [ls; deploy] [deploy; ls]
  /\ formatHelp [ls; deploy] = formatHelp [deploy; ls].
Proof.
  cbv zeta. split; [apply perm_swap|].
  apply (formatHelp_order_independent
           [mkCommand (lit "ls") None;
            mkCommand (lit "deploy") (Some (lit "Ops"))]
           [mkCommand (lit "deploy") (Some (lit "Ops"));
            mkCommand (lit "ls") None]).
  apply perm_swap.
Defined.

End Help.
